(** * Rate-limiter service: a shallow embedding and its properties

    The development follows the TypeScript sources:
    - [src/algorithms/fixed-window.ts], [sliding-window.ts], [token-bucket.ts]
      (the three limiters, each a Lua script run atomically by Redis plus a
      TypeScript wrapper that builds the [CheckResult]);
    - [src/algorithms/factory.ts] (the table of limiter instances);
    - [src/cache/rule-service.ts] (rule cache and CRUD);
    - [src/services/rate-limiter.ts] (the orchestrator);
    - [src/storage/redis.ts] (the storage adapter);
    - [src/api/rest/routes/check.ts], [rules.ts] (the REST handlers);
    - [src/webhook/notifier.ts] ([shouldNotify], [notify]).

    Conventions of the embedding.
    - JavaScript and Lua numbers are IEEE 754 binary64.  Integer quantities
      (limits, windows, millisecond timestamps, counters) are modelled in
      [Z]: their arithmetic is exact in binary64 below [2^53].  A date is
      valid up to 8.64e15 ms from the epoch, which is below [2^53].
    - The fractional quantities of the sliding window and of the token bucket
      are modelled twice.  [SlidingWindowLimiter] and [TokenBucketLimiter]
      compute in binary64, every operation rounded as Lua and JavaScript
      round it ([Binary64.round]; overflow to infinity is not modelled, the
      operands being far below [2^1024]); the decision formulas of the two
      limiters are stated over them.  [SlidingWindow] and [TokenBucket] are
      the same scripts over the exact rationals of [Q]; the properties of
      runs of checks and of the service around the limiters are stated over
      them.
    - [Date.now()], [new Date()] and [uuidv4()] are inputs of the functions
      that call them.  A [Date] is its millisecond timestamp.
    - Redis executes a command or a script at the instant [now] read by the
      caller: one clock is shared by the service and the store.
    - A thrown exception is a value of type [exn]; a computation is a function
      from the state to an outcome and the state left behind. *)

From Stdlib Require Import ZArith QArith Qround Qminmax Lia Lqa Sorted Ascii.
From Stdlib Require SpecFloat.
From stdpp Require Import base option list strings pretty gmap.

Local Open Scope Z_scope.

(** ** Exceptions and the state-and-exception monad *)

Inductive exn : Type :=
| Error (message : string)   (* [throw new Error(message)] *)
| ZodError                   (* a zod schema rejected its input *)
| SyntaxError                (* [JSON.parse] on malformed text *)
| ReplyError.                (* Redis refused a command, or a script failed *)

Definition M (S A : Type) : Type := S → (exn + A) * S.

Definition throw {S A} (e : exn) : M S A := λ s, (inl e, s).

#[global] Instance M_ret {S} : MRet (M S) := λ A a s, (inr a, s).

#[global] Instance M_bind {S} : MBind (M S) := λ A B k m s,
  match m s with
  | (inr a, s') => k a s'
  | (inl e, s') => (inl e, s')
  end.

(** ** IEEE 754 binary64 numbers

    A finite double is the rational it denotes.  [round] is the rounding of
    the standard, to nearest with ties to even, on 53 significant bits; below
    [2^-1022] the spacing stays [2^-1074] (subnormal numbers).  An operation
    of Lua or JavaScript on doubles is the exact operation followed by
    [round]. *)

Module Binary64.

(** The exponent of the unit in the last place of a positive rational [a/d]:
    [e − 52] for [2^e ≤ a/d < 2^(e+1)], and −1074 in the subnormal range. *)
Definition ulp_exponent (a d : Z) : Z :=
  let e0 := Z.log2 a - Z.log2 d in
  let e := if (if 0 <=? e0 then d * 2 ^ e0 <=? a else d <=? a * 2 ^ (- e0))
           then e0 else e0 - 1 in
  Z.max (e - 52) (-1074).

Definition round (q : Q) : Q :=
  let n := Qnum q in
  let d := Zpos (Qden q) in
  if n =? 0 then 0%Q
  else
    let a := Z.abs n in
    let x := ulp_exponent a d in
    let N := if 0 <=? x then a else a * 2 ^ (- x) in
    let D := if 0 <=? x then d * 2 ^ x else d in
    let m := N / D in
    let r := N mod D in
    let m := if (D <? 2 * r) || ((D =? 2 * r) && Z.odd m) then m + 1 else m in
    let s := Z.sgn n in
    if 0 <=? x then inject_Z (s * m * 2 ^ x)
    else Qred (Qmake (s * m) (Z.to_pos (2 ^ (- x)))).

(** The double of an integer literal or of a decimal integer string. *)
Definition of_Z (z : Z) : Q := round (inject_Z z).

Definition add (x y : Q) : Q := round (x + y).
Definition sub (x y : Q) : Q := round (x - y).
Definition mul (x y : Q) : Q := round (x * y).
(** [x / y] for [y] other than zero. *)
Definition div (x y : Q) : Q := round (x / y).

(** A number that may be infinite or undefined. *)
Inductive number : Type :=
| Finite (q : Q)
| Infinity (negative : bool)
| NaN.

(** [x / y] of two finite doubles, [y] a positive zero when it is zero. *)
Definition div_number (x y : Q) : number :=
  if Qeq_bool y 0 then
    if Qeq_bool x 0 then NaN else Infinity (negb (Qle_bool 0 x))
  else Finite (div x y).

(** [x * y] for a finite, positive [y]. *)
Definition mul_number (x : number) (y : Q) : number :=
  match x with
  | Finite x => Finite (mul x y)
  | Infinity negative => Infinity negative
  | NaN => NaN
  end.

(** [x >= y] for a finite [y]. *)
Definition geb (x : number) (y : Q) : bool :=
  match x with
  | Finite x => Qle_bool y x
  | Infinity negative => negb negative
  | NaN => false
  end.

End Binary64.

(** The Standard Library specifies the operations of IEEE 754 on pairs of a
    mantissa and an exponent ([SpecFloat], here at 53 bits of precision and
    exponents below 1024).  [agree_on] compares [Binary64] with it. *)

Module SpecBinary64.

Definition of_Z (z : Z) : SpecFloat.spec_float :=
  SpecFloat.binary_normalize 53 1024 z 0 false.

(** The rational that a finite number denotes. *)
Definition value (x : SpecFloat.spec_float) : option Q :=
  match x with
  | SpecFloat.S754_zero _ => Some 0%Q
  | SpecFloat.S754_finite s m e =>
      let z := if s then Z.neg m else Z.pos m in
      Some (if 0 <=? e then inject_Z (z * 2 ^ e)
            else Qmake z (Z.to_pos (2 ^ (- e))))
  | _ => None
  end.

Definition agree (x : Q) (y : SpecFloat.spec_float) : bool :=
  match value y with
  | Some q => Qeq_bool x q
  | None => false
  end.

(** Whether the four operations agree on [a / b] and on what is computed
    from it: [(a / b) * b], [(a / b) + a], [1 - a / b], [(a / b) / b]. *)
Definition agree_on (ab : Z * Z) : bool :=
  let '(a, b) := ab in
  let x := Binary64.of_Z a in
  let y := Binary64.of_Z b in
  let q := Binary64.div x y in
  let f := SpecFloat.SFdiv 53 1024 (of_Z a) (of_Z b) in
  agree x (of_Z a)
  && agree y (of_Z b)
  && agree q f
  && agree (Binary64.mul q y) (SpecFloat.SFmul 53 1024 f (of_Z b))
  && agree (Binary64.add q x) (SpecFloat.SFadd 53 1024 f (of_Z a))
  && agree (Binary64.sub 1 q) (SpecFloat.SFsub 53 1024 (of_Z 1) f)
  && agree (Binary64.div q y) (SpecFloat.SFdiv 53 1024 f (of_Z b)).

(** Pairs of operands drawn by a linear congruential generator. *)
Fixpoint samples (n : nat) (seed : Z) : list (Z * Z) :=
  match n with
  | O => []
  | S n' =>
      let s1 := (seed * 6364136223846793005 + 1442695040888963407) mod 2 ^ 64 in
      let s2 := (s1 * 6364136223846793005 + 1442695040888963407) mod 2 ^ 64 in
      (s1 / 2 ^ 11 - 2 ^ 52, s2 / 2 ^ 30 + 1) :: samples n' s2
  end.

End SpecBinary64.

(** ** The Redis store

    A key holds a string or a hash and may carry an expiry deadline.  The
    string values that occur are counters (decimal integers, [VInt]) and other
    text ([VText], the JSON of a rule); the only hash is the token bucket with
    its two fields [tokens] and [last_update], always written together. *)

Inductive rvalue : Type :=
| VInt (n : Z)
| VText (s : string)
| VHash (tokens : Q) (last_update : Z).

Record entry : Type := Entry { value : rvalue; expireAt : option Z }.

Abbreviation redis := (gmap string entry).

Module Redis.

(** A key whose deadline has passed is gone. *)
Definition alive (clk : Z) (e : entry) : bool :=
  match expireAt e with
  | Some deadline => clk <? deadline
  | None => true
  end.

Definition fetch (clk : Z) (db : redis) (k : string) : option entry :=
  match db !! k with
  | Some e => if alive clk e then Some e else None
  | None => None
  end.

(** [GET key]: the string at [key], [None] for Lua's [false]. *)
Definition GET (clk : Z) (k : string) : M redis (option rvalue) := λ db,
  match fetch clk db k with
  | None => (inr None, db)
  | Some e =>
      match value e with
      | VHash _ _ => (inl ReplyError, db)
      | v => (inr (Some v), db)
      end
  end.

(** [INCR key]: a missing key counts as 0; the deadline of a live key is
    kept.  (The 64-bit overflow refusal of Redis is out of reach: the
    scripts increment only below [limit].) *)
Definition INCR (clk : Z) (k : string) : M redis Z := λ db,
  match fetch clk db k with
  | None => (inr 1, <[k := Entry (VInt 1) None]> db)
  | Some e =>
      match value e with
      | VInt n => (inr (n + 1), <[k := Entry (VInt (n + 1)) (expireAt e)]> db)
      | _ => (inl ReplyError, db)
      end
  end.

(** [EXPIRE key seconds]. *)
Definition EXPIRE (clk : Z) (k : string) (seconds : Z) : M redis unit := λ db,
  match fetch clk db k with
  | None => (inr tt, db)
  | Some e => (inr tt, <[k := Entry (value e) (Some (clk + seconds * 1000))]> db)
  end.

(** A Lua number in the reply of a script becomes an integer of the Redis
    protocol: its fraction is dropped. *)
Definition integer_reply (x : Q) : Z := Z.quot (Qnum x) (Z.pos (Qden x)).

(** A Lua number as the argument of a command that takes an integer: Redis
    prints it with [%.17g], which gives the decimal digits of an integer
    below [10^17] in absolute value and a text that the command refuses
    otherwise. *)
Definition integer_arg (x : Q) : M redis Z :=
  if (Z.pos (Qden x) =? 1) && (Z.abs (Qnum x) <? 10 ^ 17) then mret (Qnum x)
  else throw ReplyError.

(** [HMGET key 'tokens' 'last_update']. *)
Definition HMGET (clk : Z) (k : string) : M redis (option (Q * Z)) := λ db,
  match fetch clk db k with
  | None => (inr None, db)
  | Some e =>
      match value e with
      | VHash tokens last_update => (inr (Some (tokens, last_update)), db)
      | _ => (inl ReplyError, db)
      end
  end.

(** [HMSET key 'tokens' t 'last_update' u]. *)
Definition HMSET (clk : Z) (k : string) (tokens : Q) (last_update : Z)
  : M redis unit := λ db,
  match fetch clk db k with
  | None => (inr tt, <[k := Entry (VHash tokens last_update) None]> db)
  | Some e =>
      match value e with
      | VHash _ _ =>
          (inr tt, <[k := Entry (VHash tokens last_update) (expireAt e)]> db)
      | _ => (inl ReplyError, db)
      end
  end.

(** Lua's [tonumber] on a reply string; [None] is [nil]. *)
Definition tonumber (v : rvalue) : option Z :=
  match v with
  | VInt n => Some n
  | _ => None
  end.

(** Arithmetic or comparison on [nil] aborts the script. *)
Definition number (v : option Z) : M redis Z :=
  match v with
  | Some n => mret n
  | None => throw ReplyError
  end.

End Redis.

(** ** [models/result.ts] *)

Inductive AlgorithmType : Type := token_bucket | fixed_window | sliding_window.

Module CheckResult.
Record t : Type := Build {
  allowed : bool;
  limit : Z;
  remaining : Z;
  resetAt : Z;
  retryAfter : option Z;
  currentUsage : Z
}.
End CheckResult.

(** [Math.ceil(a / b)] on integers [a] and [b]. *)
Definition ceil_div (a b : Z) : Z := Qceiling (inject_Z a / inject_Z b).

(** ** [algorithms/fixed-window.ts] *)

Module FixedWindow.

Definition script (clk : Z) (key : string) (limit window : Z) : M redis (Z * Z) :=
  current ← Redis.GET clk key;
  current ← Redis.number (match current with
                          | None => Some 0
                          | Some v => Redis.tonumber v
                          end);
  if current <? limit then
    new_count ← Redis.INCR clk key;
    _ ← Redis.EXPIRE clk key window;
    mret (1, new_count)
  else
    mret (0, current).

Definition windowStart (window now : Z) : Z :=
  now / (window * 1000) * (window * 1000).

Definition redisKey (key : string) (windowStart : Z) : string :=
  "rl:fixed_window:" +:+ key +:+ ":" +:+ pretty windowStart.

Definition check (key : string) (limit window : Z) (now : Z)
  : M redis CheckResult.t :=
  let windowStart := windowStart window now in
  let redisKey := redisKey key windowStart in
  '(allowed, currentCount) ← script now redisKey limit window;
  let remaining := Z.max 0 (limit - currentCount) in
  let resetAt := windowStart + window * 1000 in
  let retryAfter :=
    if allowed =? 0 then Some (ceil_div (resetAt - now) 1000) else None in
  mret {| CheckResult.allowed := allowed =? 1;
         CheckResult.limit := limit;
         CheckResult.remaining := remaining;
         CheckResult.resetAt := resetAt;
         CheckResult.retryAfter := retryAfter;
         CheckResult.currentUsage := currentCount |}.

End FixedWindow.

(** Comparison of Lua numbers: [x < y]. *)
Definition Qlt_bool (x y : Q) : bool := negb (Qle_bool y x).

(** ** [algorithms/sliding-window.ts], in exact arithmetic *)

Module SlidingWindow.

Definition script (clk : Z) (current_key previous_key : string)
    (limit window now current_window : Z) : M redis (Z * Z * Z) :=
  current_count ← Redis.GET clk current_key;
  current_count ← Redis.number (match current_count with
                                | None => Some 0
                                | Some v => Redis.tonumber v
                                end);
  previous_count ← Redis.GET clk previous_key;
  previous_count ← Redis.number (match previous_count with
                                 | None => Some 0
                                 | Some v => Redis.tonumber v
                                 end);
  let elapsed : Q :=
    (inject_Z (now - current_window) / inject_Z (window * 1000))%Q in
  let weighted_previous : Q := (inject_Z previous_count * (1 - elapsed))%Q in
  let estimated_count : Q := (weighted_previous + inject_Z current_count)%Q in
  if Qlt_bool estimated_count (inject_Z limit) then
    new_count ← Redis.INCR clk current_key;
    _ ← Redis.EXPIRE clk current_key (window * 2);
    mret (1, Qfloor estimated_count, new_count)
  else
    mret (0, Qfloor estimated_count, current_count).

Definition windowKey (key : string) (windowStart : Z) : string :=
  "rl:sliding_window:" +:+ key +:+ ":" +:+ pretty windowStart.

Definition currentWindow (window now : Z) : Z :=
  now / (window * 1000) * (window * 1000).

Definition check (key : string) (limit window : Z) (now : Z)
  : M redis CheckResult.t :=
  let currentWindow := currentWindow window now in
  let previousWindow := currentWindow - window * 1000 in
  let currentKey := windowKey key currentWindow in
  let previousKey := windowKey key previousWindow in
  '(allowed, estimatedCount, _) ←
    script now currentKey previousKey limit window now currentWindow;
  let remaining := Z.max 0 (limit - estimatedCount) in
  let resetAt := currentWindow + window * 1000 in
  let retryAfter :=
    if allowed =? 0 then Some (ceil_div (resetAt - now) 1000) else None in
  mret {| CheckResult.allowed := allowed =? 1;
          CheckResult.limit := limit;
          CheckResult.remaining := remaining;
          CheckResult.resetAt := resetAt;
          CheckResult.retryAfter := retryAfter;
          CheckResult.currentUsage := estimatedCount |}.

End SlidingWindow.

(** ** [algorithms/token-bucket.ts], in exact arithmetic *)

Module TokenBucket.

Definition script (clk : Z) (key : string) (limit window now : Z)
  : M redis (Z * Z * Z) :=
  let rate : Q := (inject_Z limit / inject_Z window)%Q in
  bucket ← Redis.HMGET clk key;
  let '(tokens, last_update) :=
    match bucket with
    | None => (inject_Z limit, now)
    | Some (tokens, last_update) => (tokens, last_update)
    end in
  let elapsed : Q := (inject_Z (now - last_update) / 1000)%Q in
  let tokens_to_add : Q := (elapsed * rate)%Q in
  let tokens : Q := Qmin (inject_Z limit) (tokens + tokens_to_add)%Q in
  let '(allowed, remaining, tokens) :=
    if Qle_bool 1 tokens then (1, (tokens - 1)%Q, (tokens - 1)%Q)
    else (0, tokens, tokens) in
  _ ← Redis.HMSET clk key tokens now;
  _ ← Redis.EXPIRE clk key (window * 2);
  mret (allowed, Qfloor remaining, Redis.integer_reply tokens).

Definition redisKey (key : string) : string := "rl:token_bucket:" +:+ key.

(** The wrapper reads the reply as the triple the script returns. *)
Definition check (key : string) (limit window : Z) (now : Z)
  : M redis CheckResult.t :=
  let redisKey := redisKey key in
  '(allowed, remaining, currentTokens) ← script now redisKey limit window now;
  let resetAt := now + window * 1000 in
  let retryAfter :=
    if allowed =? 0
    then Some (Qceiling ((1 - inject_Z currentTokens)
                         / (inject_Z limit / inject_Z window))%Q)
    else None in
  mret {| CheckResult.allowed := allowed =? 1;
          CheckResult.limit := limit;
          CheckResult.remaining := remaining;
          CheckResult.resetAt := resetAt;
          CheckResult.retryAfter := retryAfter;
          CheckResult.currentUsage := limit - remaining |}.

End TokenBucket.

(** ** The sliding window and the token bucket in binary64

    [SlidingWindow] and [TokenBucket] above compute with exact rationals.
    The two modules below are the same scripts and wrappers with every
    operation of Lua and of JavaScript on a fractional quantity rounded to
    binary64: [tonumber] of an argument or of a stored string is the nearest
    double, and each of [+], [-], [*], [/] rounds its result.  The
    integer arithmetic of the wrappers (window starts, [remaining],
    [currentUsage]) stays in [Z]. *)

Module SlidingWindowLimiter.

Definition script (clk : Z) (current_key previous_key : string)
    (limit window now current_window : Z) : M redis (Z * Z * Z) :=
  let limit := Binary64.of_Z limit in
  let window := Binary64.of_Z window in
  let now := Binary64.of_Z now in
  let current_window := Binary64.of_Z current_window in
  current_count ← Redis.GET clk current_key;
  current_count ← Redis.number (match current_count with
                                | None => Some 0
                                | Some v => Redis.tonumber v
                                end);
  previous_count ← Redis.GET clk previous_key;
  previous_count ← Redis.number (match previous_count with
                                 | None => Some 0
                                 | Some v => Redis.tonumber v
                                 end);
  let elapsed :=
    Binary64.div (Binary64.sub now current_window) (Binary64.mul window 1000) in
  let weighted_previous :=
    Binary64.mul (Binary64.of_Z previous_count) (Binary64.sub 1 elapsed) in
  let estimated_count :=
    Binary64.add weighted_previous (Binary64.of_Z current_count) in
  if Qlt_bool estimated_count limit then
    new_count ← Redis.INCR clk current_key;
    seconds ← Redis.integer_arg (Binary64.mul window 2);
    _ ← Redis.EXPIRE clk current_key seconds;
    mret (1, Qfloor estimated_count, new_count)
  else
    mret (0, Qfloor estimated_count, current_count).

Definition check (key : string) (limit window : Z) (now : Z)
  : M redis CheckResult.t :=
  let currentWindow := SlidingWindow.currentWindow window now in
  let previousWindow := currentWindow - window * 1000 in
  let currentKey := SlidingWindow.windowKey key currentWindow in
  let previousKey := SlidingWindow.windowKey key previousWindow in
  '(allowed, estimatedCount, _) ←
    script now currentKey previousKey limit window now currentWindow;
  let remaining := Z.max 0 (limit - estimatedCount) in
  let resetAt := currentWindow + window * 1000 in
  let retryAfter :=
    if allowed =? 0 then Some (ceil_div (resetAt - now) 1000) else None in
  mret {| CheckResult.allowed := allowed =? 1;
          CheckResult.limit := limit;
          CheckResult.remaining := remaining;
          CheckResult.resetAt := resetAt;
          CheckResult.retryAfter := retryAfter;
          CheckResult.currentUsage := estimatedCount |}.

End SlidingWindowLimiter.

Module TokenBucketLimiter.

Definition script (clk : Z) (key : string) (limit window now : Z)
  : M redis (Z * Z * Z) :=
  let limit := Binary64.of_Z limit in
  let window := Binary64.of_Z window in
  let now := Binary64.of_Z now in
  let rate := Binary64.div limit window in
  bucket ← Redis.HMGET clk key;
  let '(tokens, last_update) :=
    match bucket with
    | None => (limit, now)
    | Some (tokens, last_update) =>
        (Binary64.round tokens, Binary64.of_Z last_update)
    end in
  let elapsed := Binary64.div (Binary64.sub now last_update) 1000 in
  let tokens_to_add := Binary64.mul elapsed rate in
  let tokens := Qmin limit (Binary64.add tokens tokens_to_add) in
  let '(allowed, remaining, tokens) :=
    if Qle_bool 1 tokens
    then (1, Binary64.sub tokens 1, Binary64.sub tokens 1)
    else (0, tokens, tokens) in
  _ ← Redis.HMSET clk key tokens (Qfloor now);
  seconds ← Redis.integer_arg (Binary64.mul window 2);
  _ ← Redis.EXPIRE clk key seconds;
  mret (allowed, Qfloor remaining, Redis.integer_reply tokens).

Definition check (key : string) (limit window : Z) (now : Z)
  : M redis CheckResult.t :=
  let redisKey := TokenBucket.redisKey key in
  '(allowed, remaining, currentTokens) ← script now redisKey limit window now;
  let resetAt := now + window * 1000 in
  let retryAfter :=
    if allowed =? 0
    then Some (Qceiling
                 (Binary64.div
                    (Binary64.sub 1 (Binary64.of_Z currentTokens))
                    (Binary64.div (Binary64.of_Z limit) (Binary64.of_Z window))))
    else None in
  mret {| CheckResult.allowed := allowed =? 1;
          CheckResult.limit := limit;
          CheckResult.remaining := remaining;
          CheckResult.resetAt := resetAt;
          CheckResult.retryAfter := retryAfter;
          CheckResult.currentUsage := limit - remaining |}.

End TokenBucketLimiter.

(** ** [algorithms/types.ts], [algorithms/factory.ts] *)

(** [RateLimiter.check]. *)
Definition RateLimiter : Type := string → Z → Z → Z → M redis CheckResult.t.

Module AlgorithmFactory.
(** [get] memoises one limiter per algorithm over the one storage handle. *)
Definition get (algorithm : AlgorithmType) : RateLimiter :=
  match algorithm with
  | token_bucket => TokenBucket.check
  | fixed_window => FixedWindow.check
  | sliding_window => SlidingWindow.check
  end.
End AlgorithmFactory.

(** ** [storage/redis.ts] *)

Module Storage.

(** [get(key)]: the reply is a string or [null]. *)
Definition get (clk : Z) (k : string) : M redis (option string) := λ db,
  match Redis.fetch clk db k with
  | None => (inr None, db)
  | Some e =>
      match value e with
      | VInt n => (inr (Some (pretty n)), db)
      | VText s => (inr (Some s), db)
      | VHash _ _ => (inl ReplyError, db)
      end
  end.

(** [set(key, value, ttl?)]: [SETEX] when [ttl] is truthy, [SET] otherwise.
    The service stores only the JSON text of a rule. *)
Definition set (clk : Z) (k v : string) (ttl : option Z) : M redis unit := λ db,
  match ttl with
  | Some seconds =>
      if seconds =? 0 then (inr tt, <[k := Entry (VText v) None]> db)
      else if 0 <? seconds
           then (inr tt, <[k := Entry (VText v) (Some (clk + seconds * 1000))]> db)
           else (inl ReplyError, db)
  | None => (inr tt, <[k := Entry (VText v) None]> db)
  end.

Definition del (k : string) : M redis unit := λ db, (inr tt, delete k db).

End Storage.

(** ** [models/rule.ts] *)

Module KeyType.
Inductive t : Type := user | ip | endpoint | custom.
End KeyType.

Module KeyConfig.
Record t : Type := Build { type : KeyType.t; value : string }.
End KeyConfig.

Module Rule.
Record t : Type := Build {
  id : string;
  name : string;
  algorithm : AlgorithmType;
  limit : Z;
  window : Z;
  keys : list KeyConfig.t;
  webhookUrl : option string;
  thresholds : list Z;
  enabled : bool;
  createdAt : option Z;
  updatedAt : option Z
}.
End Rule.

Module CreateRuleRequest.
Record t : Type := Build {
  id : option string;
  name : string;
  algorithm : AlgorithmType;
  limit : Z;
  window : Z;
  keys : list KeyConfig.t;
  webhookUrl : option string;
  thresholds : option (list Z);
  enabled : option bool
}.
End CreateRuleRequest.

Module CheckRequest.
Record t : Type := Build {
  key : string;
  endpoint : option string;
  ruleId : option string;
  algorithm : option AlgorithmType;
  limit : option Z;
  window : option Z
}.
End CheckRequest.

(** What the sources take from zod and from the JavaScript runtime: the format
    tests [z.string().uuid()] and [z.string().url()], and [JSON].  [JSON_parse]
    is [None] when it throws, [Some None] when the parsed value is falsy, and
    [Some (Some r)] for the object the caller casts to a [Rule]. *)
Class Runtime : Type := {
  is_uuid : string → bool;
  is_url : string → bool;
  JSON_stringify : Rule.t → string;
  JSON_parse : string → option (option Rule.t)
}.

(** JavaScript truthiness of an optional string and of an optional number:
    [undefined], the empty string and [0] are falsy. *)
Definition truthy_string (o : option string) : option string :=
  match o with
  | Some s => if String.eqb s EmptyString then None else Some s
  | None => None
  end.

Definition truthy_number (o : option Z) : option Z :=
  match o with
  | Some n => if n =? 0 then None else Some n
  | None => None
  end.

(** [RuleSchema.parse]: the rule itself when every field passes. *)
Definition RuleSchema_ok `{Runtime} (rule : Rule.t) : bool :=
  is_uuid (Rule.id rule)
  && (1 <=? Z.of_nat (String.length (Rule.name rule)))
  && (Z.of_nat (String.length (Rule.name rule)) <=? 255)
  && (0 <? Rule.limit rule)
  && (0 <? Rule.window rule)
  && (1 <=? Z.of_nat (length (Rule.keys rule)))
  && match Rule.webhookUrl rule with Some u => is_url u | None => true end
  && forallb (λ t, (0 <=? t) && (t <=? 100)) (Rule.thresholds rule).

Definition RuleSchema_parse `{Runtime} {S} (rule : Rule.t) : M S Rule.t :=
  if RuleSchema_ok rule then mret rule else throw ZodError.

(** [CheckRequestSchema], which the REST route applies before [check]. *)
Definition CheckRequestSchema_ok `{Runtime} (request : CheckRequest.t) : bool :=
  (1 <=? Z.of_nat (String.length (CheckRequest.key request)))
  && match CheckRequest.ruleId request with Some i => is_uuid i | None => true end
  && match CheckRequest.limit request with Some l => 0 <? l | None => true end
  && match CheckRequest.window request with Some w => 0 <? w | None => true end.

(** [CreateRuleSchema], which the REST route applies before [createRule]. *)
Definition CreateRuleSchema_ok `{Runtime} (request : CreateRuleRequest.t) : bool :=
  match CreateRuleRequest.id request with Some i => is_uuid i | None => true end
  && (1 <=? Z.of_nat (String.length (CreateRuleRequest.name request)))
  && (Z.of_nat (String.length (CreateRuleRequest.name request)) <=? 255)
  && (0 <? CreateRuleRequest.limit request)
  && (0 <? CreateRuleRequest.window request)
  && (1 <=? Z.of_nat (length (CreateRuleRequest.keys request)))
  && match CreateRuleRequest.webhookUrl request with
     | Some u => is_url u
     | None => true
     end
  && forallb (λ t, (0 <=? t) && (t <=? 100))
             (default [80; 90; 100] (CreateRuleRequest.thresholds request)).

(** ** [cache/rule-service.ts] *)

(** A JavaScript [Map]: entries in insertion order, [set] on a present key
    overwrites in place. *)
Module RuleCache.

Definition t : Type := list (string * Rule.t).

Fixpoint set_at (k : string) (rule : Rule.t) (rules : t) : t :=
  match rules with
  | [] => [(k, rule)]
  | (k', r') :: rules' =>
      if String.eqb k k' then (k, rule) :: rules'
      else (k', r') :: set_at k rule rules'
  end.

Definition set (rule : Rule.t) (rules : t) : t := set_at (Rule.id rule) rule rules.

Fixpoint get (id : string) (rules : t) : option Rule.t :=
  match rules with
  | [] => None
  | (k, r) :: rules' => if String.eqb id k then Some r else get id rules'
  end.

Definition getAll (rules : t) : list Rule.t := snd <$> rules.

Definition delete (id : string) (rules : t) : bool * t :=
  (bool_decide (is_Some (get id rules)),
   List.filter (λ kv, negb (String.eqb id (fst kv))) rules).

(** [String.prototype.includes]. *)
Fixpoint includes (s sub : string) : bool :=
  String.prefix sub s ||
  match s with
  | EmptyString => false
  | String _ s' => includes s' sub
  end.

Definition key_matches (key : string) (keyConfig : KeyConfig.t) : bool :=
  if String.eqb (KeyConfig.value keyConfig) "*" then true
  else includes key (KeyConfig.value keyConfig).

Definition rule_matches (key : string) (rule : Rule.t) : bool :=
  if negb (Rule.enabled rule) then false
  else existsb (key_matches key) (Rule.keys rule).

Definition findByKey (key : string) (_endpoint : option string) (rules : t)
  : option Rule.t :=
  List.find (rule_matches key) (getAll rules).

End RuleCache.

Record ServiceState : Type := State { cache : RuleCache.t; storage : redis }.

(** A store operation inside the service. *)
Definition on_storage {A} (m : M redis A) : M ServiceState A := λ st,
  let '(r, db) := m (storage st) in (r, State (cache st) db).

Definition cache_set (rule : Rule.t) : M ServiceState unit := λ st,
  (inr tt, State (RuleCache.set rule (cache st)) (storage st)).

Definition cache_get (id : string) : M ServiceState (option Rule.t) := λ st,
  (inr (RuleCache.get id (cache st)), st).

Module RuleService.

Definition createRule `{Runtime} (request : CreateRuleRequest.t)
    (uuidv4 : string) (date1 date2 : Z) (clk : Z) : M ServiceState Rule.t :=
  let rule :=
    {| Rule.id := match truthy_string (CreateRuleRequest.id request) with
                  | Some i => i
                  | None => uuidv4
                  end;
       Rule.name := CreateRuleRequest.name request;
       Rule.algorithm := CreateRuleRequest.algorithm request;
       Rule.limit := CreateRuleRequest.limit request;
       Rule.window := CreateRuleRequest.window request;
       Rule.keys := CreateRuleRequest.keys request;
       Rule.webhookUrl := CreateRuleRequest.webhookUrl request;
       Rule.thresholds := default [80; 90; 100] (CreateRuleRequest.thresholds request);
       Rule.enabled := default true (CreateRuleRequest.enabled request);
       Rule.createdAt := Some date1;
       Rule.updatedAt := Some date2 |} in
  validated ← RuleSchema_parse rule;
  _ ← cache_set validated;
  _ ← on_storage (Storage.set clk ("rule:" +:+ Rule.id validated)
                              (JSON_stringify validated) None);
  mret validated.

Definition getRule `{Runtime} (id : string) (clk : Z)
  : M ServiceState (option Rule.t) :=
  rule ← cache_get id;
  match rule with
  | Some rule => mret (Some rule)
  | None =>
      data ← on_storage (Storage.get clk ("rule:" +:+ id));
      match truthy_string data with
      | None => mret None
      | Some data =>
          match JSON_parse data with
          | None => throw SyntaxError
          | Some None => mret None
          | Some (Some rule) =>
              _ ← cache_set rule;
              mret (Some rule)
          end
      end
  end.

Definition getAllRules : M ServiceState (list Rule.t) := λ st,
  (inr (RuleCache.getAll (cache st)), st).

Definition findMatchingRule (key : string) (endpoint : option string)
  : M ServiceState (option Rule.t) := λ st,
  (inr (RuleCache.findByKey key endpoint (cache st)), st).

End RuleService.

(** ** [services/rate-limiter.ts] *)

Module RateLimiterService.

Definition RuleNotFound (ruleId : string) : exn :=
  Error ("Rule not found: " +:+ ruleId).
Definition RuleDisabled (ruleId : string) : exn :=
  Error ("Rule is disabled: " +:+ ruleId).
Definition NoMatchingRule : exn :=
  Error "No matching rule found and no inline parameters provided".

(** The first half of [check]: the algorithm, limit and window in force. *)
Definition resolve `{Runtime} (request : CheckRequest.t) (now : Z)
  : M ServiceState (AlgorithmType * Z * Z) :=
  match truthy_string (CheckRequest.ruleId request) with
  | Some ruleId =>
      rule ← RuleService.getRule ruleId now;
      match rule with
      | None => throw (RuleNotFound ruleId)
      | Some rule =>
          if negb (Rule.enabled rule) then throw (RuleDisabled ruleId)
          else mret (Rule.algorithm rule, Rule.limit rule, Rule.window rule)
      end
  | None =>
      match CheckRequest.algorithm request,
            truthy_number (CheckRequest.limit request),
            truthy_number (CheckRequest.window request) with
      | Some algorithm, Some limit, Some window =>
          mret (algorithm, limit, window)
      | _, _, _ =>
          matchingRule ← RuleService.findMatchingRule
                           (CheckRequest.key request) (CheckRequest.endpoint request);
          match matchingRule with
          | None => throw NoMatchingRule
          | Some matchingRule =>
              mret (Rule.algorithm matchingRule, Rule.limit matchingRule,
                    Rule.window matchingRule)
          end
      end
  end.

Definition fullKey (request : CheckRequest.t) : string :=
  match truthy_string (CheckRequest.endpoint request) with
  | Some endpoint => CheckRequest.key request +:+ ":" +:+ endpoint
  | None => CheckRequest.key request
  end.

Definition check `{Runtime} (request : CheckRequest.t) (now : Z)
  : M ServiceState CheckResult.t :=
  '(algorithm, limit, window) ← resolve request now;
  let limiter := AlgorithmFactory.get algorithm in
  let fullKey := fullKey request in
  on_storage (limiter fullKey limit window now).

End RateLimiterService.

(** ** [webhook/notifier.ts] *)

Module WebhookNotifier.

(** [Array.prototype.sort(compareFn)]: a stable sort; [x] goes before [y]
    unless [compareFn(x, y) > 0]. *)
Fixpoint sort_insert (compareFn : Z → Z → Z) (x : Z) (l : list Z) : list Z :=
  match l with
  | [] => [x]
  | y :: l' =>
      if 0 <? compareFn x y then y :: sort_insert compareFn x l' else x :: l
  end.

Definition sort (compareFn : Z → Z → Z) (l : list Z) : list Z :=
  foldr (sort_insert compareFn) [] l.

Definition percentage (currentUsage limit : Z) : Binary64.number :=
  Binary64.mul_number
    (Binary64.div_number (Binary64.of_Z currentUsage) (Binary64.of_Z limit))
    (Binary64.of_Z 100).

Definition shouldNotify (currentUsage limit : Z) (thresholds : list Z)
  : option Z :=
  let percentage := percentage currentUsage limit in
  let crossedThresholds :=
    sort (λ a b, b - a)
         (List.filter (λ t, Binary64.geb percentage (Binary64.of_Z t))
                      thresholds) in
  match crossedThresholds with
  | t :: _ => Some t
  | [] => None
  end.

End WebhookNotifier.

(** A subject checked at successive instants: the outcome of each check and
    the store it leaves. *)
Fixpoint trace (check : Z → M redis CheckResult.t) (times : list Z) (db : redis)
  : list ((exn + CheckResult.t) * redis) :=
  match times with
  | [] => []
  | now :: times =>
      let step := check now db in
      step :: trace check times (snd step)
  end.

Definition final (check : Z → M redis CheckResult.t) (times : list Z) (db : redis)
  : redis :=
  fold_left (λ db now, snd (check now db)) times db.

Definition outcome_allowed (o : (exn + CheckResult.t) * redis) : option bool :=
  match fst o with
  | inr r => Some (CheckResult.allowed r)
  | inl _ => None
  end.

Definition outcome_remaining (o : (exn + CheckResult.t) * redis) : option Z :=
  match fst o with
  | inr r => Some (CheckResult.remaining r)
  | inl _ => None
  end.

(** The amount of tokens stored for [key], if a bucket is stored. *)
Definition stored_tokens (key : string) (db : redis) : option Q :=
  match db !! TokenBucket.redisKey key with
  | Some (Entry (VHash tokens _) _) => Some tokens
  | _ => None
  end.

(** * Further operations of the sources *)

(** [try { ... } catch (error) { ... }]. *)
Definition try_catch {S A} (body : M S A) (handler : exn → M S A) : M S A := λ s,
  match body s with
  | (inl e, s') => handler e s'
  | (inr a, s') => (inr a, s')
  end.

(** ** [cache/rule-service.ts]: update and delete *)

Module UpdateRuleRequest.
Record t : Type := Build {
  name : option string;
  algorithm : option AlgorithmType;
  limit : option Z;
  window : option Z;
  keys : option (list KeyConfig.t);
  webhookUrl : option string;
  thresholds : option (list Z);
  enabled : option bool;
  updatedAt : option Z
}.
End UpdateRuleRequest.


Definition cache_delete (id : string) : M ServiceState bool := λ st,
  let '(existed, rules) := RuleCache.delete id (cache st) in
  (inr existed, State rules (storage st)).

Module RuleServiceWrites.



Definition deleteRule `{Runtime} (id : string) (clk : Z) : M ServiceState bool :=
  exists_ ← RuleService.getRule id clk;
  match exists_ with
  | None => mret false
  | Some _ =>
      _ ← cache_delete id;
      _ ← on_storage (Storage.del ("rule:" +:+ id));
      mret true
  end.

End RuleServiceWrites.

(** ** REST handlers ([api/rest/routes/check.ts], [rules.ts])

    A reply is its status code, the headers the handler sets and the body it
    sends.  The date of [X-RateLimit-Reset] is kept as its timestamp.  The
    handlers are the functions registered for the routes; what Fastify does
    with a request before it calls them is not part of them. *)

Inductive header_value : Type :=
| HNumber (n : Z)
| HDate (ms : Z).

Module Reply.
Record t (B : Type) : Type := Build {
  status : Z;
  headers : list (string * header_value);
  body : B
}.
Arguments Build {B} _ _ _.
Arguments status {B} _.
Arguments headers {B} _.
Arguments body {B} _.
End Reply.

(** The body of a reply of [POST /v1/check]: the result, the result with the
    [error] field added, or [{ error: error.message }]. *)
Inductive check_body : Type :=
| CheckOk (result : CheckResult.t)
| CheckLimited (result : CheckResult.t) (error : string)
| CheckError (error : exn).

(** [Date.prototype.toISOString]: a [RangeError] for a date outside the
    range of ±8.64e15 ms around the epoch; the text is kept as the timestamp
    it denotes. *)
Definition toISOString {S} (ms : Z) : M S Z :=
  if Z.abs ms <=? 8640000000000000 then mret ms
  else throw (Error "Invalid time value").

(** The reply a handler works on: [reply.header] adds a header to it, and
    [reply.status(code).send(body)] sends it with the headers set so far,
    also from a [catch] block.  A handler runs on the service state and the
    headers of its reply. *)
Definition handling : Type := ServiceState * list (string * header_value).

Definition in_service {A} (m : M ServiceState A) : M handling A :=
  λ '(st, headers), let '(r, st') := m st in (r, (st', headers)).

Definition reply_header (name : string) (value : header_value) : M handling unit :=
  λ '(st, headers), (inr tt, (st, headers ++ [(name, value)])).

Definition reply_send {B} (status : Z) (body : B) : M handling (Reply.t B) :=
  λ '(st, headers), (inr (Reply.Build status headers body), (st, headers)).

Module CheckRoute.

Definition handle `{Runtime} (body : CheckRequest.t) (now : Z)
  : M handling (Reply.t check_body) :=
  try_catch
    (validated ← (if CheckRequestSchema_ok body then mret body
                  else throw ZodError);
     result ← in_service (RateLimiterService.check validated now);
     _ ← reply_header "X-RateLimit-Limit" (HNumber (CheckResult.limit result));
     _ ← reply_header "X-RateLimit-Remaining"
                      (HNumber (CheckResult.remaining result));
     reset ← toISOString (CheckResult.resetAt result);
     _ ← reply_header "X-RateLimit-Reset" (HDate reset);
     match negb (CheckResult.allowed result),
           truthy_number (CheckResult.retryAfter result) with
     | true, Some retryAfter =>
         _ ← reply_header "Retry-After" (HNumber retryAfter);
         reply_send 429 (CheckLimited result "Rate limit exceeded")
     | _, _ => reply_send 200 (CheckOk result)
     end)
    (λ error, reply_send 400 (CheckError error)).

(** The handler starts on a reply without headers. *)
Definition handler `{Runtime} (body : CheckRequest.t) (now : Z)
  : M ServiceState (Reply.t check_body) := λ st,
  let '(reply, (st', _)) := handle body now (st, []) in (reply, st').

End CheckRoute.

(** The body of a reply of the rule routes. *)
Inductive rules_body : Type :=
| RuleBody (rule : Rule.t)
| NoBody
| ErrorText (error : string)
| ErrorOf (error : exn).

Module RuleRoutes.

(** [CreateRuleSchema.parse]: the request with its defaults filled in. *)
Definition CreateRuleSchema_parse `{Runtime} {S} (body : CreateRuleRequest.t)
  : M S CreateRuleRequest.t :=
  if CreateRuleSchema_ok body
  then mret {| CreateRuleRequest.id := CreateRuleRequest.id body;
               CreateRuleRequest.name := CreateRuleRequest.name body;
               CreateRuleRequest.algorithm := CreateRuleRequest.algorithm body;
               CreateRuleRequest.limit := CreateRuleRequest.limit body;
               CreateRuleRequest.window := CreateRuleRequest.window body;
               CreateRuleRequest.keys := CreateRuleRequest.keys body;
               CreateRuleRequest.webhookUrl := CreateRuleRequest.webhookUrl body;
               CreateRuleRequest.thresholds :=
                 Some (default [80; 90; 100] (CreateRuleRequest.thresholds body));
               CreateRuleRequest.enabled :=
                 Some (default true (CreateRuleRequest.enabled body)) |}
  else throw ZodError.

Definition post `{Runtime} (body : CreateRuleRequest.t)
    (uuidv4 : string) (date1 date2 : Z) (clk : Z)
  : M ServiceState (Reply.t rules_body) :=
  try_catch
    (validated ← CreateRuleSchema_parse body;
     rule ← RuleService.createRule validated uuidv4 date1 date2 clk;
     mret (Reply.Build 201 [] (RuleBody rule)))
    (λ error, mret (Reply.Build 400 [] (ErrorOf error))).

Definition get `{Runtime} (id : string) (clk : Z)
  : M ServiceState (Reply.t rules_body) :=
  try_catch
    (rule ← RuleService.getRule id clk;
     match rule with
     | None => mret (Reply.Build 404 [] (ErrorText "Rule not found"))
     | Some rule => mret (Reply.Build 200 [] (RuleBody rule))
     end)
    (λ _, mret (Reply.Build 500 [] (ErrorText "Internal server error"))).

Definition delete `{Runtime} (id : string) (clk : Z)
  : M ServiceState (Reply.t rules_body) :=
  try_catch
    (deleted ← RuleServiceWrites.deleteRule id clk;
     if negb deleted
     then mret (Reply.Build 404 [] (ErrorText "Rule not found"))
     else mret (Reply.Build 204 [] NoBody))
    (λ _, mret (Reply.Build 500 [] (ErrorText "Internal server error"))).

End RuleRoutes.
(** ** [algorithms/factory.ts]: the instance table

    [AlgorithmFactory.instances] maps an algorithm to the limiter built for
    it; a limiter is its class together with the storage handle it was
    constructed with.  [H] is the type of storage handles. *)

Module LimiterInstances.
Section Handles.
Context {H : Type}.

Record limiter : Type := Limiter { class : AlgorithmType; storage_of : H }.

Definition instances : Type := list (AlgorithmType * limiter).

Definition AlgorithmType_eqb (a b : AlgorithmType) : bool :=
  match a, b with
  | token_bucket, token_bucket
  | fixed_window, fixed_window
  | sliding_window, sliding_window => true
  | _, _ => false
  end.

Fixpoint lookup (a : AlgorithmType) (m : instances) : option limiter :=
  match m with
  | [] => None
  | (b, l) :: m' => if AlgorithmType_eqb a b then Some l else lookup a m'
  end.

Definition has (a : AlgorithmType) (m : instances) : bool :=
  bool_decide (is_Some (lookup a m)).

Fixpoint set (a : AlgorithmType) (l : limiter) (m : instances) : instances :=
  match m with
  | [] => [(a, l)]
  | (b, l') :: m' =>
      if AlgorithmType_eqb a b then (b, l) :: m' else (b, l') :: set a l m'
  end.

Definition create (algorithm : AlgorithmType) (storage : H) : limiter :=
  match algorithm with
  | token_bucket => Limiter token_bucket storage
  | fixed_window => Limiter fixed_window storage
  | sliding_window => Limiter sliding_window storage
  end.

(** [AlgorithmFactory.get]: the limiter returned and the table afterwards.
    The non-null assertion [instances.get(algorithm)!] yields [undefined]
    for a missing entry. *)
Definition get (algorithm : AlgorithmType) (storage : H) (m : instances)
  : option limiter * instances :=
  let m' := if negb (has algorithm m)
            then set algorithm (create algorithm storage) m
            else m in
  (lookup algorithm m', m').

Definition clear (m : instances) : instances := [].

(** A run of [get] calls, with the limiter each one returned. *)
Fixpoint gets (calls : list (AlgorithmType * H)) (m : instances)
  : list (option limiter) * instances :=
  match calls with
  | [] => ([], m)
  | (a, s) :: calls' =>
      let '(l, m1) := get a s m in
      let '(ls, m2) := gets calls' m1 in
      (l :: ls, m2)
  end.

End Handles.
Arguments limiter : clear implicits.
Arguments instances : clear implicits.
End LimiterInstances.

(** ** [webhook/notifier.ts]: delivery

    The outside world of a delivery is the sequence of answers of the
    receiving end: [respond k] is what the [k]-th POST of the run meets.
    The notifier's effects are the POSTs it made, with their headers, and
    the delays it slept. *)

Module WebhookPayload.
Record t : Type := Build {
  key : string;
  endpoint : option string;
  limit : Z;
  currentUsage : Z;
  threshold : Z;
  timestamp : Z;
  message : string
}.
End WebhookPayload.

(** A thrown JavaScript value: an [Error] with its message, or anything else. *)
Inductive thrown : Type :=
| AnError (message : string)
| NotAnError.

(** What [axios.post] meets: a response with its status line, an Axios
    failure without a response (time-out, refused connection), or some other
    exception. *)
Inductive post_outcome : Type :=
| Responded (status : Z) (statusText : string)
| NoResponse
| Raised (error : thrown).

Record Post : Type := MkPost {
  post_url : string;
  post_headers : list (string * string);
  post_data : WebhookPayload.t
}.

Record Net : Type := MkNet { posts : list Post; sleeps : list Z }.

Inductive delivery : Type :=
| Delivered
| Throws (lastError : option string).

Class Crypto : Type := {
  hmac_sha256_hex : string → string → string;
  stringify_payload : WebhookPayload.t → string
}.

Module WebhookDelivery.
Section Notifier.
Context `{Crypto}.
Variables (maxRetries retryDelay : Z).
Variable respond : nat → post_outcome.

Definition generateSignature (payload : WebhookPayload.t) (secret : string)
  : string :=
  "sha256=" +:+ hmac_sha256_hex secret (stringify_payload payload).

Definition describe (status : option (Z * string)) : string :=
  match status with
  | Some (status, statusText) =>
      "Webhook request failed: " +:+ pretty status +:+ " " +:+ statusText
  | None => "Webhook request failed: undefined undefined"
  end.

Definition sendWebhook (url : string) (payload : WebhookPayload.t)
    (secret : option string) (net : Net) : (thrown + unit) * Net :=
  let headers :=
    [("Content-Type", "application/json");
     ("User-Agent", "RateLimiter-Webhook/1.0")] in
  let headers :=
    match truthy_string secret with
    | Some secret =>
        headers ++ [("X-Webhook-Signature", generateSignature payload secret)]
    | None => headers
    end in
  let net' := MkNet (posts net ++ [MkPost url headers payload]) (sleeps net) in
  match respond (length (posts net)) with
  | Responded status statusText =>
      if (200 <=? status) && (status <? 300)
      then (inr tt, net')
      else (inl (AnError (describe (Some (status, statusText)))), net')
  | NoResponse => (inl (AnError (describe None)), net')
  | Raised error => (inl error, net')
  end.

Definition sleep (ms : Z) (net : Net) : Net :=
  MkNet (posts net) (sleeps net ++ [ms]).

(** The [for] loop of [notify], from [attempt] on; [rounds] is the number
    of values of [attempt] left up to [maxRetries]. *)
Fixpoint attempts (rounds : nat) (attempt : Z) (lastError : option string)
    (url : string) (payload : WebhookPayload.t) (secret : option string)
    (net : Net) : delivery * Net :=
  match rounds with
  | O => (Throws lastError, net)
  | S rounds' =>
      match sendWebhook url payload secret net with
      | (inr _, net1) => (Delivered, net1)
      | (inl error, net1) =>
          let lastError :=
            match error with
            | AnError message => Some message
            | NotAnError => Some "Unknown error"
            end in
          let net2 :=
            if attempt <? maxRetries
            then sleep (retryDelay * 2 ^ attempt) net1
            else net1 in
          attempts rounds' (attempt + 1) lastError url payload secret net2
      end
  end.

Definition notify (url : string) (payload : WebhookPayload.t)
    (secret : option string) (net : Net) : delivery * Net :=
  attempts (Z.to_nat (maxRetries + 1)) 0 None url payload secret net.

Definition createPayload (key : string) (limit currentUsage threshold : Z)
    (endpoint : option string) (date : Z) : WebhookPayload.t :=
  {| WebhookPayload.key := key;
     WebhookPayload.endpoint := endpoint;
     WebhookPayload.limit := limit;
     WebhookPayload.currentUsage := currentUsage;
     WebhookPayload.threshold := threshold;
     WebhookPayload.timestamp := date;
     WebhookPayload.message :=
       "Rate limit " +:+ pretty threshold +:+ "% threshold reached for "
       +:+ key |}.

End Notifier.
End WebhookDelivery.

(** * Vocabulary of the statements *)

(** A stand-in runtime for evaluating examples: identifiers of 36 characters
    pass for uuids, texts starting with [http] for URLs, and the stored JSON
    never parses to a rule. *)
Definition example_runtime : Runtime :=
  {| is_uuid := λ s, Nat.eqb (String.length s) 36;
     is_url := λ s, String.prefix "http" s;
     JSON_stringify := λ rule, "{" +:+ Rule.id rule +:+ "}";
     JSON_parse := λ _, Some None |}.

(** A request whose endpoint is present and empty. *)
Definition empty_endpoint_request : CheckRequest.t :=
  CheckRequest.Build "user:1" (Some EmptyString) None
    (Some fixed_window) (Some 5) (Some 60).

(** The counter of [key] for the window starting at [ws], after [c]
    admissions: absent, or [c] with a deadline past the end of the window. *)
Definition fw_inv (key : string) (W ws c : Z) (db : redis) : Prop :=
  (c = 0 ∧ db !! FixedWindow.redisKey key ws = None)
  ∨ (0 < c ∧ ∃ d, db !! FixedWindow.redisKey key ws
                  = Some (Entry (VInt c) (Some d))
                  ∧ ws + W * 1000 ≤ d).

(** The count a script reads at a counter key: 0 when the key is absent,
    [None] when the key holds something that is not a number. *)
Definition count_at (clk : Z) (db : redis) (k : string) : option Z :=
  match Redis.fetch clk db k with
  | None => Some 0
  | Some (Entry (VInt n) _) => Some n
  | Some _ => None
  end.

(** What the script reads as the bucket: the stored pair, or a full bucket
    stamped [now] on first use; [None] when the key holds something else. *)
Definition tb_read (limit now : Z) (fetched : option entry) : option (Q * Z) :=
  match fetched with
  | None => Some (inject_Z limit, now)
  | Some (Entry (VHash tokens last_update) _) => Some (tokens, last_update)
  | Some _ => None
  end.

(** The refill as the script computes it. *)
Definition tb_refill (limit window : Z) (tokens : Q) (last_update now : Z) : Q :=
  Qmin (inject_Z limit)
       (tokens + inject_Z (now - last_update) / 1000
                 * (inject_Z limit / inject_Z window))%Q.

(** The refill as the binary64 script computes it, from the amount and the
    stamp it has read. *)
Definition tbl_refill (limit window : Z) (tokens : Q) (last_update now : Z) : Q :=
  let elapsed :=
    Binary64.div (Binary64.sub (Binary64.of_Z now) (Binary64.of_Z last_update))
                 1000 in
  let rate := Binary64.div (Binary64.of_Z limit) (Binary64.of_Z window) in
  Qmin (Binary64.of_Z limit) (Binary64.add tokens (Binary64.mul elapsed rate)).

(** The bucket of [key] is absent, or holds between 0 and [limit] tokens
    stamped no later than [t]. *)
Definition tb_ok (key : string) (limit t : Z) (db : redis) : Prop :=
  db !! TokenBucket.redisKey key = None
  ∨ ∃ tokens last_update d,
      db !! TokenBucket.redisKey key = Some (Entry (VHash tokens last_update) d)
      ∧ (0 <= tokens)%Q ∧ (tokens <= inject_Z limit)%Q ∧ last_update ≤ t.

(** A bucket with [limit = window = 10] (one token per second) holding a whole
    number [n] of tokens, checked [m] times at one instant: the admissions and
    the tokens left. *)
Fixpoint burst (m : nat) (n : Z) : list (option bool) * Z :=
  match m with
  | O => ([], n)
  | S m' =>
      let n' := if 1 <=? n then n - 1 else n in
      (Some (1 <=? n) :: fst (burst m' n'), snd (burst m' n'))
  end.

(** Matching in the words of the specification: the rule is enabled and one of
    its key entries is ["*"] or occurs in [key] as a substring. *)
Definition matches_spec (key : string) (rule : Rule.t) : Prop :=
  Rule.enabled rule = true
  ∧ ∃ keyConfig, In keyConfig (Rule.keys rule)
      ∧ (KeyConfig.value keyConfig = "*"
         ∨ ∃ before after, key = before +:+ KeyConfig.value keyConfig +:+ after).

(** A cache as [RuleCache.set] builds it: every rule sits under its own id,
    and no key occurs twice. *)
Definition cache_wf (rules : RuleCache.t) : Prop :=
  NoDup (fst <$> rules) ∧ List.Forall (λ kv, fst kv = Rule.id (snd kv)) rules.

(** A string without a colon, as the decimal form of a number is. *)
Fixpoint colon_free (s : string) : bool :=
  match s with
  | EmptyString => true
  | String c s' => negb (Ascii.eqb c ":"%char) && colon_free s'
  end.

(** The store keys that the limiter of [algorithm] uses for [subject]. *)
Definition limiter_key (algorithm : AlgorithmType) (subject k : string) : Prop :=
  match algorithm with
  | token_bucket => k = TokenBucket.redisKey subject
  | fixed_window => ∃ windowStart, k = FixedWindow.redisKey subject windowStart
  | sliding_window => ∃ windowStart, k = SlidingWindow.windowKey subject windowStart
  end.

(** A computation on the store that leaves alone every key outside [keys]. *)
Definition writes_within {A} (keys : string → Prop) (m : M redis A) : Prop :=
  ∀ (db : redis) k, ¬ keys k → snd (m db) !! k = db !! k.

(** A list whose first element bounds the others from above. *)
Definition head_is_max (l : list Z) : Prop :=
  match l with
  | [] => True
  | t :: rest => Forall (λ y, y ≤ t) rest
  end.

(** ** Vocabulary of the further properties *)


(** The counter stored at [k] reads [c] at every instant before [until]:
    the key is absent and [c = 0], or it holds [c] and does not expire
    before [until]. *)
Definition counter_at (k : string) (c until : Z) (db : redis) : Prop :=
  (c = 0 ∧ db !! k = None)
  ∨ ∃ ex, db !! k = Some (Entry (VInt c) ex)
          ∧ match ex with Some d => until ≤ d | None => True end.
(** Whether a POST met a response with a status from 200 to 299. *)
Definition delivered (o : post_outcome) : bool :=
  match o with
  | Responded status _ => (200 <=? status) && (status <? 300)
  | _ => false
  end.

(** The message of the error that a failed POST leaves in [lastError]. *)
Definition failure_message (o : post_outcome) : string :=
  match o with
  | Responded status statusText =>
      WebhookDelivery.describe (Some (status, statusText))
  | NoResponse => WebhookDelivery.describe None
  | Raised (AnError message) => message
  | Raised NotAnError => "Unknown error"
  end.

(** The delays of an exponential backoff: [retryDelay · 2^i] for
    [i = 0, …, n − 1]. *)
Definition backoff (retryDelay : Z) (n : nat) : list Z :=
  (λ i, retryDelay * 2 ^ Z.of_nat i) <$> seq 0 n.
(** Stand-ins for evaluating examples: a keyed digest that concatenates, a
    payload text that is the key, a payload, and a receiving end that answers
    503 twice and 200 from then on. *)
Definition example_crypto : Crypto :=
  {| hmac_sha256_hex := λ secret data, secret +:+ "/" +:+ data;
     stringify_payload := λ payload, WebhookPayload.key payload |}.

Definition example_payload : WebhookPayload.t :=
  WebhookDelivery.createPayload "user:1" 10 9 90 None 1000.

Definition recovering (i : nat) : post_outcome :=
  if (i <? 2)%nat then Responded 503 "Service Unavailable"
  else Responded 200 "OK".

Definition unavailable (i : nat) : post_outcome :=
  Responded 503 "Service Unavailable".

(** Computations of the service that leave the store as it is. *)
Definition keeps_storage {A} (m : M ServiceState A) : Prop :=
  ∀ st, storage (snd (m st)) = storage st.

(** The storage handle of the first call for [a] in a run of calls. *)
Fixpoint first_for {H : Type} (a : AlgorithmType) (calls : list (AlgorithmType * H))
  : option H :=
  match calls with
  | [] => None
  | (b, s) :: calls' =>
      if LimiterInstances.AlgorithmType_eqb a b then Some s else first_for a calls'
  end.

(** * Properties *)

(** ** Binary64 rounding *)

Lemma Qred_inject_Z z : Qred (inject_Z z) = inject_Z z.
Proof.
  unfold Qred, inject_Z.
  pose proof (Z.ggcd_gcd z 1) as Hg.
  pose proof (Z.ggcd_correct_divisors z 1) as Hd.
  destruct (Z.ggcd z 1) as [g [aa bb]]. simpl in *.
  rewrite Z.gcd_1_r in Hg. subst g. destruct Hd as [Ha Hb].
  rewrite Z.mul_1_l in Ha, Hb. subst aa bb. reflexivity.
Qed.

Lemma Qred_scaled z p :
  0 < p → Qred (Qmake (z * p) (Z.to_pos p)) = inject_Z z.
Proof.
  intros Hp. rewrite <- Qred_inject_Z. apply Qred_complete.
  unfold Qeq, inject_Z. simpl. rewrite Z2Pos.id by exact Hp. ring.
Qed.

Lemma ulp_exponent_Z a :
  0 < a → Binary64.ulp_exponent a 1 = Z.max (Z.log2 a - 52) (-1074).
Proof.
  intros Ha. unfold Binary64.ulp_exponent.
  change (Z.log2 1) with 0. rewrite Z.sub_0_r.
  pose proof (Z.log2_nonneg a) as Hn.
  pose proof (Z.log2_spec a Ha) as [Hlo _].
  destruct (0 <=? Z.log2 a) eqn:E; [|apply Z.leb_gt in E; lia].
  rewrite Z.mul_1_l.
  destruct (2 ^ Z.log2 a <=? a) eqn:E2; [reflexivity|apply Z.leb_gt in E2; lia].
Qed.

(** [Binary64] and [SpecFloat] agree on the operands that decide the
    examples of this file, around the ties of the subnormal range, and on
    500 pairs of a 53-bit and a 34-bit operand. *)
Example Binary64_agrees_with_SpecFloat :
  forallb SpecBinary64.agree_on
    [(1, 49); (1, 161); (57, 100); (20400, 60000); (1, 3); (2, 3); (10, 10);
     (247029, 76726738); (-7, 3); (1, 8640000000000);
     (8639999999999999, 8640000000000000); (9007199254740993, 1);
     (2 ^ 60 + 1, 3); (1, 2 ^ 537); (2, 2 ^ 538); (3, 2 ^ 538); (6, 2 ^ 538);
     (-6, 2 ^ 538); (1, 2 ^ 600); (2 ^ 53 + 1, 2 ^ 530); (2 ^ 53 + 3, 2 ^ 535)]
  = true
  ∧ forallb SpecBinary64.agree_on (SpecBinary64.samples 500 1) = true.
Proof. split; vm_compute; reflexivity. Qed.

(** An integer below [2^53] in absolute value is a double. *)
Lemma round_inject_Z z :
  Z.abs z < 2 ^ 53 → Binary64.round (inject_Z z) = inject_Z z.
Proof.
  intros Hz. unfold Binary64.round.
  change (Qnum (inject_Z z)) with z. change (Z.pos (Qden (inject_Z z))) with 1.
  destruct (z =? 0) eqn:E0; [apply Z.eqb_eq in E0; by subst|].
  apply Z.eqb_neq in E0.
  assert (Ha : 0 < Z.abs z) by lia.
  rewrite (ulp_exponent_Z _ Ha).
  assert (Hlog : Z.log2 (Z.abs z) < 53) by (apply Z.log2_lt_pow2; lia).
  pose proof (Z.log2_nonneg (Z.abs z)) as Hn.
  rewrite Z.max_l by lia.
  set (x := Z.log2 (Z.abs z) - 52).
  assert (Hx : -52 <= x <= 0) by (unfold x; lia).
  destruct (0 <=? x) eqn:Ex.
  - apply Z.leb_le in Ex. assert (x = 0) as -> by lia.
    change (2 ^ 0) with 1. rewrite Z.mul_1_l, Z.div_1_r, Z.mod_1_r.
    simpl. rewrite Z.mul_1_r. f_equal. lia.
  - rewrite Z.div_1_r, Z.mod_1_r. simpl.
    assert (Hp : 0 < 2 ^ (- x)) by (apply Z.pow_pos_nonneg; lia).
    rewrite Z.mul_assoc. rewrite (Qred_scaled _ _ Hp). f_equal. lia.
Qed.

Lemma of_Z_exact z : Z.abs z < 2 ^ 53 → Binary64.of_Z z = inject_Z z.
Proof. apply round_inject_Z. Qed.

(** The double of a positive integer, however large, is positive. *)
Lemma of_Z_pos z : 0 < z → (0 < Binary64.of_Z z)%Q.
Proof.
  intros Hz. unfold Binary64.of_Z, Binary64.round.
  change (Qnum (inject_Z z)) with z. change (Z.pos (Qden (inject_Z z))) with 1.
  destruct (z =? 0) eqn:E0; [apply Z.eqb_eq in E0; lia|].
  rewrite Z.abs_eq by lia. rewrite (ulp_exponent_Z _ Hz).
  pose proof (Z.log2_nonneg z) as Hn.
  pose proof (Z.log2_spec z Hz) as [Hlo _].
  rewrite Z.max_l by lia.
  set (x := Z.log2 z - 52).
  rewrite Z.sgn_pos by lia.
  destruct (0 <=? x) eqn:Ex.
  - apply Z.leb_le in Ex. rewrite Z.mul_1_l.
    assert (Hp : 0 < 2 ^ x) by (apply Z.pow_pos_nonneg; lia).
    assert (Hle : 2 ^ x ≤ z).
    { etrans; [|exact Hlo]. apply Z.pow_le_mono_r; unfold x; lia. }
    assert (Hm : 1 ≤ z / 2 ^ x).
    { apply Z.div_le_lower_bound; lia. }
    rewrite Z.mul_1_l. change 0%Q with (inject_Z 0). rewrite <- Zlt_Qlt.
    destruct (_ || _); nia.
  - rewrite Z.div_1_r, Z.mod_1_r. simpl.
    assert (Hp : 0 < 2 ^ (- x)) by (apply Z.pow_pos_nonneg; apply Z.leb_gt in Ex; lia).
    rewrite Qred_correct. unfold Qlt. simpl. nia.
Qed.




Lemma sub_inject_Z a b :
  Z.abs (a - b) < 2 ^ 53 →
  Binary64.sub (inject_Z a) (inject_Z b) = inject_Z (a - b).
Proof.
  intros H. unfold Binary64.sub.
  replace (inject_Z a - inject_Z b)%Q with (inject_Z (a - b))
    by (unfold Qminus, Qplus, Qopp, inject_Z; simpl; f_equal; lia).
  by apply round_inject_Z.
Qed.

Lemma add_inject_Z a b :
  Z.abs (a + b) < 2 ^ 53 →
  Binary64.add (inject_Z a) (inject_Z b) = inject_Z (a + b).
Proof.
  intros H. unfold Binary64.add.
  replace (inject_Z a + inject_Z b)%Q with (inject_Z (a + b))
    by (unfold Qplus, inject_Z; simpl; f_equal; lia).
  by apply round_inject_Z.
Qed.

Lemma mul_inject_Z a b :
  Z.abs (a * b) < 2 ^ 53 →
  Binary64.mul (inject_Z a) (inject_Z b) = inject_Z (a * b).
Proof.
  intros H. unfold Binary64.mul.
  replace (inject_Z a * inject_Z b)%Q with (inject_Z (a * b)) by reflexivity.
  by apply round_inject_Z.
Qed.



(** ** Two runs, evaluated *)

Example fw_demo :
  outcome_allowed <$> trace (FixedWindow.check "u" 2 60) [5; 6; 7; 60000] ∅
  = [Some true; Some true; Some false; Some true].
Proof. vm_compute. reflexivity. Qed.

Example tb_demo :
  outcome_allowed <$> trace (TokenBucket.check "u" 2 2) [5; 5; 5; 1005; 1005] ∅
  = [Some true; Some true; Some false; Some true; Some false].
Proof. vm_compute. reflexivity. Qed.

(** ** Auxiliary facts: the monad, the store, rounding *)

Lemma bind_inr {S A B} (m : M S A) (k : A → M S B) s a s' :
  m s = (inr a, s') → (m ≫= k) s = k a s'.
Proof. intros H. unfold mbind, M_bind. by rewrite H. Qed.

Lemma bind_inl {S A B} (m : M S A) (k : A → M S B) s e s' :
  m s = (inl e, s') → (m ≫= k) s = (inl e, s').
Proof. intros H. unfold mbind, M_bind. by rewrite H. Qed.

Lemma fetch_insert_eq clk (db : redis) k e :
  Redis.alive clk e = true → Redis.fetch clk (<[k := e]> db) k = Some e.
Proof. intros H. unfold Redis.fetch. by rewrite lookup_insert_eq, H. Qed.

Lemma fetch_insert_ne clk (db : redis) k k' e :
  k ≠ k' → Redis.fetch clk (<[k := e]> db) k' = Redis.fetch clk db k'.
Proof. intros H. unfold Redis.fetch. by rewrite lookup_insert_ne. Qed.

Lemma fetch_Some clk (db : redis) k e :
  Redis.fetch clk db k = Some e ↔ db !! k = Some e ∧ Redis.alive clk e = true.
Proof.
  unfold Redis.fetch. destruct (db !! k) as [e'|].
  - destruct (Redis.alive clk e') eqn:Ha; split.
    + intros [= ->]. by split.
    + by intros [[= ->] _].
    + done.
    + intros [[= ->] Hb]. congruence.
  - split; [done | by intros [? _]].
Qed.

Lemma fetch_None clk (db : redis) k :
  db !! k = None → Redis.fetch clk db k = None.
Proof. intros H. unfold Redis.fetch. by rewrite H. Qed.

Lemma ceil_div_pos a b : 0 < a → 0 < b → 0 < ceil_div a b.
Proof.
  intros Ha Hb. unfold ceil_div.
  set (q := (inject_Z a / inject_Z b)%Q).
  assert (Hq : (0 < q)%Q).
  { subst q. apply Qlt_shift_div_l.
    - change 0%Q with (inject_Z 0). by rewrite <- Zlt_Qlt.
    - ring_simplify. change 0%Q with (inject_Z 0). by rewrite <- Zlt_Qlt. }
  pose proof (Qle_ceiling q) as Hc.
  assert (Hlt : (inject_Z 0 < inject_Z (Qceiling q))%Q).
  { eapply Qlt_le_trans; [exact Hq | exact Hc]. }
  by rewrite <- Zlt_Qlt in Hlt.
Qed.

(** ** Fixed window *)

Section FixedWindowFacts.
Context (key : string) (L W : Z) (HL : 0 < L) (HW : 0 < W).

Lemma fw_script_absent clk k (db : redis) :
  Redis.fetch clk db k = None →
  FixedWindow.script clk k L W db
  = (inr (1, 1), <[k := Entry (VInt 1) (Some (clk + W * 1000))]> db).
Proof using HL.
  intros Hf. unfold FixedWindow.script.
  erewrite bind_inr; [|unfold Redis.GET; by rewrite Hf].
  erewrite bind_inr; [|reflexivity].
  destruct (0 <? L) eqn:E; [|lia].
  erewrite bind_inr; [|unfold Redis.INCR; by rewrite Hf].
  erewrite bind_inr;
    [|unfold Redis.EXPIRE; by rewrite fetch_insert_eq].
  simpl. by rewrite insert_insert_eq.
Qed.

Lemma fw_script_below clk k (db : redis) c ex :
  Redis.fetch clk db k = Some (Entry (VInt c) ex) → c < L →
  FixedWindow.script clk k L W db
  = (inr (1, c + 1), <[k := Entry (VInt (c + 1)) (Some (clk + W * 1000))]> db).
Proof.
  intros Hf Hc. unfold FixedWindow.script.
  pose proof Hf as [_ Ha]%fetch_Some.
  erewrite bind_inr; [|unfold Redis.GET; by rewrite Hf].
  erewrite bind_inr; [|reflexivity].
  destruct (c <? L) eqn:E; [|lia].
  erewrite bind_inr; [|unfold Redis.INCR; by rewrite Hf].
  erewrite bind_inr;
    [|unfold Redis.EXPIRE; by rewrite fetch_insert_eq].
  simpl. by rewrite insert_insert_eq.
Qed.

Lemma fw_script_full clk k (db : redis) c ex :
  Redis.fetch clk db k = Some (Entry (VInt c) ex) → L ≤ c →
  FixedWindow.script clk k L W db = (inr (0, c), db).
Proof.
  intros Hf Hc. unfold FixedWindow.script.
  erewrite bind_inr; [|unfold Redis.GET; by rewrite Hf].
  erewrite bind_inr; [|reflexivity].
  destruct (c <? L) eqn:E; [lia|]. done.
Qed.

End FixedWindowFacts.

Lemma window_bounds W now :
  0 < W → now / (W * 1000) * (W * 1000) ≤ now < now / (W * 1000) * (W * 1000) + W * 1000.
Proof.
  intros HW.
  pose proof (Z.div_mod now (W * 1000) ltac:(lia)) as Hd.
  pose proof (Z.mod_pos_bound now (W * 1000) ltac:(lia)) as Hm.
  lia.
Qed.

Lemma fw_redisKey_inj key ws ws' :
  FixedWindow.redisKey key ws = FixedWindow.redisKey key ws' → ws = ws'.
Proof.
  unfold FixedWindow.redisKey. intros H.
  do 3 apply String.app_inj in H. by apply pretty_Z_inj in H.
Qed.

Section FixedWindowRun.
Context (key : string) (L W : Z) (HL : 0 < L) (HW : 0 < W) (ws : Z).

Let k := FixedWindow.redisKey key ws.

Lemma fw_check_allows c (db : redis) now :
  FixedWindow.windowStart W now = ws → fw_inv key W ws c db → c < L →
  ∃ db',
    FixedWindow.check key L W now db
    = (inr {| CheckResult.allowed := true;
              CheckResult.limit := L;
              CheckResult.remaining := Z.max 0 (L - (c + 1));
              CheckResult.resetAt := ws + W * 1000;
              CheckResult.retryAfter := None;
              CheckResult.currentUsage := c + 1 |}, db')
    ∧ fw_inv key W ws (c + 1) db'
    ∧ ∀ k', k' ≠ k → db' !! k' = db !! k'.
Proof using HL HW.
  intros Hws Hinv Hc.
  pose proof (window_bounds W now HW) as Hb.
  unfold FixedWindow.windowStart in Hws. rewrite Hws in Hb.
  exists (<[k := Entry (VInt (c + 1)) (Some (now + W * 1000))]> db).
  split; [|split].
  - unfold FixedWindow.check, FixedWindow.windowStart. rewrite Hws. fold k.
    destruct Hinv as [[-> Hk] | (Hpos & d & Hk & Hd)].
    + erewrite bind_inr; [|apply (fw_script_absent L W HL); by apply fetch_None].
      reflexivity.
    + erewrite bind_inr;
        [|apply (fw_script_below L W) with (ex := Some d); [|done];
          apply fetch_Some; split; [done|]; apply Z.ltb_lt; lia].
      reflexivity.
  - right. split; [destruct Hinv as [[-> _]|[? _]]; lia|].
    exists (now + W * 1000). rewrite lookup_insert_eq. split; [done|].
    lia.
  - intros k' Hk'. by rewrite lookup_insert_ne.
Qed.

Lemma fw_check_denies c (db : redis) now :
  FixedWindow.windowStart W now = ws → fw_inv key W ws c db → L ≤ c →
  FixedWindow.check key L W now db
  = (inr {| CheckResult.allowed := false;
            CheckResult.limit := L;
            CheckResult.remaining := Z.max 0 (L - c);
            CheckResult.resetAt := ws + W * 1000;
            CheckResult.retryAfter := Some (ceil_div (ws + W * 1000 - now) 1000);
            CheckResult.currentUsage := c |}, db)
  ∧ 0 < ceil_div (ws + W * 1000 - now) 1000.
Proof using HL HW.
  intros Hws Hinv Hc.
  pose proof (window_bounds W now HW) as Hb.
  unfold FixedWindow.windowStart in Hws. rewrite Hws in Hb.
  split; [|apply ceil_div_pos; lia].
  unfold FixedWindow.check, FixedWindow.windowStart. rewrite Hws. fold k.
  destruct Hinv as [[-> Hk] | (Hpos & d & Hk & Hd)]; [lia|].
  erewrite bind_inr;
    [|apply (fw_script_full L W) with (ex := Some d); [|done];
      apply fetch_Some; split; [done|]; apply Z.ltb_lt; lia].
  reflexivity.
Qed.

(** A run inside window [ws], from a counter that stands at [c]. *)
Lemma fw_trace_from times : ∀ c (db : redis),
  0 ≤ c → fw_inv key W ws c db →
  Forall (λ now, FixedWindow.windowStart W now = ws) times →
  (∀ (i : nat) o, trace (FixedWindow.check key L W) times db !! i = Some o →
     ∃ res, fst o = inr res
       ∧ CheckResult.allowed res = bool_decide (c + Z.of_nat i < L)
       ∧ CheckResult.resetAt res = ws + W * 1000
       ∧ (L ≤ c + Z.of_nat i →
          ∃ r, CheckResult.retryAfter res = Some r ∧ 0 < r))
  ∧ (∀ k', k' ≠ k →
       final (FixedWindow.check key L W) times db !! k' = db !! k').
Proof using HL HW.
  induction times as [|now times IH]; intros c db Hc Hinv Hall.
  { split; [intros i o; simpl; by rewrite lookup_nil | done]. }
  apply Forall_cons in Hall as [Hnow Hall].
  destruct (Z_lt_le_dec c L) as [Hlt|Hge].
  - destruct (fw_check_allows c db now Hnow Hinv Hlt) as (db' & Hck & Hinv' & Hoth).
    destruct (IH (c + 1) db' ltac:(lia) Hinv' Hall) as [IH1 IH2].
    split.
    + intros [|i] o; simpl; rewrite Hck; simpl.
      * intros [= <-]. eexists; split; [reflexivity|]. simpl.
        rewrite bool_decide_eq_true_2 by lia. split; [done|]. split; [done|lia].
      * intros Ho. destruct (IH1 i o Ho) as (res & ? & Ha & Hr).
        exists res. split; [done|].
        replace (c + Z.of_nat (S i)) with (c + 1 + Z.of_nat i) by lia. done.
    + intros k' Hk'. simpl. rewrite Hck. simpl. rewrite IH2 by done. by apply Hoth.
  - destruct (fw_check_denies c db now Hnow Hinv Hge) as [Hck Hpos].
    destruct (IH c db Hc Hinv Hall) as [IH1 IH2].
    split.
    + intros [|i] o; simpl; rewrite Hck; simpl.
      * intros [= <-]. eexists; split; [reflexivity|]. simpl.
        rewrite bool_decide_eq_false_2 by lia. split; [done|]. split; [done|]. eauto.
      * intros Ho. destruct (IH1 i o Ho) as (res & ? & Ha & Hrs & Hr).
        exists res. split; [done|].
        rewrite bool_decide_eq_false_2 by lia.
        rewrite bool_decide_eq_false_2 in Ha by lia. split; [done|].
        split; [done|]. intros _. apply Hr. lia.
    + intros k' Hk'. simpl. rewrite Hck. simpl. by apply IH2.
Qed.

End FixedWindowRun.

(** A denied fixed-window check writes nothing. *)
Lemma fw_denied_no_write key L W now (db db' : redis) res :
  FixedWindow.check key L W now db = (inr res, db') →
  CheckResult.allowed res = false → db' = db.
Proof.
  unfold FixedWindow.check, FixedWindow.script, Redis.GET, Redis.INCR,
    Redis.EXPIRE, Redis.number, Redis.tonumber, mbind, M_bind, mret, M_ret, throw.
  set (k := FixedWindow.redisKey _ _).
  intros Hck Hden.
  repeat case_match; simplify_eq; simpl in *; done.
Qed.

Lemma length_trace check times (db : redis) :
  length (trace check times db) = length times.
Proof. revert db. induction times as [|t ts IH]; intros db; simpl; [done|]. by rewrite IH. Qed.

(** C1. Fixed window, one subject, its counters for the window starting at
    [ws] and for the next one absent at the start, the window lying within
    the range of dates (timestamps from 0 to 8.64e15 ms).  For checks that
    all fall in the window starting at [ws] (in any number and in any order),
    every check returns a result; the check of index [i] (from 0) is allowed
    exactly when [i < L], so the first [L] pass and the [(L + 1)]-th is
    refused; every refused check carries a [retryAfter > 0].  A
    refused check leaves the store as it was.  After the run, a check in the
    next window (the one that starts at [resetAt = ws + W * 1000]), when that
    window too ends within the range of dates, is allowed again. *)
Theorem fixed_window_first_limit_checks_pass
    (key : string) (L W ws : Z) (times : list Z) (db : redis) :
  0 < L → 0 < W →
  0 ≤ ws → ws + W * 1000 ≤ 8640000000000000 →
  db !! FixedWindow.redisKey key ws = None →
  db !! FixedWindow.redisKey key (ws + W * 1000) = None →
  Forall (λ now, FixedWindow.windowStart W now = ws) times →
  length (trace (FixedWindow.check key L W) times db) = length times
  ∧ (∀ (i : nat) o,
       trace (FixedWindow.check key L W) times db !! i = Some o →
       ∃ res, fst o = inr res
         ∧ CheckResult.allowed res = bool_decide (Z.of_nat i < L)
         ∧ CheckResult.resetAt res = ws + W * 1000
         ∧ (L ≤ Z.of_nat i →
            ∃ r, CheckResult.retryAfter res = Some r ∧ 0 < r))
  ∧ (∀ now (d d' : redis) res,
       FixedWindow.check key L W now d = (inr res, d') →
       CheckResult.allowed res = false → d' = d)
  ∧ (∀ t', FixedWindow.windowStart W t' = ws + W * 1000 →
       ws + 2 * (W * 1000) ≤ 8640000000000000 →
       ∃ res db',
         FixedWindow.check key L W t'
           (final (FixedWindow.check key L W) times db) = (inr res, db')
         ∧ CheckResult.allowed res = true).
Proof.
  intros HL HW Hws Hend Hdb Hnext Hall.
  split; [apply length_trace|].
  assert (Hinv : fw_inv key W ws 0 db) by (left; by split).
  destruct (fw_trace_from key L W HL HW ws times 0 db ltac:(lia) Hinv Hall)
    as [Htr Hoth].
  split; [|split].
  - intros i o Ho. destruct (Htr i o Ho) as (res & Hres & Ha & Hrs & Hr).
    exists res. by rewrite Z.add_0_l in Ha, Hr.
  - intros now d d' res. apply fw_denied_no_write.
  - intros t' Ht' Hend'.
    set (dbf := final (FixedWindow.check key L W) times db).
    assert (Hinv' : fw_inv key W (ws + W * 1000) 0 dbf).
    { left. split; [done|]. unfold dbf. rewrite Hoth; [exact Hnext|].
      intros Heq%fw_redisKey_inj. lia. }
    destruct (fw_check_allows key L W HL HW (ws + W * 1000) 0 dbf t' Ht' Hinv' HL)
      as (db' & Hck & _).
    eexists _, db'. split; [exact Hck|done].
Qed.

Lemma fixed_window_first_limit_checks_pass_witness :
  let key := "user:1" in
  let times := [0; 10; 59999; 100] in
  (0 < 3 ∧ 0 < 60
   ∧ 0 ≤ 0 ∧ 0 + 60 * 1000 ≤ 8640000000000000
   ∧ (∅ : redis) !! FixedWindow.redisKey key 0 = None
   ∧ (∅ : redis) !! FixedWindow.redisKey key (0 + 60 * 1000) = None
   ∧ Forall (λ now, FixedWindow.windowStart 60 now = 0) times)
  ∧ (length (trace (FixedWindow.check key 3 60) times ∅) = length times
     ∧ (∀ (i : nat) o,
          trace (FixedWindow.check key 3 60) times ∅ !! i = Some o →
          ∃ res, fst o = inr res
            ∧ CheckResult.allowed res = bool_decide (Z.of_nat i < 3)
            ∧ CheckResult.resetAt res = 0 + 60 * 1000
            ∧ (3 ≤ Z.of_nat i →
               ∃ r, CheckResult.retryAfter res = Some r ∧ 0 < r))
     ∧ (∀ now (d d' : redis) res,
          FixedWindow.check key 3 60 now d = (inr res, d') →
          CheckResult.allowed res = false → d' = d)
     ∧ (∀ t', FixedWindow.windowStart 60 t' = 0 + 60 * 1000 →
          0 + 2 * (60 * 1000) ≤ 8640000000000000 →
          ∃ res db',
            FixedWindow.check key 3 60 t'
              (final (FixedWindow.check key 3 60) times ∅) = (inr res, db')
            ∧ CheckResult.allowed res = true)).
Proof.
  intros key times.
  assert (H1 : 0 < 3) by lia.
  assert (H2 : 0 < 60) by lia.
  assert (H5 : 0 ≤ 0) by lia.
  assert (H6 : 0 + 60 * 1000 ≤ 8640000000000000) by lia.
  assert (H3 : (∅ : redis) !! FixedWindow.redisKey key 0 = None)
    by apply lookup_empty.
  assert (H3' : (∅ : redis) !! FixedWindow.redisKey key (0 + 60 * 1000) = None)
    by apply lookup_empty.
  assert (H4 : Forall (λ now, FixedWindow.windowStart 60 now = 0) times)
    by (repeat constructor).
  split; [by repeat split|].
  exact (fixed_window_first_limit_checks_pass key 3 60 0 times ∅
           H1 H2 H5 H6 H3 H3' H4).
Defined.

(** ** Token bucket *)

Lemma tb_HMGET_eq clk k limit now (db : redis) tokens last_update :
  tb_read limit now (Redis.fetch clk db k) = Some (tokens, last_update) →
  ∃ bucket, Redis.HMGET clk k db = (inr bucket, db)
    ∧ match bucket with
      | None => (inject_Z limit, now)
      | Some (t, u) => (t, u)
      end = (tokens, last_update).
Proof.
  unfold Redis.HMGET.
  destruct (Redis.fetch clk db k) as [[[c|s|t u] ex]|]; simpl; try discriminate.
  - intros [= -> ->]. by exists (Some (tokens, last_update)).
  - intros [= <- <-]. by exists None.
Qed.

Lemma EXPIRE_insert clk k seconds (db : redis) v ex :
  Redis.alive clk (Entry v ex) = true →
  Redis.EXPIRE clk k seconds (<[k := Entry v ex]> db)
  = (inr tt, <[k := Entry v (Some (clk + seconds * 1000))]> db).
Proof.
  intros Ha. unfold Redis.EXPIRE. rewrite fetch_insert_eq by done. simpl.
  by rewrite insert_insert_eq.
Qed.

Lemma tb_HMSET_eq clk k (db : redis) tokens last_update t u :
  tb_read 0 0 (Redis.fetch clk db k) = Some (t, u) →
  ∃ ex, Redis.HMSET clk k tokens last_update db
        = (inr tt, <[k := Entry (VHash tokens last_update) ex]> db)
        ∧ Redis.alive clk (Entry (VHash tokens last_update) ex) = true.
Proof.
  unfold Redis.HMSET.
  destruct (Redis.fetch clk db k) as [[[c|s|t' u'] ex]|] eqn:Hf; simpl;
    try discriminate; intros _.
  - apply fetch_Some in Hf as [_ Ha]. by exists ex.
  - by exists None.
Qed.

Lemma tb_read_typed limit now fetched tokens last_update :
  tb_read limit now fetched = Some (tokens, last_update) →
  ∃ t u, tb_read 0 0 fetched = Some (t, u).
Proof. destruct fetched as [[[c|s|t u] ex]|]; simpl; try discriminate; eauto. Qed.

Lemma tb_check_eq key limit window now (db : redis) tokens last_update :
  tb_read limit now (Redis.fetch now db (TokenBucket.redisKey key))
  = Some (tokens, last_update) →
  let refilled := tb_refill limit window tokens last_update now in
  let allowed := Qle_bool 1 refilled in
  let tokens' := if allowed then (refilled - 1)%Q else refilled in
  TokenBucket.check key limit window now db
  = (inr {| CheckResult.allowed := allowed;
            CheckResult.limit := limit;
            CheckResult.remaining := Qfloor tokens';
            CheckResult.resetAt := now + window * 1000;
            CheckResult.retryAfter :=
              if allowed then None
              else Some (Qceiling ((1 - inject_Z (Redis.integer_reply tokens'))
                                   / (inject_Z limit / inject_Z window))%Q);
            CheckResult.currentUsage := limit - Qfloor tokens' |},
     <[TokenBucket.redisKey key :=
         Entry (VHash tokens' now) (Some (now + window * 2 * 1000))]> db).
Proof.
  intros Hread refilled allowed tokens'.
  unfold TokenBucket.check.
  set (k := TokenBucket.redisKey key) in *.
  destruct (tb_HMGET_eq _ _ _ _ _ _ _ Hread) as (bucket & Hget & Hb).
  destruct (tb_read_typed _ _ _ _ _ Hread) as (t & u & Htyped).
  destruct (tb_HMSET_eq now k db tokens' now t u Htyped) as (ex & Hset & Ha).
  assert (Hscript :
    TokenBucket.script now k limit window now db
    = (inr (if allowed then 1 else 0, Qfloor tokens',
            Redis.integer_reply tokens'),
       <[k := Entry (VHash tokens' now) (Some (now + window * 2 * 1000))]> db)).
  { unfold TokenBucket.script.
    erewrite bind_inr; [|exact Hget]. rewrite Hb.
    fold (tb_refill limit window tokens last_update now). fold refilled.
    fold allowed. subst tokens'.
    destruct allowed; simpl;
      (erewrite bind_inr; [|exact Hset]);
      (erewrite bind_inr; [|by apply EXPIRE_insert]); reflexivity. }
  erewrite bind_inr; [|exact Hscript].
  subst tokens'. destruct allowed; reflexivity.
Qed.

Lemma inject_Z_nonneg z : 0 ≤ z → (0 <= inject_Z z)%Q.
Proof. intros H. change 0%Q with (inject_Z 0). by rewrite <- Zle_Qle. Qed.

Lemma inject_Z_pos z : 0 < z → (0 < inject_Z z)%Q.
Proof. intros H. change 0%Q with (inject_Z 0). by rewrite <- Zlt_Qlt. Qed.

Lemma Qdiv_nonneg (a b : Q) : (0 <= a)%Q → (0 < b)%Q → (0 <= a / b)%Q.
Proof. intros Ha Hb. apply Qle_shift_div_l; [done|]. by rewrite Qmult_0_l. Qed.

Lemma Qfloor_between (q : Q) (lo hi : Z) :
  (inject_Z lo <= q)%Q → (q <= inject_Z hi)%Q → lo ≤ Qfloor q ≤ hi.
Proof.
  intros Hlo Hhi. split.
  - rewrite <- (Qfloor_Z lo). by apply Qfloor_resp_le.
  - rewrite <- (Qfloor_Z hi). by apply Qfloor_resp_le.
Qed.

Lemma tb_refill_bounds limit window tokens last_update now :
  0 < limit → 0 < window → (0 <= tokens)%Q → last_update ≤ now →
  (0 <= tb_refill limit window tokens last_update now)%Q
  ∧ (tb_refill limit window tokens last_update now <= inject_Z limit)%Q.
Proof.
  intros HL HW Htok Hnow. unfold tb_refill. split; [|apply Q.le_min_l].
  apply Q.min_glb; [apply inject_Z_nonneg; lia|].
  assert (0 <= inject_Z (now - last_update) / 1000)%Q as He.
  { apply Qdiv_nonneg; [apply inject_Z_nonneg; lia | reflexivity]. }
  assert (0 <= inject_Z limit / inject_Z window)%Q as Hr.
  { apply Qdiv_nonneg; [apply inject_Z_nonneg; lia | by apply inject_Z_pos]. }
  nra.
Qed.

Lemma tb_consume_bounds (limit : Z) (refilled : Q) :
  (0 <= refilled)%Q → (refilled <= inject_Z limit)%Q →
  let tokens' := if Qle_bool 1 refilled then (refilled - 1)%Q else refilled in
  (0 <= tokens')%Q ∧ (tokens' <= inject_Z limit)%Q.
Proof.
  intros H0 H1. simpl. destruct (Qle_bool 1 refilled) eqn:E; [|done].
  apply Qle_bool_iff in E. split; lra.
Qed.

Lemma tb_ok_mono key limit t t' (db : redis) :
  t ≤ t' → tb_ok key limit t db → tb_ok key limit t' db.
Proof.
  intros Ht [Hn|(tok & lu & d & Hk & H0 & H1 & Hlu)]; [by left|].
  right. exists tok, lu, d. repeat split; try done. lia.
Qed.

Lemma tb_ok_read key limit now (db : redis) :
  0 < limit → tb_ok key limit now db →
  ∃ tokens last_update,
    tb_read limit now (Redis.fetch now db (TokenBucket.redisKey key))
    = Some (tokens, last_update)
    ∧ (0 <= tokens)%Q ∧ (tokens <= inject_Z limit)%Q ∧ last_update ≤ now.
Proof.
  intros HL [Hn|(tok & lu & d & Hk & H0 & H1 & Hlu)].
  - rewrite fetch_None by done. exists (inject_Z limit), now. simpl.
    repeat split; [apply inject_Z_nonneg; lia | apply Qle_refl | lia].
  - unfold Redis.fetch. rewrite Hk.
    destruct (Redis.alive now _).
    + by exists tok, lu.
    + exists (inject_Z limit), now. simpl.
      repeat split; [apply inject_Z_nonneg; lia | apply Qle_refl | lia].
Qed.

Lemma tb_check_keeps_bounds key limit window now (db : redis) :
  0 < limit → 0 < window → tb_ok key limit now db →
  ∃ res tokens' d,
    TokenBucket.check key limit window now db
    = (inr res, <[TokenBucket.redisKey key := Entry (VHash tokens' now) d]> db)
    ∧ (0 <= tokens')%Q ∧ (tokens' <= inject_Z limit)%Q
    ∧ 0 ≤ CheckResult.remaining res ≤ limit.
Proof.
  intros HL HW Hok.
  destruct (tb_ok_read key limit now db HL Hok) as (tok & lu & Hread & H0 & H1 & Hlu).
  pose proof (tb_check_eq key limit window now db tok lu Hread) as Hck.
  simpl in Hck.
  destruct (tb_refill_bounds limit window tok lu now HL HW H0 Hlu) as [Hr0 Hr1].
  destruct (tb_consume_bounds limit _ Hr0 Hr1) as [Ht0 Ht1].
  eexists _, _, _. split; [exact Hck|]. split; [exact Ht0|]. split; [exact Ht1|].
  simpl. by apply Qfloor_between.
Qed.

(** Along a run whose timestamps never decrease, the bucket stays between 0
    and [limit] and so does every [remaining]. *)
Lemma tb_trace_bounds key limit window times :
  0 < limit → 0 < window → Sorted Z.le times →
  ∀ db : redis,
    match times with [] => True | t :: _ => tb_ok key limit t db end →
    ∀ (i : nat) o,
      trace (TokenBucket.check key limit window) times db !! i = Some o →
      ∃ res tokens last_update d,
        fst o = inr res
        ∧ snd o !! TokenBucket.redisKey key
          = Some (Entry (VHash tokens last_update) d)
        ∧ (0 <= tokens)%Q ∧ (tokens <= inject_Z limit)%Q
        ∧ 0 ≤ CheckResult.remaining res ≤ limit.
Proof.
  intros HL HW Hsorted.
  induction Hsorted as [|now times Hs IH Hhd]; intros db Hok i o.
  { simpl. by rewrite lookup_nil. }
  destruct (tb_check_keeps_bounds key limit window now db HL HW Hok)
    as (res & tok' & d & Hck & H0 & H1 & Hrem).
  destruct i as [|i]; simpl; rewrite Hck; simpl.
  - intros [= <-]. exists res, tok', now, d. simpl.
    by rewrite lookup_insert_eq.
  - apply IH. destruct Hhd as [|t' times' Hle]; [done|].
    apply tb_ok_mono with now; [done|].
    right. exists tok', now, d. rewrite lookup_insert_eq. repeat split; try done.
Qed.

Lemma trace_app check times1 times2 (db : redis) :
  trace check (times1 ++ times2) db
  = trace check times1 db ++ trace check times2 (final check times1 db).
Proof.
  revert db. induction times1 as [|t ts IH]; intros db; simpl; [done|].
  by rewrite IH.
Qed.

Lemma Qle_bool_inject_Z (a b : Z) : Qle_bool (inject_Z a) (inject_Z b) = (a <=? b).
Proof.
  destruct (a <=? b) eqn:E.
  - apply Qle_bool_iff. rewrite <- Zle_Qle. lia.
  - apply not_true_is_false. rewrite Qle_bool_iff, <- Zle_Qle. lia.
Qed.

(** ** Sliding window *)

Lemma GET_count clk k (db : redis) c :
  count_at clk db k = Some c →
  ∃ v, Redis.GET clk k db = (inr v, db)
       ∧ match v with None => Some 0 | Some v => Redis.tonumber v end = Some c.
Proof.
  unfold count_at, Redis.GET.
  destruct (Redis.fetch clk db k) as [[[n|s|t u] ex]|]; simpl; try discriminate.
  - intros [= ->]. by exists (Some (VInt c)).
  - intros [= <-]. by exists None.
Qed.

Lemma INCR_count clk k (db : redis) c :
  count_at clk db k = Some c →
  ∃ ex, Redis.INCR clk k db = (inr (c + 1), <[k := Entry (VInt (c + 1)) ex]> db)
        ∧ Redis.alive clk (Entry (VInt (c + 1)) ex) = true.
Proof.
  unfold count_at, Redis.INCR.
  destruct (Redis.fetch clk db k) as [[[n|s|t u] ex]|] eqn:Hf; simpl;
    try discriminate.
  - intros [= ->]. apply fetch_Some in Hf as [_ Ha]. by exists ex.
  - intros [= <-]. by exists None.
Qed.

Lemma window_elapsed window now :
  0 < window →
  let elapsed := (inject_Z (now - SlidingWindow.currentWindow window now)
                  / inject_Z (window * 1000))%Q in
  (0 <= elapsed)%Q ∧ (elapsed < 1)%Q.
Proof.
  intros HW. pose proof (window_bounds window now HW) as Hb.
  unfold SlidingWindow.currentWindow. simpl.
  assert (Hpos : (0 < inject_Z (window * 1000))%Q) by (apply inject_Z_pos; lia).
  split.
  - apply Qdiv_nonneg; [apply inject_Z_nonneg; lia | done].
  - apply Qlt_shift_div_r; [done|]. rewrite Qmult_1_l, <- Zlt_Qlt. lia.
Qed.

(** ** The limiters in binary64 *)

Lemma integer_arg_inject_Z z (db : redis) :
  Z.abs z < 10 ^ 17 → Redis.integer_arg (inject_Z z) db = (inr z, db).
Proof.
  intros H. unfold Redis.integer_arg. simpl.
  destruct (Z.abs z <? 10 ^ 17) eqn:E; [reflexivity|].
  apply Z.ltb_ge in E. lia.
Qed.

(** Timestamps and windows within the range of dates are doubles. *)
Lemma date_range_exact window now :
  0 < window → 0 ≤ now →
  now ≤ 8640000000000000 → window * 1000 ≤ 8640000000000000 →
  Binary64.of_Z now = inject_Z now
  ∧ Binary64.of_Z window = inject_Z window
  ∧ Binary64.mul (inject_Z window) 1000 = inject_Z (window * 1000)
  ∧ Binary64.mul (inject_Z window) 2 = inject_Z (window * 2).
Proof.
  intros HW Hnow Hend Hwin.
  split; [apply of_Z_exact; change (2 ^ 53) with 9007199254740992; lia|].
  split; [apply of_Z_exact; change (2 ^ 53) with 9007199254740992; lia|].
  split.
  - change 1000%Q with (inject_Z 1000). apply mul_inject_Z.
    change (2 ^ 53) with 9007199254740992; lia.
  - change 2%Q with (inject_Z 2). apply mul_inject_Z.
    change (2 ^ 53) with 9007199254740992; lia.
Qed.


Lemma tbl_HMGET_eq clk k limit now (db : redis) stored last_update :
  tb_read limit now (Redis.fetch clk db k) = Some (stored, last_update) →
  ∃ bucket, Redis.HMGET clk k db = (inr bucket, db)
    ∧ match bucket with
      | None => (Binary64.of_Z limit, Binary64.of_Z now)
      | Some (t, u) => (Binary64.round t, Binary64.of_Z u)
      end = (Binary64.round stored, Binary64.of_Z last_update).
Proof.
  unfold Redis.HMGET.
  destruct (Redis.fetch clk db k) as [[[c|s|t u] ex]|]; simpl; try discriminate.
  - intros [= -> ->]. by exists (Some (stored, last_update)).
  - intros [= <- <-]. by exists None.
Qed.

Lemma tbl_check_eq key limit window now (db : redis) stored last_update :
  0 < window → 0 ≤ now → now + window * 1000 ≤ 8640000000000000 →
  tb_read limit now (Redis.fetch now db (TokenBucket.redisKey key))
  = Some (stored, last_update) →
  let refilled :=
    tbl_refill limit window (Binary64.round stored) last_update now in
  let allowed := Qle_bool 1 refilled in
  let tokens' := if allowed then Binary64.sub refilled 1 else refilled in
  TokenBucketLimiter.check key limit window now db
  = (inr {| CheckResult.allowed := allowed;
            CheckResult.limit := limit;
            CheckResult.remaining := Qfloor tokens';
            CheckResult.resetAt := now + window * 1000;
            CheckResult.retryAfter :=
              if allowed then None
              else Some (Qceiling
                           (Binary64.div
                              (Binary64.sub 1
                                 (Binary64.of_Z (Redis.integer_reply tokens')))
                              (Binary64.div (Binary64.of_Z limit)
                                            (Binary64.of_Z window))));
            CheckResult.currentUsage := limit - Qfloor tokens' |},
     <[TokenBucket.redisKey key :=
         Entry (VHash tokens' now) (Some (now + window * 2 * 1000))]> db).
Proof.
  intros HW Hnow Hend Hread refilled allowed tokens'.
  destruct (date_range_exact window now HW Hnow ltac:(lia) ltac:(lia))
    as (Enow & Ewin & _ & Etwo).
  unfold TokenBucketLimiter.check.
  set (k := TokenBucket.redisKey key) in *.
  destruct (tbl_HMGET_eq _ _ _ _ _ _ _ Hread) as (bucket & Hget & Hb).
  destruct (tb_read_typed _ _ _ _ _ Hread) as (t & u & Htyped).
  destruct (tb_HMSET_eq now k db tokens' now t u Htyped) as (ex & Hset & Ha).
  assert (Hscript :
    TokenBucketLimiter.script now k limit window now db
    = (inr (if allowed then 1 else 0, Qfloor tokens',
            Redis.integer_reply tokens'),
       <[k := Entry (VHash tokens' now) (Some (now + window * 2 * 1000))]> db)).
  { unfold TokenBucketLimiter.script.
    erewrite bind_inr; [|exact Hget]. rewrite Hb.
    change (Qmin _ _) with refilled. fold allowed.
    replace (Qfloor (Binary64.of_Z now)) with now
      by (by rewrite Enow, Qfloor_Z).
    rewrite Ewin, Etwo. subst tokens'.
    destruct allowed; simpl;
      (erewrite bind_inr; [|exact Hset]);
      (erewrite bind_inr; [|apply integer_arg_inject_Z; lia]);
      (erewrite bind_inr; [|by apply EXPIRE_insert]); reflexivity. }
  erewrite bind_inr; [|exact Hscript].
  subst tokens'. destruct allowed; reflexivity.
Qed.

(** With [limit = window = 10] the rate is one token per second: a whole
    number of tokens and a whole number of seconds refill to a whole number,
    without rounding. *)
Lemma tbl_refill_whole n e last_update now :
  0 ≤ n → 0 ≤ e ≤ 1 → n + e ≤ 10 →
  0 ≤ last_update → now - last_update = 1000 * e → now ≤ 8640000000000000 →
  tbl_refill 10 10 (inject_Z n) last_update now = inject_Z (n + e).
Proof.
  intros Hn He Hle Hlu Hnow Hend. unfold tbl_refill.
  rewrite (of_Z_exact now), (of_Z_exact last_update)
    by (change (2 ^ 53) with 9007199254740992; lia).
  rewrite sub_inject_Z by (change (2 ^ 53) with 9007199254740992; lia).
  rewrite Hnow. clear Hnow Hend Hlu.
  assert (e = 0 ∨ e = 1) as [-> | ->] by lia;
    assert (n = 0 ∨ n = 1 ∨ n = 2 ∨ n = 3 ∨ n = 4 ∨ n = 5 ∨ n = 6 ∨ n = 7
            ∨ n = 8 ∨ n = 9 ∨ n = 10)
      as [->|[->|[->|[->|[->|[->|[->|[->|[->|[->| ->]]]]]]]]]] by lia;
    try lia; vm_compute; reflexivity.
Qed.

Lemma tbl_step_whole key now (db : redis) stored last_update n e :
  0 ≤ now → now + 10 * 1000 ≤ 8640000000000000 →
  tb_read 10 now (Redis.fetch now db (TokenBucket.redisKey key))
  = Some (stored, last_update) →
  stored = inject_Z n → 0 ≤ n → 0 ≤ e ≤ 1 → n + e ≤ 10 →
  0 ≤ last_update → now - last_update = 1000 * e →
  ∃ res,
    TokenBucketLimiter.check key 10 10 now db
    = (inr res,
       <[TokenBucket.redisKey key :=
           Entry (VHash (inject_Z (if 1 <=? n + e then n + e - 1 else n + e)) now)
                 (Some (now + 10 * 2 * 1000))]> db)
    ∧ CheckResult.allowed res = (1 <=? n + e).
Proof.
  intros Hnow Hend Hread -> Hn He Hle Hlu Hdiff.
  pose proof (tbl_check_eq key 10 10 now db (inject_Z n) last_update
                ltac:(lia) Hnow Hend Hread) as Hck.
  cbv zeta in Hck.
  rewrite round_inject_Z in Hck by (change (2 ^ 53) with 9007199254740992; lia).
  rewrite (tbl_refill_whole n e last_update now) in Hck by lia.
  change 1%Q with (inject_Z 1) in Hck.
  rewrite Qle_bool_inject_Z in Hck.
  rewrite sub_inject_Z in Hck by (change (2 ^ 53) with 9007199254740992; lia).
  replace (inject_Z (if 1 <=? n + e then n + e - 1 else n + e))
    with (if 1 <=? n + e then inject_Z (n + e - 1) else inject_Z (n + e))
    by (by destruct (1 <=? n + e)).
  eexists. split; [exact Hck | reflexivity].
Qed.

Lemma tbl_burst key t m : ∀ (db : redis) stored last_update n e,
  0 ≤ t → t + 10 * 1000 ≤ 8640000000000000 →
  tb_read 10 t (Redis.fetch t db (TokenBucket.redisKey key))
  = Some (stored, last_update) →
  stored = inject_Z n → 0 ≤ n → 0 ≤ e ≤ 1 → n + e ≤ 10 →
  0 ≤ last_update → t - last_update = 1000 * e →
  outcome_allowed <$>
    trace (TokenBucketLimiter.check key 10 10) (replicate (S m) t) db
  = fst (burst (S m) (n + e))
  ∧ final (TokenBucketLimiter.check key 10 10) (replicate (S m) t) db
      !! TokenBucket.redisKey key
    = Some (Entry (VHash (inject_Z (snd (burst (S m) (n + e)))) t)
                  (Some (t + 10 * 2 * 1000))).
Proof.
  induction m as [|m IH];
    intros db stored last_update n e Ht Hend Hread Hst Hn He Hle Hlu Hdiff;
    destruct (tbl_step_whole key t db stored last_update n e
                Ht Hend Hread Hst Hn He Hle Hlu Hdiff) as (res & Hck & Ha).
  - simpl. rewrite Hck. simpl. unfold outcome_allowed at 1. simpl. rewrite Ha.
    split; [done|]. by rewrite lookup_insert_eq.
  - set (n' := if 1 <=? n + e then n + e - 1 else n + e) in *.
    set (db' := <[TokenBucket.redisKey key :=
                    Entry (VHash (inject_Z n') t) (Some (t + 10 * 2 * 1000))]> db)
      in *.
    assert (Hread' : tb_read 10 t (Redis.fetch t db' (TokenBucket.redisKey key))
                     = Some (inject_Z n', t)).
    { unfold db'. rewrite fetch_insert_eq; [done|]. apply Z.ltb_lt. lia. }
    assert (Hn' : 0 ≤ n' ∧ n' + 0 ≤ 10)
      by (subst n'; destruct (1 <=? n + e) eqn:?; lia).
    destruct (IH db' (inject_Z n') t n' 0 Ht Hend Hread' eq_refl
                ltac:(lia) ltac:(lia) ltac:(lia) ltac:(lia) ltac:(lia))
      as [IHa IHf].
    rewrite Z.add_0_r in IHa, IHf.
    change (replicate (S (S m)) t) with (t :: replicate (S m) t).
    cbn [trace final fold_left fmap list_fmap]. rewrite Hck.
    cbn [snd fst]. fold db'.
    change (fold_left _ (replicate (S m) t) db')
      with (final (TokenBucketLimiter.check key 10 10) (replicate (S m) t) db').
    split.
    + change (list_fmap _ _ outcome_allowed ?l) with (outcome_allowed <$> l).
      rewrite IHa. unfold outcome_allowed at 1. cbn [fst]. rewrite Ha.
      reflexivity.
    + exact IHf.
Qed.

(** C2. Token bucket, in binary64 as the script computes, at an instant
    [now] with [now + window·1000] within the range of dates.  A check reads
    the bucket ([limit] tokens stamped [now] on first use, the stored pair
    otherwise), refills it to [min(limit, tokens + elapsed × rate)] with
    [elapsed = (now − lastUpdate) / 1000] and [rate = limit / window], and:
    when the refilled amount is at least 1 it takes one token and allows, with
    [remaining] the floor of what is left; otherwise it denies, with
    [remaining] the floor of the refilled amount.  In both cases the new
    amount and [now] are written back (expiry [2 × window] seconds) and no
    other key changes.  With [limit = window = 10] and a fresh bucket, of
    eleven checks at one instant the first ten pass and the eleventh fails;
    of two checks one second later the first passes and the second fails.
    The rounding shows with [limit = 1] and [window = 49]: a bucket emptied
    at 0 holds [49 × (1/49) = 0.9999999999999999] tokens 49 seconds later,
    and the check is denied. *)
Theorem token_bucket_refill_consume_persist
    (key : string) (limit window now : Z) (db : redis)
    (tokens : Q) (lastUpdate : Z) :
  0 < limit → 0 < window →
  0 ≤ now → now + window * 1000 ≤ 8640000000000000 →
  (Redis.fetch now db (TokenBucket.redisKey key) = None
   ∧ tokens = Binary64.of_Z limit ∧ lastUpdate = now)
  ∨ (∃ stored ex, Redis.fetch now db (TokenBucket.redisKey key)
                  = Some (Entry (VHash stored lastUpdate) ex)
                  ∧ tokens = Binary64.round stored) →
  (∃ res tokens' (db' : redis),
     TokenBucketLimiter.check key limit window now db = (inr res, db')
     ∧ db' !! TokenBucket.redisKey key
       = Some (Entry (VHash tokens' now) (Some (now + window * 2 * 1000)))
     ∧ (∀ k', k' ≠ TokenBucket.redisKey key → db' !! k' = db !! k')
     ∧ let elapsed :=
         Binary64.div
           (Binary64.sub (Binary64.of_Z now) (Binary64.of_Z lastUpdate)) 1000 in
       let rate := Binary64.div (Binary64.of_Z limit) (Binary64.of_Z window) in
       let refilled :=
         Qmin (Binary64.of_Z limit)
              (Binary64.add tokens (Binary64.mul elapsed rate)) in
       ((1 <= refilled)%Q →
        CheckResult.allowed res = true
        ∧ tokens' = Binary64.sub refilled 1
        ∧ CheckResult.remaining res = Qfloor (Binary64.sub refilled 1))
       ∧ ((refilled < 1)%Q →
          CheckResult.allowed res = false
          ∧ tokens' = refilled
          ∧ CheckResult.remaining res = Qfloor refilled))
  ∧ (∀ key' t (db0 : redis),
       0 ≤ t → t + 1000 + 10 * 1000 ≤ 8640000000000000 →
       db0 !! TokenBucket.redisKey key' = None →
       outcome_allowed <$>
         trace (TokenBucketLimiter.check key' 10 10)
               (replicate 11 t ++ replicate 2 (t + 1000)) db0
       = replicate 10 (Some true) ++ [Some false; Some true; Some false])
  ∧ (outcome_allowed <$>
       trace (TokenBucketLimiter.check "user:1" 1 49) [0; 49000] ∅
     = [Some true; Some false]
     ∧ stored_tokens "user:1"
         (final (TokenBucketLimiter.check "user:1" 1 49) [0; 49000] ∅)
       = Some (9007199254740991 # 9007199254740992)%Q).
Proof.
  intros HL HW Hnow Hend Hstored. split; [|split; [|by vm_compute]].
  - assert (Hread : ∃ stored,
              tb_read limit now (Redis.fetch now db (TokenBucket.redisKey key))
              = Some (stored, lastUpdate)
              ∧ tokens = Binary64.round stored).
    { destruct Hstored as [(-> & -> & ->)|(stored & ex & -> & ->)].
      - by exists (inject_Z limit).
      - by exists stored. }
    destruct Hread as (stored & Hread & ->).
    pose proof (tbl_check_eq key limit window now db stored lastUpdate
                  HW Hnow Hend Hread) as Hck.
    cbv zeta in Hck.
    eexists _, _, _. split; [exact Hck|].
    split; [by rewrite lookup_insert_eq|].
    split; [intros k' Hk'; by rewrite lookup_insert_ne|].
    cbv zeta. cbn [CheckResult.allowed CheckResult.remaining].
    change (Qmin _ _)
      with (tbl_refill limit window (Binary64.round stored) lastUpdate now).
    split.
    + intros H1. apply Qle_bool_iff in H1. rewrite H1. done.
    + intros H1.
      assert (Qle_bool 1 (tbl_refill limit window (Binary64.round stored)
                            lastUpdate now) = false) as ->.
      { apply not_true_is_false. rewrite Qle_bool_iff. lra. }
      done.
  - intros key' t db0 Ht Hend' Hfresh.
    rewrite trace_app, fmap_app.
    destruct (tbl_burst key' t 10 db0 (inject_Z 10) t 10 0) as [Ha Hf];
      try lia; try done.
    { by rewrite fetch_None. }
    rewrite Ha.
    set (db1 := final (TokenBucketLimiter.check key' 10 10) (replicate 11 t) db0)
      in *.
    destruct (tbl_burst key' (t + 1000) 1 db1 (inject_Z 0) t 0 1) as [Hb _];
      try lia; try done.
    { rewrite (proj2 (fetch_Some (t + 1000) db1 (TokenBucket.redisKey key')
                        (Entry (VHash (inject_Z 0) t)
                               (Some (t + 10 * 2 * 1000)))));
        [reflexivity|].
      split; [exact Hf | apply Z.ltb_lt; lia]. }
    rewrite Hb. reflexivity.
Qed.

Lemma token_bucket_refill_consume_persist_witness :
  let key := "user:1" in
  let db : redis :=
    {[ TokenBucket.redisKey key := Entry (VHash 0 0) (Some 98000) ]} in
  (0 < 1 ∧ 0 < 49 ∧ 0 ≤ 49000 ∧ 49000 + 49 * 1000 ≤ 8640000000000000
   ∧ ((Redis.fetch 49000 db (TokenBucket.redisKey key) = None
       ∧ 0%Q = Binary64.of_Z 1 ∧ 0 = 49000)
      ∨ (∃ stored ex, Redis.fetch 49000 db (TokenBucket.redisKey key)
                      = Some (Entry (VHash stored 0) ex)
                      ∧ 0%Q = Binary64.round stored)))
  ∧ ∃ res tokens' (db' : redis),
      TokenBucketLimiter.check key 1 49 49000 db = (inr res, db')
      ∧ db' !! TokenBucket.redisKey key
        = Some (Entry (VHash tokens' 49000) (Some (49000 + 49 * 2 * 1000)))
      ∧ CheckResult.allowed res = false
      ∧ tokens' = (9007199254740991 # 9007199254740992)%Q
      ∧ CheckResult.remaining res = 0.
Proof.
  intros key db.
  assert (H1 : 0 < 1) by lia.
  assert (H2 : 0 < 49) by lia.
  assert (H3 : 0 ≤ 49000) by lia.
  assert (H4 : 49000 + 49 * 1000 ≤ 8640000000000000) by lia.
  assert (H5 : (Redis.fetch 49000 db (TokenBucket.redisKey key) = None
                ∧ 0%Q = Binary64.of_Z 1 ∧ 0 = 49000)
               ∨ (∃ stored ex, Redis.fetch 49000 db (TokenBucket.redisKey key)
                               = Some (Entry (VHash stored 0) ex)
                               ∧ 0%Q = Binary64.round stored)).
  { right. exists 0%Q, (Some 98000). split; vm_compute; reflexivity. }
  split; [by repeat split|].
  destruct (token_bucket_refill_consume_persist key 1 49 49000 db 0%Q 0
              H1 H2 H3 H4 H5)
    as [(res & tokens' & db' & Hck & Hk & _ & _ & Hno) _].
  exists res, tokens', db'. split; [exact Hck|]. split; [exact Hk|].
  assert (Hlt :
    (Qmin (Binary64.of_Z 1)
          (Binary64.add 0
             (Binary64.mul
                (Binary64.div
                   (Binary64.sub (Binary64.of_Z 49000) (Binary64.of_Z 0)) 1000)
                (Binary64.div (Binary64.of_Z 1) (Binary64.of_Z 49)))) < 1)%Q)
    by (vm_compute; reflexivity).
  destruct (Hno Hlt) as (Ha & Ht & Hr). split; [exact Ha|].
  split; [rewrite Ht; vm_compute; reflexivity|].
  rewrite Hr. vm_compute. reflexivity.
Defined.



(** ** Threshold notification *)

Lemma sort_insert_In compareFn x y l :
  In x (WebhookNotifier.sort_insert compareFn y l) ↔ x = y ∨ In x l.
Proof.
  induction l as [|z l IH]; simpl; [intuition congruence|].
  destruct (0 <? compareFn y z); simpl; [rewrite IH|]; intuition congruence.
Qed.

Lemma sort_In compareFn x l : In x (WebhookNotifier.sort compareFn l) ↔ In x l.
Proof.
  unfold WebhookNotifier.sort. induction l as [|y l IH]; simpl; [done|].
  rewrite sort_insert_In, IH. intuition congruence.
Qed.

Lemma sort_insert_head_is_max x l :
  head_is_max l → head_is_max (WebhookNotifier.sort_insert (λ a b, b - a) x l).
Proof.
  destruct l as [|y l]; simpl; [by constructor|].
  intros Hmax. destruct (0 <? y - x) eqn:E; simpl.
  - apply List.Forall_forall. intros z [->|Hz]%sort_insert_In; [lia|].
    by apply (proj1 (List.Forall_forall _ _) Hmax).
  - constructor; [lia|]. eapply Forall_impl; [exact Hmax|]. simpl. lia.
Qed.

Lemma sort_head_is_max l : head_is_max (WebhookNotifier.sort (λ a b, b - a) l).
Proof.
  unfold WebhookNotifier.sort. induction l as [|x l IH]; simpl; [done|].
  by apply sort_insert_head_is_max.
Qed.

Lemma sort_head l t rest :
  WebhookNotifier.sort (λ a b, b - a) l = t :: rest →
  In t l ∧ ∀ x, In x l → x ≤ t.
Proof.
  intros Hs. split.
  - apply (sort_In (λ a b, b - a)). rewrite Hs. by left.
  - intros x Hx%(sort_In (λ a b, b - a)). rewrite Hs in Hx.
    pose proof (sort_head_is_max l) as Hmax. rewrite Hs in Hmax. simpl in Hmax.
    destruct Hx as [->|Hx]; [lia|].
    by apply (proj1 (List.Forall_forall _ _) Hmax).
Qed.

Lemma sort_nil l : WebhookNotifier.sort (λ a b, b - a) l = [] → l = [].
Proof.
  destruct l as [|x l]; [done|]. intros Hs.
  assert (In x (WebhookNotifier.sort (λ a b, b - a) (x :: l)))
    by (apply sort_In; by left).
  rewrite Hs in H. done.
Qed.

(** C7. For a positive limit the usage percentage is the double
    [currentUsage / limit × 100], each of the two operations rounded.
    [shouldNotify] returns a threshold [t] exactly when [t] is in the list,
    the percentage is at least [t], and no other threshold of the list that
    the percentage reaches is larger; it returns nothing exactly when the
    percentage reaches no threshold of the list.  With thresholds 80, 90, 100
    and limit 100: usage 85 gives 80, usage 100 gives 100, usage 10 gives
    nothing.  With other limits: 45 of 50 gives 90, 7 of 8 gives 80, 1 of 3
    reaches 33 and not 34.  The percentage of 57 of 100 is
    56.99999999999999 and does not reach a threshold of 57. *)
Theorem shouldNotify_largest_crossed
    (currentUsage limit : Z) (thresholds : list Z) :
  0 < limit →
  let percentage :=
    Binary64.round
      (Binary64.round (Binary64.of_Z currentUsage / Binary64.of_Z limit) * 100) in
  WebhookNotifier.percentage currentUsage limit = Binary64.Finite percentage
  ∧ (∀ t, WebhookNotifier.shouldNotify currentUsage limit thresholds = Some t
          ↔ In t thresholds ∧ (Binary64.of_Z t <= percentage)%Q
            ∧ ∀ t', In t' thresholds →
                    (Binary64.of_Z t' <= percentage)%Q → t' ≤ t)
  ∧ (WebhookNotifier.shouldNotify currentUsage limit thresholds = None
     ↔ ∀ t, In t thresholds → ¬ (Binary64.of_Z t <= percentage)%Q)
  ∧ WebhookNotifier.shouldNotify 85 100 [80; 90; 100] = Some 80
  ∧ WebhookNotifier.shouldNotify 100 100 [80; 90; 100] = Some 100
  ∧ WebhookNotifier.shouldNotify 10 100 [80; 90; 100] = None
  ∧ WebhookNotifier.shouldNotify 45 50 [80; 90; 100] = Some 90
  ∧ WebhookNotifier.shouldNotify 7 8 [80; 90; 100] = Some 80
  ∧ WebhookNotifier.shouldNotify 1 3 [34; 33] = Some 33
  ∧ WebhookNotifier.percentage 57 100
    = Binary64.Finite (8022036836253695 # 140737488355328)
  ∧ WebhookNotifier.shouldNotify 57 100 [57] = None.
Proof.
  intros HL percentage.
  assert (Hperc : WebhookNotifier.percentage currentUsage limit
                  = Binary64.Finite percentage).
  { unfold WebhookNotifier.percentage, Binary64.div_number.
    pose proof (of_Z_pos limit HL) as Hpos.
    destruct (Qeq_bool (Binary64.of_Z limit) 0) eqn:E.
    - apply Qeq_bool_iff in E. rewrite E in Hpos. by apply Qlt_irrefl in Hpos.
    - reflexivity. }
  split; [exact Hperc|].
  unfold WebhookNotifier.shouldNotify. rewrite Hperc.
  set (crossed := List.filter _ thresholds).
  assert (Hcrossed : ∀ t, In t crossed
                          ↔ In t thresholds ∧ (Binary64.of_Z t <= percentage)%Q).
  { intros t. unfold crossed. rewrite filter_In. simpl.
    by rewrite Qle_bool_iff. }
  split; [|split; [|by vm_compute]].
  - intros t. destruct (WebhookNotifier.sort _ crossed) as [|h rest] eqn:Hs.
    + apply sort_nil in Hs. split; [done|].
      intros (Hin & Hle & _).
      assert (In t crossed) as Hc by (by apply Hcrossed). rewrite Hs in Hc. done.
    + apply sort_head in Hs as [Hh Hmax]. apply Hcrossed in Hh as [Hh1 Hh2].
      split.
      * intros [= <-]. split; [done|]. split; [done|].
        intros t' Hin Hle. apply Hmax. by apply Hcrossed.
      * intros (Hin & Hle & Hbig). f_equal.
        assert (t ≤ h) by (apply Hmax; by apply Hcrossed).
        assert (h ≤ t) by (by apply Hbig). lia.
  - destruct (WebhookNotifier.sort _ crossed) as [|h rest] eqn:Hs.
    + apply sort_nil in Hs. split; [|done]. intros _ t Hin Hle.
      assert (In t crossed) as Hc by (by apply Hcrossed). rewrite Hs in Hc. done.
    + apply sort_head in Hs as [Hh _]. apply Hcrossed in Hh as [Hh1 Hh2].
      split; [done|]. intros Hnone. by destruct (Hnone h Hh1).
Qed.

Lemma shouldNotify_largest_crossed_witness :
  0 < 100
  ∧ WebhookNotifier.percentage 95 100 = Binary64.Finite (inject_Z 95)
  ∧ WebhookNotifier.shouldNotify 95 100 [80; 100; 90] = Some 90.
Proof.
  assert (H : 0 < 100) by lia.
  split; [exact H|].
  destruct (shouldNotify_largest_crossed 95 100 [80; 100; 90] H)
    as (Hp & Hsome & _).
  split.
  - rewrite Hp. vm_compute. reflexivity.
  - apply Hsome. split; [simpl; tauto|].
    split; [vm_compute; discriminate|].
    intros t' [<-|[<-|[<-|[]]]]; [lia| |lia].
    intros Hle. exfalso. revert Hle. vm_compute. tauto.
Defined.

(** ** Rule matching *)

Lemma prefix_app p s : String.prefix p s = true ↔ ∃ r, s = p +:+ r.
Proof.
  revert s. induction p as [|a p IH]; intros s.
  - split; [intros _; by exists s | by destruct s].
  - destruct s as [|b s]; [split; [done | by intros [r ?]]|].
    cbn [String.prefix].
    destruct (Ascii.ascii_dec a b) as [->|Hne].
    + rewrite IH. split; intros [r Hr]; exists r; [by rewrite Hr | by injection Hr].
    + split; [done|]. intros [r Hr]. injection Hr as <- _. done.
Qed.

Lemma includes_substring s sub :
  RuleCache.includes s sub = true ↔ ∃ before after, s = before +:+ sub +:+ after.
Proof.
  induction s as [|a s IH]; cbn [RuleCache.includes];
    rewrite orb_true_iff, prefix_app.
  - split.
    + intros [[r Hr]|?]; [|done]. by exists EmptyString, r.
    + intros (before & after & Hs). left. exists after.
      destruct before; [done | discriminate].
  - rewrite IH. split.
    + intros [[r Hr]|(before & after & ->)]; [by exists EmptyString, r|].
      by exists (String a before), after.
    + intros (before & after & Hs).
      destruct before as [|b before]; [left; by exists after|].
      right. injection Hs as -> ->. by exists before, after.
Qed.

Lemma rule_matches_spec key rule :
  RuleCache.rule_matches key rule = true ↔ matches_spec key rule.
Proof.
  unfold RuleCache.rule_matches, matches_spec.
  destruct (Rule.enabled rule); simpl; [|split; [done | by intros [? _]]].
  rewrite existsb_exists. split.
  - intros (kc & Hin & Hm). split; [done|]. exists kc. split; [done|].
    unfold RuleCache.key_matches in Hm.
    destruct (String.eqb_spec (KeyConfig.value kc) "*") as [Heq|Hne];
      [by left | right; by apply includes_substring].
  - intros (_ & kc & Hin & Hm). exists kc. split; [done|].
    unfold RuleCache.key_matches.
    destruct (String.eqb_spec (KeyConfig.value kc) "*") as [Heq|Hne]; [done|].
    destruct Hm as [?|Hm]; [done | by apply includes_substring].
Qed.

Lemma find_first {A} (f : A → bool) (l : list A) x :
  List.find f l = Some x
  ↔ ∃ before after, l = before ++ x :: after ∧ f x = true
      ∧ List.Forall (λ y, f y = false) before.
Proof.
  induction l as [|a l IH]; simpl.
  - split; [done|]. intros (before & after & Hl & _). by destruct before.
  - destruct (f a) eqn:Ha.
    + split.
      * intros [= ->]. by exists [], l.
      * intros (before & after & Hl & Hx & Hb).
        destruct before as [|b before]; injection Hl as -> ->; [done|].
        apply List.Forall_inv in Hb. congruence.
    + rewrite IH. split.
      * intros (before & after & -> & Hx & Hb).
        exists (a :: before), after. split; [done|]. split; [done|].
        by constructor.
      * intros (before & after & Hl & Hx & Hb).
        destruct before as [|b before]; injection Hl as -> ->; [congruence|].
        exists before, after. split; [done|]. split; [done|].
        by apply List.Forall_inv_tail in Hb.
Qed.

Lemma find_nothing {A} (f : A → bool) (l : list A) :
  List.find f l = None ↔ List.Forall (λ y, f y = false) l.
Proof.
  induction l as [|a l IH]; simpl; [split; [by constructor | done]|].
  destruct (f a) eqn:Ha.
  - split; [done|]. intros Hf%List.Forall_inv. congruence.
  - rewrite IH. split; [by constructor | apply List.Forall_inv_tail].
Qed.

Lemma not_matches key rule :
  RuleCache.rule_matches key rule = false ↔ ¬ matches_spec key rule.
Proof. rewrite <- rule_matches_spec. by destruct (RuleCache.rule_matches key rule). Qed.

(** C6. [findMatchingRule] reads the cache and leaves the state alone.  It
    returns a rule exactly when that rule is the first one, in the order of the
    cache, that is enabled and has a key entry equal to ["*"] or occurring in
    [key] as a substring; it returns nothing exactly when no cached rule is
    such.  A disabled rule is never returned, and the endpoint argument has no
    influence.  An enabled rule alone in the cache with an entry ["42"] is
    returned for ["user:42"] and for ["user:4200"]; with an entry ["*"] it is
    returned for every key. *)
Theorem findMatchingRule_first_enabled_match
    (key : string) (endpoint : option string) (st : ServiceState) :
  ∃ found,
    RuleService.findMatchingRule key endpoint st = (inr found, st)
    ∧ (∀ rule, found = Some rule
         ↔ ∃ before after,
             RuleCache.getAll (cache st) = before ++ rule :: after
             ∧ matches_spec key rule
             ∧ List.Forall (λ r, ¬ matches_spec key r) before)
    ∧ (found = None
       ↔ List.Forall (λ r, ¬ matches_spec key r) (RuleCache.getAll (cache st)))
    ∧ (∀ rule, found = Some rule → Rule.enabled rule = true)
    ∧ (∀ endpoint',
         RuleService.findMatchingRule key endpoint' st = (inr found, st))
    ∧ (∀ rule db keyConfig,
         Rule.enabled rule = true → In keyConfig (Rule.keys rule) →
         (KeyConfig.value keyConfig = "42" →
          ∀ k, k = "user:42" ∨ k = "user:4200" →
               RuleService.findMatchingRule k endpoint
                 (State [(Rule.id rule, rule)] db)
               = (inr (Some rule), State [(Rule.id rule, rule)] db))
         ∧ (KeyConfig.value keyConfig = "*" →
            ∀ k, RuleService.findMatchingRule k endpoint
                   (State [(Rule.id rule, rule)] db)
                 = (inr (Some rule), State [(Rule.id rule, rule)] db))).
Proof.
  exists (RuleCache.findByKey key endpoint (cache st)).
  split; [done|]. unfold RuleCache.findByKey.
  split; [|split; [|split; [|split; [done|]]]].
  - intros rule. rewrite find_first. split.
    + intros (before & after & Hl & Hm & Hb). exists before, after.
      split; [done|]. split; [by apply rule_matches_spec|].
      eapply List.Forall_impl; [|exact Hb]. intros r. apply not_matches.
    + intros (before & after & Hl & Hm & Hb). exists before, after.
      split; [done|]. split; [by apply rule_matches_spec|].
      eapply List.Forall_impl; [|exact Hb]. intros r. apply not_matches.
  - rewrite find_nothing. split; intros Hf;
      (eapply List.Forall_impl; [|exact Hf]); intros r; apply not_matches.
  - intros rule Hf. apply find_some in Hf as [_ Hm].
    by apply rule_matches_spec in Hm as [? _].
  - intros rule db keyConfig Hen Hin.
    assert (Hfound : ∀ k, matches_spec k rule →
      RuleService.findMatchingRule k endpoint (State [(Rule.id rule, rule)] db)
      = (inr (Some rule), State [(Rule.id rule, rule)] db)).
    { intros k Hm%rule_matches_spec.
      unfold RuleService.findMatchingRule, RuleCache.findByKey. simpl.
      by rewrite Hm. }
    split.
    + intros Hv k Hk. apply Hfound. split; [done|]. exists keyConfig.
      split; [done|]. right. rewrite Hv.
      destruct Hk as [->| ->]; [by exists "user:", EmptyString | by exists "user:", "00"].
    + intros Hv k. apply Hfound. split; [done|]. exists keyConfig.
      split; [done|]. by left.
Qed.

(** ** Rule service and orchestrator *)

Lemma cache_get_set rule rules :
  RuleCache.get (Rule.id rule) (RuleCache.set rule rules) = Some rule.
Proof.
  unfold RuleCache.set. induction rules as [|[k r] rules IH]; simpl.
  - by rewrite String.eqb_refl.
  - destruct (String.eqb_spec (Rule.id rule) k) as [->|Hne]; simpl.
    + by rewrite String.eqb_refl.
    + by rewrite (proj2 (String.eqb_neq _ _) Hne).
Qed.

Lemma cache_getAll_set rule rules :
  In rule (RuleCache.getAll (RuleCache.set rule rules)).
Proof.
  unfold RuleCache.set, RuleCache.getAll.
  induction rules as [|[k r] rules IH]; simpl; [by left|].
  destruct (String.eqb (Rule.id rule) k); simpl; [by left | by right].
Qed.

Lemma set_at_In k0 rule rules k r :
  NoDup (fst <$> rules) →
  In (k, r) (RuleCache.set_at k0 rule rules) → k = k0 → r = rule.
Proof.
  induction rules as [|[k' r'] rules IH]; simpl; intros Hnd Hin ->.
  - destruct Hin as [[= ->]|[]]. done.
  - apply NoDup_cons in Hnd as [Hk' Hnd].
    destruct (String.eqb_spec k0 k') as [->|Hne]; simpl in Hin.
    + destruct Hin as [[= ->]|Hin]; [done|].
      exfalso. apply Hk'. apply list_elem_of_In.
      change k' with (fst (k', r)). by apply in_map.
    + destruct Hin as [[= -> _]|Hin]; [done|]. by apply IH.
Qed.

Lemma cache_set_unique rule rules r :
  cache_wf rules →
  In r (RuleCache.getAll (RuleCache.set rule rules)) →
  Rule.id r = Rule.id rule → r = rule.
Proof.
  intros [Hnd Hids] Hin Hid. unfold RuleCache.getAll in Hin.
  apply in_map_iff in Hin as ([k r0] & <- & Hin). simpl in *.
  eapply set_at_In; [exact Hnd | exact Hin |].
  unfold RuleCache.set in Hin. clear Hnd.
  induction rules as [|[k' r'] rules IH]; simpl in Hin.
  - by destruct Hin as [[= -> ->]|[]].
  - apply List.Forall_cons_iff in Hids as [Hk' Hids]. simpl in Hk'.
    destruct (String.eqb (Rule.id rule) k'); simpl in Hin.
    + destruct Hin as [[= -> ->]|Hin]; [done|].
      assert (fst (k, r0) = Rule.id (snd (k, r0))) as Hkr
        by (by apply (proj1 (List.Forall_forall _ _) Hids)).
      simpl in Hkr. congruence.
    + destruct Hin as [[= -> ->]|Hin]; [congruence | by apply IH].
Qed.

Lemma truthy_string_Some s : s ≠ EmptyString → truthy_string (Some s) = Some s.
Proof.
  intros Hs. unfold truthy_string.
  by rewrite (proj2 (String.eqb_neq _ _) Hs).
Qed.

Lemma truthy_number_pos n : 0 < n → truthy_number (Some n) = Some n.
Proof. intros Hn. unfold truthy_number. destruct (n =? 0) eqn:E; [lia|done]. Qed.

Lemma append_empty_r s : s +:+ EmptyString = s.
Proof.
  induction s as [|a s IH]; [done|].
  change (String a (s +:+ EmptyString) = String a s). by rewrite IH.
Qed.

Lemma append_eq_self s t : s +:+ t = s → t = EmptyString.
Proof.
  intros H.
  assert (H' : s +:+ t = s +:+ EmptyString) by (by rewrite append_empty_r).
  by apply String.app_inj in H'.
Qed.

(** *** Subjects do not share store keys *)

Lemma app_cons c a b : String c a +:+ b = String c (a +:+ b).
Proof. done. Qed.

Lemma app_nil b : EmptyString +:+ b = b.
Proof. done. Qed.

Lemma pretty_N_go_colon_free x s :
  colon_free s = true → colon_free (pretty_N_go x s) = true.
Proof.
  revert s. induction (N.lt_wf_0 x) as [x _ IH]; intros s Hs.
  assert (x = 0 ∨ 0 < x)%N as [->|Hx] by lia.
  - by rewrite pretty_N_go_0.
  - rewrite pretty_N_go_step by done. apply IH; [by apply N.div_lt|].
    simpl. rewrite Hs. unfold pretty_N_char. by repeat case_match.
Qed.

Lemma pretty_Z_colon_free (z : Z) : colon_free (pretty z) = true.
Proof.
  assert (HN : ∀ n : N, colon_free (pretty n) = true).
  { intros n. unfold pretty, pretty_N. case_decide; [done|].
    by apply pretty_N_go_colon_free. }
  destruct z as [|p|p]; [done | apply (HN (Npos p)) |].
  change (colon_free (String "-" (pretty (Npos p))) = true).
  simpl. apply (HN (Npos p)).
Qed.

Lemma colon_free_app a b : colon_free (a +:+ String ":" b) = false.
Proof.
  induction a as [|c a IH]; [done|].
  rewrite app_cons. simpl. rewrite IH. apply andb_false_r.
Qed.

Lemma split_at_last_colon a a' d d' :
  colon_free d = true → colon_free d' = true →
  a +:+ ":" +:+ d = a' +:+ ":" +:+ d' → a = a' ∧ d = d'.
Proof.
  intros Hd Hd'. revert a'. induction a as [|c a IH]; intros [|c' a'] H;
    rewrite ?app_cons, ?app_nil in H.
  - by injection H.
  - injection H as <- ->. by rewrite colon_free_app in Hd.
  - injection H as -> <-. by rewrite colon_free_app in Hd'.
  - injection H as -> H. apply IH in H as [-> ->]. done.
Qed.

Lemma limiter_keys_disjoint algorithm algorithm' subject subject' k :
  limiter_key algorithm subject k → limiter_key algorithm' subject' k →
  algorithm = algorithm' ∧ subject = subject'.
Proof.
  destruct algorithm, algorithm'; simpl;
    unfold TokenBucket.redisKey, FixedWindow.redisKey, SlidingWindow.windowKey.
  - intros -> Heq. apply String.app_inj in Heq. by subst.
  - intros -> [w Heq]. discriminate.
  - intros -> [w Heq]. discriminate.
  - intros [w ->] Heq. discriminate.
  - intros [w ->] [w' Heq]. apply String.app_inj in Heq.
    apply split_at_last_colon in Heq as [-> _];
      [done | apply pretty_Z_colon_free..].
  - intros [w ->] [w' Heq]. discriminate.
  - intros [w ->] Heq. discriminate.
  - intros [w ->] [w' Heq]. discriminate.
  - intros [w ->] [w' Heq]. apply String.app_inj in Heq.
    apply split_at_last_colon in Heq as [-> _];
      [done | apply pretty_Z_colon_free..].
Qed.

Lemma writes_within_ret {A} keys (a : A) : writes_within keys (mret a).
Proof. by intros db k _. Qed.

Lemma writes_within_throw {A} keys e : writes_within keys (@throw redis A e).
Proof. by intros db k _. Qed.

Lemma writes_within_bind {A B} keys (m : M redis A) (f : A → M redis B) :
  writes_within keys m → (∀ a, writes_within keys (f a)) →
  writes_within keys (m ≫= f).
Proof.
  intros Hm Hf db k Hk. specialize (Hm db k Hk).
  unfold mbind, M_bind. destruct (m db) as [[e|a] db1]; simpl in *; [done|].
  rewrite <- Hm. by apply Hf.
Qed.

Lemma writes_within_insert (keys : string → Prop) k0 e (db : redis) k :
  keys k0 → ¬ keys k → <[k0 := e]> db !! k = db !! k.
Proof. intros H0 Hk. apply lookup_insert_ne. by intros ->. Qed.

Lemma GET_writes (keys : string → Prop) clk k0 :
  writes_within keys (Redis.GET clk k0).
Proof. intros db k _. unfold Redis.GET. by repeat case_match. Qed.

Lemma HMGET_writes (keys : string → Prop) clk k0 :
  writes_within keys (Redis.HMGET clk k0).
Proof. intros db k _. unfold Redis.HMGET. by repeat case_match. Qed.

Lemma number_writes (keys : string → Prop) v :
  writes_within keys (Redis.number v).
Proof. intros db k _. by destruct v. Qed.

Lemma INCR_writes (keys : string → Prop) clk k0 :
  keys k0 → writes_within keys (Redis.INCR clk k0).
Proof.
  intros H0 db k Hk. unfold Redis.INCR.
  repeat case_match; simpl; try done; by apply (writes_within_insert keys).
Qed.

Lemma EXPIRE_writes (keys : string → Prop) clk k0 seconds :
  keys k0 → writes_within keys (Redis.EXPIRE clk k0 seconds).
Proof.
  intros H0 db k Hk. unfold Redis.EXPIRE.
  repeat case_match; simpl; try done; by apply (writes_within_insert keys).
Qed.

Lemma HMSET_writes (keys : string → Prop) clk k0 tokens last_update :
  keys k0 → writes_within keys (Redis.HMSET clk k0 tokens last_update).
Proof.
  intros H0 db k Hk. unfold Redis.HMSET.
  repeat case_match; simpl; try done; by apply (writes_within_insert keys).
Qed.

(** A limiter writes only keys of its own algorithm and subject. *)
Lemma limiter_writes_own_keys algorithm subject limit window now :
  writes_within (limiter_key algorithm subject)
    (AlgorithmFactory.get algorithm subject limit window now).
Proof.
  destruct algorithm; simpl.
  - unfold TokenBucket.check, TokenBucket.script.
    apply writes_within_bind; [|intros [[a r] t]; apply writes_within_ret].
    apply writes_within_bind; [apply HMGET_writes|]. intros bucket.
    destruct bucket as [[t u]|]; destruct (Qle_bool 1 _);
      (apply writes_within_bind; [by apply HMSET_writes|]); intros _;
      (apply writes_within_bind; [by apply EXPIRE_writes|]); intros _;
      apply writes_within_ret.
  - unfold FixedWindow.check, FixedWindow.script.
    apply writes_within_bind; [|intros [a c]; apply writes_within_ret].
    apply writes_within_bind; [apply GET_writes|]. intros v.
    apply writes_within_bind; [apply number_writes|]. intros c.
    destruct (c <? limit); [|apply writes_within_ret].
    apply writes_within_bind; [apply INCR_writes; by eexists|]. intros n.
    apply writes_within_bind; [apply EXPIRE_writes; by eexists|]. intros _.
    apply writes_within_ret.
  - unfold SlidingWindow.check, SlidingWindow.script.
    apply writes_within_bind; [|intros [[a e] c]; apply writes_within_ret].
    apply writes_within_bind; [apply GET_writes|]. intros v.
    apply writes_within_bind; [apply number_writes|]. intros c.
    apply writes_within_bind; [apply GET_writes|]. intros v'.
    apply writes_within_bind; [apply number_writes|]. intros p'.
    destruct (Qlt_bool _ _); [|apply writes_within_ret].
    apply writes_within_bind; [apply INCR_writes; by eexists|]. intros n.
    apply writes_within_bind; [apply EXPIRE_writes; by eexists|]. intros _.
    apply writes_within_ret.
Qed.

(** C5, as the code has it.  The subject key handed to the limiter is
    [key + ":" + endpoint] when the endpoint is present and not the empty
    string, and [key] alone when the endpoint is absent or empty; [check] runs
    the resolved limiter on exactly that key.  Two requests with the same key
    and different endpoints get different subject keys, unless one endpoint is
    absent and the other empty; and then a check for one of them, under any
    algorithm, leaves every limiter key of the other as it was. *)
Theorem subject_key_composition `{Runtime}
    (request : CheckRequest.t) (now : Z) (st : ServiceState) :
  (∀ e, CheckRequest.endpoint request = Some e → e ≠ EmptyString →
        RateLimiterService.fullKey request
        = CheckRequest.key request +:+ ":" +:+ e)
  ∧ (CheckRequest.endpoint request = None
     ∨ CheckRequest.endpoint request = Some EmptyString →
     RateLimiterService.fullKey request = CheckRequest.key request)
  ∧ (∀ algorithm limit window st1,
       RateLimiterService.resolve request now st
       = (inr (algorithm, limit, window), st1) →
       RateLimiterService.check request now st
       = on_storage (AlgorithmFactory.get algorithm
                       (RateLimiterService.fullKey request) limit window now) st1)
  ∧ (∀ request',
       CheckRequest.key request' = CheckRequest.key request →
       CheckRequest.endpoint request' ≠ CheckRequest.endpoint request →
       ¬ ((CheckRequest.endpoint request' = None
           ∨ CheckRequest.endpoint request' = Some EmptyString)
          ∧ (CheckRequest.endpoint request = None
             ∨ CheckRequest.endpoint request = Some EmptyString)) →
       RateLimiterService.fullKey request' ≠ RateLimiterService.fullKey request
       ∧ ∀ algorithm algorithm' limit window (db : redis) k,
           limiter_key algorithm' (RateLimiterService.fullKey request') k →
           snd (AlgorithmFactory.get algorithm
                  (RateLimiterService.fullKey request) limit window now db) !! k
           = db !! k).
Proof.
  split; [|split; [|split]].
  - intros e He Hne. unfold RateLimiterService.fullKey.
    by rewrite He, truthy_string_Some.
  - unfold RateLimiterService.fullKey. by intros [-> | ->].
  - intros algorithm limit window st1 Hres.
    unfold RateLimiterService.check. by erewrite bind_inr; [|exact Hres].
  - intros request' Hkey Hne Hboth.
    assert (Hdiff : RateLimiterService.fullKey request'
                    ≠ RateLimiterService.fullKey request);
      [|split; [exact Hdiff|];
        intros algorithm algorithm' limit window db k Hk;
        apply limiter_writes_own_keys; intros Hown;
        by destruct (limiter_keys_disjoint _ _ _ _ _ Hown Hk) as [_ ?]].
    unfold RateLimiterService.fullKey.
    rewrite Hkey. unfold truthy_string.
    destruct (CheckRequest.endpoint request') as [e'|];
      destruct (CheckRequest.endpoint request) as [e|];
      try destruct (String.eqb_spec e' EmptyString) as [->|He'];
      try destruct (String.eqb_spec e EmptyString) as [->|He];
      try (exfalso; apply Hboth; by auto); try done.
    + intros Heq. symmetry in Heq. apply append_eq_self in Heq. discriminate.
    + intros Heq%append_eq_self. discriminate.
    + intros Heq. do 2 apply String.app_inj in Heq. congruence.
    + intros Heq%append_eq_self. discriminate.
    + intros Heq. symmetry in Heq. apply append_eq_self in Heq. discriminate.
Qed.

Lemma subject_key_composition_witness :
  let request := CheckRequest.Build "user:1" (Some "/api") None
                   (Some fixed_window) (Some 5) (Some 60) in
  (CheckRequest.endpoint request = Some "/api" ∧ "/api" ≠ EmptyString)
  ∧ RateLimiterService.fullKey request = "user:1:/api".
Proof.
  intros request.
  assert (H1 : CheckRequest.endpoint request = Some "/api") by reflexivity.
  assert (H2 : "/api" ≠ EmptyString) by discriminate.
  split; [by split|].
  exact (proj1 (@subject_key_composition example_runtime request 0 (State [] ∅))
           "/api" H1 H2).
Defined.

(** C5, where the claim as first stated fails.  The request below passes
    [CheckRequestSchema]; its endpoint is present and is the empty string; the
    subject key is the key alone, not the key followed by a colon, and the
    fixed-window limiter is run on ["user:1"]. *)
Lemma subject_key_empty_endpoint :
  @CheckRequestSchema_ok example_runtime empty_endpoint_request = true
  ∧ CheckRequest.endpoint empty_endpoint_request = Some EmptyString
  ∧ RateLimiterService.fullKey empty_endpoint_request = "user:1"
  ∧ RateLimiterService.fullKey empty_endpoint_request
    ≠ CheckRequest.key empty_endpoint_request +:+ ":" +:+ EmptyString
  ∧ @RateLimiterService.check example_runtime empty_endpoint_request 0
      (State [] ∅)
    = on_storage (FixedWindow.check "user:1" 5 60 0) (State [] ∅).
Proof. repeat split; discriminate. Qed.

(** C4. Resolution precedence of [check], for a request that passes
    [CheckRequestSchema] (a uuid is never the empty string).
    (1) With a [ruleId], the rule is looked up with [getRule]: an absent rule
    fails with "Rule not found", a rule with [enabled = false] fails with
    "Rule is disabled", and otherwise the limiter of the rule's algorithm runs
    with the rule's limit and window.
    (2) Without a [ruleId] and with [algorithm], [limit] and [window] all
    present, the limiter runs with these, from the state as it was: no
    operation of the rule service takes part, the rule cache and the stored
    rule records are left as they were.
    (3) Otherwise the matcher is asked: no match fails with "No matching rule
    found and no inline parameters provided", a match supplies the parameters.
    The three cases exclude one another and cover every request. *)
Theorem check_resolution_precedence `{Runtime}
    (request : CheckRequest.t) (now : Z) (st : ServiceState) :
  is_uuid EmptyString = false →
  CheckRequestSchema_ok request = true →
  let run algorithm limit window :=
    on_storage (AlgorithmFactory.get algorithm
                  (RateLimiterService.fullKey request) limit window now) in
  (∀ ruleId, CheckRequest.ruleId request = Some ruleId →
     match RuleService.getRule ruleId now st with
     | (inl e, st1) => RateLimiterService.check request now st = (inl e, st1)
     | (inr None, st1) =>
         RateLimiterService.check request now st
         = (inl (RateLimiterService.RuleNotFound ruleId), st1)
     | (inr (Some rule), st1) =>
         if Rule.enabled rule
         then RateLimiterService.check request now st
              = run (Rule.algorithm rule) (Rule.limit rule) (Rule.window rule) st1
         else RateLimiterService.check request now st
              = (inl (RateLimiterService.RuleDisabled ruleId), st1)
     end)
  ∧ (CheckRequest.ruleId request = None →
     ∀ algorithm limit window,
       CheckRequest.algorithm request = Some algorithm →
       CheckRequest.limit request = Some limit →
       CheckRequest.window request = Some window →
       RateLimiterService.check request now st = run algorithm limit window st
       ∧ cache (snd (RateLimiterService.check request now st)) = cache st
       ∧ ∀ id, storage (snd (RateLimiterService.check request now st))
                 !! ("rule:" +:+ id)
               = storage st !! ("rule:" +:+ id))
  ∧ (CheckRequest.ruleId request = None →
     CheckRequest.algorithm request = None
     ∨ CheckRequest.limit request = None
     ∨ CheckRequest.window request = None →
     match RuleService.findMatchingRule (CheckRequest.key request)
             (CheckRequest.endpoint request) st with
     | (inr (Some rule), st1) =>
         RateLimiterService.check request now st
         = run (Rule.algorithm rule) (Rule.limit rule) (Rule.window rule) st1
     | (inr None, st1) =>
         RateLimiterService.check request now st
         = (inl RateLimiterService.NoMatchingRule, st1)
     | (inl e, st1) => RateLimiterService.check request now st = (inl e, st1)
     end)
  ∧ ((∃ ruleId, CheckRequest.ruleId request = Some ruleId)
     ∨ (CheckRequest.ruleId request = None
        ∧ ∃ algorithm limit window,
            CheckRequest.algorithm request = Some algorithm
            ∧ CheckRequest.limit request = Some limit
            ∧ CheckRequest.window request = Some window)
     ∨ (CheckRequest.ruleId request = None
        ∧ (CheckRequest.algorithm request = None
           ∨ CheckRequest.limit request = None
           ∨ CheckRequest.window request = None))).
Proof.
  intros Huuid Hok run.
  unfold CheckRequestSchema_ok in Hok.
  repeat (apply andb_prop in Hok as [Hok ?]).
  split; [|split; [|split]].
  - intros ruleId Hid. rewrite Hid in *.
    assert (ruleId ≠ EmptyString) as Hne by (intros ->; congruence).
    unfold RateLimiterService.check, RateLimiterService.resolve.
    rewrite Hid, truthy_string_Some by done.
    destruct (RuleService.getRule ruleId now st) as [[e|[rule|]] st1] eqn:Hget.
    + erewrite bind_inl; [|erewrite bind_inl; [|exact Hget]; reflexivity]. done.
    + destruct (Rule.enabled rule) eqn:Hen.
      * erewrite bind_inr;
          [|erewrite bind_inr; [|exact Hget]; cbv beta iota; by rewrite Hen].
        done.
      * erewrite bind_inl;
          [|erewrite bind_inr; [|exact Hget]; cbv beta iota; by rewrite Hen].
        done.
    + erewrite bind_inl; [|erewrite bind_inr; [|exact Hget]; reflexivity]. done.
  - intros Hid algorithm limit window Ha Hl Hw.
    assert (Heq : RateLimiterService.check request now st
                  = run algorithm limit window st).
    { unfold RateLimiterService.check, RateLimiterService.resolve.
      rewrite Hid, Ha, Hl, Hw in *. cbn [truthy_string].
      rewrite !truthy_number_pos by (by apply Z.ltb_lt). done. }
    split; [exact Heq|]. rewrite Heq. unfold run, on_storage.
    pose proof (limiter_writes_own_keys algorithm
                  (RateLimiterService.fullKey request) limit window now
                  (storage st)) as Hframe.
    destruct (AlgorithmFactory.get _ _ _ _ _ _) as [r db']. simpl in *.
    split; [done|]. intros id. apply Hframe.
    destruct algorithm; simpl;
      unfold TokenBucket.redisKey, FixedWindow.redisKey, SlidingWindow.windowKey;
      [intros ? | intros [? ?] | intros [? ?]]; discriminate.
  - intros Hid Hmissing.
    unfold RateLimiterService.check, RateLimiterService.resolve.
    rewrite Hid. simpl.
    assert (Hgo : ∀ (k : AlgorithmType * Z * Z → M ServiceState CheckResult.t),
      (match CheckRequest.algorithm request,
             truthy_number (CheckRequest.limit request),
             truthy_number (CheckRequest.window request) with
       | Some algorithm, Some limit, Some window => mret (algorithm, limit, window)
       | _, _, _ =>
           RuleService.findMatchingRule (CheckRequest.key request)
             (CheckRequest.endpoint request)
           ≫= λ matchingRule,
                match matchingRule with
                | Some matchingRule =>
                    mret (Rule.algorithm matchingRule, Rule.limit matchingRule,
                          Rule.window matchingRule)
                | None => throw RateLimiterService.NoMatchingRule
                end
       end ≫= k) st
      = (RuleService.findMatchingRule (CheckRequest.key request)
           (CheckRequest.endpoint request)
         ≫= λ matchingRule,
              match matchingRule with
              | Some matchingRule =>
                  mret (Rule.algorithm matchingRule, Rule.limit matchingRule,
                        Rule.window matchingRule)
              | None => throw RateLimiterService.NoMatchingRule
              end ≫= k) st).
    { intros k. destruct Hmissing as [-> | [-> | ->]]; simpl; try done.
      - by destruct (CheckRequest.algorithm request).
      - destruct (CheckRequest.algorithm request); [|done].
        by destruct (truthy_number (CheckRequest.limit request)). }
    rewrite Hgo. unfold RuleService.findMatchingRule, mbind, M_bind. simpl.
    by destruct (RuleCache.findByKey _ _ _).
  - destruct (CheckRequest.ruleId request) as [ruleId|]; [left; by eexists|].
    right.
    destruct (CheckRequest.algorithm request) as [a|]; [|right; auto].
    destruct (CheckRequest.limit request) as [l|]; [|right; auto].
    destruct (CheckRequest.window request) as [w|]; [|right; auto].
    left. split; [done|]. by exists a, l, w.
Qed.

Lemma check_resolution_precedence_witness :
  let ruleId := "123e4567-e89b-12d3-a456-426614174000" in
  let rule := Rule.Build ruleId "burst" token_bucket 10 60
                [KeyConfig.Build KeyType.user "*"] None [80; 90; 100] false
                None None in
  let request := CheckRequest.Build "user:1" None (Some ruleId) None None None in
  let st := State [(ruleId, rule)] ∅ in
  (@is_uuid example_runtime EmptyString = false
   ∧ @CheckRequestSchema_ok example_runtime request = true)
  ∧ @RateLimiterService.check example_runtime request 0 st
    = (inl (RateLimiterService.RuleDisabled ruleId), st).
Proof.
  intros ruleId rule request st.
  assert (H1 : @is_uuid example_runtime EmptyString = false) by reflexivity.
  assert (H2 : @CheckRequestSchema_ok example_runtime request = true)
    by reflexivity.
  split; [by split|].
  exact (proj1 (@check_resolution_precedence example_runtime request 0 st H1 H2)
           ruleId eq_refl).
Defined.

(** C8. A create request that passes [CreateRuleSchema], with a well-formed
    generated uuid at hand: [createRule] returns the rule made of the request's
    fields, with the request's id or else the generated one, thresholds
    defaulting to [80, 90, 100], [enabled] defaulting to true, and the two
    timestamps; it stores the rule's JSON under ["rule:" + id]; and then
    [getRule] on the returned id yields that same rule, and the list of all
    rules contains it, as the only rule of that id when the cache was one that
    [set] builds. *)
Theorem createRule_read_back `{Runtime}
    (request : CreateRuleRequest.t) (uuidv4 : string) (date1 date2 clk clk' : Z)
    (st : ServiceState) :
  is_uuid EmptyString = false →
  CreateRuleSchema_ok request = true →
  is_uuid uuidv4 = true →
  let rule :=
    {| Rule.id := default uuidv4 (CreateRuleRequest.id request);
       Rule.name := CreateRuleRequest.name request;
       Rule.algorithm := CreateRuleRequest.algorithm request;
       Rule.limit := CreateRuleRequest.limit request;
       Rule.window := CreateRuleRequest.window request;
       Rule.keys := CreateRuleRequest.keys request;
       Rule.webhookUrl := CreateRuleRequest.webhookUrl request;
       Rule.thresholds :=
         default [80; 90; 100] (CreateRuleRequest.thresholds request);
       Rule.enabled := default true (CreateRuleRequest.enabled request);
       Rule.createdAt := Some date1;
       Rule.updatedAt := Some date2 |} in
  ∃ st',
    RuleService.createRule request uuidv4 date1 date2 clk st = (inr rule, st')
    ∧ storage st' !! ("rule:" +:+ Rule.id rule)
      = Some (Entry (VText (JSON_stringify rule)) None)
    ∧ RuleService.getRule (Rule.id rule) clk' st' = (inr (Some rule), st')
    ∧ ∃ rules,
        RuleService.getAllRules st' = (inr rules, st')
        ∧ In rule rules
        ∧ (cache_wf (cache st) →
           ∀ r, In r rules → Rule.id r = Rule.id rule → r = rule).
Proof.
  intros Hempty Hok Huuid rule.
  assert (Hid : match truthy_string (CreateRuleRequest.id request) with
                | Some i => i
                | None => uuidv4
                end = default uuidv4 (CreateRuleRequest.id request)
                ∧ is_uuid (default uuidv4 (CreateRuleRequest.id request)) = true).
  { unfold CreateRuleSchema_ok in Hok.
    repeat (apply andb_prop in Hok as [Hok ?]).
    destruct (CreateRuleRequest.id request) as [i|]; simpl; [|done].
    destruct (String.eqb_spec i EmptyString) as [->|Hne]; [congruence|done]. }
  destruct Hid as [Hid Hid_ok].
  assert (Hvalid : RuleSchema_ok rule = true).
  { unfold CreateRuleSchema_ok in Hok. unfold RuleSchema_ok. subst rule. simpl.
    repeat (apply andb_prop in Hok as [Hok ?]).
    repeat (apply andb_true_intro; split); done. }
  exists (State (RuleCache.set rule (cache st))
                (<["rule:" +:+ Rule.id rule :=
                     Entry (VText (JSON_stringify rule)) None]> (storage st))).
  split; [|split; [|split]].
  - unfold RuleService.createRule. rewrite Hid. fold rule.
    unfold RuleSchema_parse. rewrite Hvalid. reflexivity.
  - simpl. by rewrite lookup_insert_eq.
  - unfold RuleService.getRule, cache_get, mbind, M_bind. simpl.
    by rewrite (cache_get_set rule).
  - eexists. split; [reflexivity|]. simpl. split; [apply cache_getAll_set|].
    intros Hwf r. by apply cache_set_unique.
Qed.

Lemma createRule_read_back_witness :
  let uuid := "123e4567-e89b-12d3-a456-426614174000" in
  let request := CreateRuleRequest.Build None "burst" token_bucket 10 60
                   [KeyConfig.Build KeyType.user "*"] None None None in
  let rule := Rule.Build uuid "burst" token_bucket 10 60
                [KeyConfig.Build KeyType.user "*"] None [80; 90; 100] true
                (Some 1000) (Some 1001) in
  (@is_uuid example_runtime EmptyString = false
   ∧ @CreateRuleSchema_ok example_runtime request = true
   ∧ @is_uuid example_runtime uuid = true)
  ∧ ∃ st',
      @RuleService.createRule example_runtime request uuid 1000 1001 1002
        (State [] ∅) = (inr rule, st')
      ∧ storage st' !! ("rule:" +:+ uuid)
        = Some (Entry (VText (@JSON_stringify example_runtime rule)) None)
      ∧ @RuleService.getRule example_runtime uuid 2000 st'
        = (inr (Some rule), st')
      ∧ ∃ rules,
          RuleService.getAllRules st' = (inr rules, st')
          ∧ In rule rules
          ∧ (cache_wf [] →
             ∀ r, In r rules → Rule.id r = Rule.id rule → r = rule).
Proof.
  intros uuid request rule.
  assert (H1 : @is_uuid example_runtime EmptyString = false) by reflexivity.
  assert (H2 : @CreateRuleSchema_ok example_runtime request = true)
    by reflexivity.
  assert (H3 : @is_uuid example_runtime uuid = true) by reflexivity.
  split; [by repeat split|].
  exact (@createRule_read_back example_runtime request uuid 1000 1001 1002 2000
           (State [] ∅) H1 H2 H3).
Defined.

(** ** Shape of a check result *)

Lemma bind_inv {S A B} (m : M S A) (k : A → M S B) s b s' :
  (m ≫= k) s = (inr b, s') → ∃ a s1, m s = (inr a, s1) ∧ k a s1 = (inr b, s').
Proof.
  unfold mbind, M_bind. destruct (m s) as [[e|a] s1]; [done|]. eauto.
Qed.

Lemma fw_result_shape key limit window now (db db' : redis) res :
  FixedWindow.check key limit window now db = (inr res, db') →
  0 ≤ CheckResult.remaining res
  ∧ (CheckResult.allowed res = false ↔ is_Some (CheckResult.retryAfter res)).
Proof.
  unfold FixedWindow.check.
  intros ([allowed count] & db1 & Hs & [= <- _])%bind_inv. simpl.
  split; [lia|].
  assert (allowed = 0 ∨ allowed = 1) as [-> | ->].
  { unfold FixedWindow.script in Hs.
    apply bind_inv in Hs as (v & d1 & _ & Hs).
    apply bind_inv in Hs as (c & d2 & _ & Hs).
    destruct (c <? limit).
    - apply bind_inv in Hs as (n & d3 & _ & Hs).
      apply bind_inv in Hs as (u & d4 & _ & [= <- _ _]). by right.
    - injection Hs as <- _ _. by left. }
  - simpl. split; [by eauto | done].
  - simpl. split; [done | by intros [? ?]].
Qed.

Lemma sw_result_shape key limit window now (db db' : redis) res :
  SlidingWindow.check key limit window now db = (inr res, db') →
  0 ≤ CheckResult.remaining res
  ∧ (CheckResult.allowed res = false ↔ is_Some (CheckResult.retryAfter res)).
Proof.
  unfold SlidingWindow.check.
  intros ([[allowed estimated] count] & db1 & Hs & [= <- _])%bind_inv. simpl.
  split; [lia|].
  assert (allowed = 0 ∨ allowed = 1) as [-> | ->].
  { unfold SlidingWindow.script in Hs.
    apply bind_inv in Hs as (v & d1 & _ & Hs).
    apply bind_inv in Hs as (c & d2 & _ & Hs).
    apply bind_inv in Hs as (v' & d3 & _ & Hs).
    apply bind_inv in Hs as (p & d4 & _ & Hs).
    destruct (Qlt_bool _ _).
    - apply bind_inv in Hs as (n & d5 & _ & Hs).
      apply bind_inv in Hs as (u & d6 & _ & [= <- _ _]). by right.
    - injection Hs as <- _ _. by left. }
  - simpl. split; [by eauto | done].
  - simpl. split; [done | by intros [? ?]].
Qed.

Lemma tb_result_shape key limit window now (db db' : redis) res :
  TokenBucket.check key limit window now db = (inr res, db') →
  CheckResult.allowed res = false ↔ is_Some (CheckResult.retryAfter res).
Proof.
  unfold TokenBucket.check.
  intros ([[allowed remaining] tokens] & db1 & Hs & [= <- _])%bind_inv. simpl.
  assert (allowed = 0 ∨ allowed = 1) as [-> | ->].
  { unfold TokenBucket.script in Hs.
    apply bind_inv in Hs as ([[t u]|] & d1 & _ & Hs);
      destruct (Qle_bool 1 _);
      apply bind_inv in Hs as (v & d2 & _ & Hs);
      apply bind_inv in Hs as (w & d3 & _ & [= <- _ _]); auto. }
  - simpl. split; [by eauto | done].
  - simpl. split; [done | by intros [? ?]].
Qed.

(** What holds of every result: [retryAfter] is present exactly on a denial,
    for the three limiters; [remaining] is never negative for the fixed and
    the sliding window, and for the token bucket when the stored stamp is not
    ahead of [now] and the stored amount is not negative. *)
Lemma check_result_shape algorithm key limit window now (db db' : redis) res :
  0 < limit → 0 < window →
  AlgorithmFactory.get algorithm key limit window now db = (inr res, db') →
  (CheckResult.allowed res = false ↔ is_Some (CheckResult.retryAfter res))
  ∧ (CheckResult.allowed res = true → CheckResult.retryAfter res = None)
  ∧ (algorithm ≠ token_bucket ∨ tb_ok key limit now db →
     0 ≤ CheckResult.remaining res).
Proof.
  intros HL HW Hck.
  assert (Hiff : CheckResult.allowed res = false
                 ↔ is_Some (CheckResult.retryAfter res)).
  { destruct algorithm; simpl in Hck.
    - by eapply tb_result_shape.
    - by eapply fw_result_shape.
    - by eapply sw_result_shape. }
  split; [exact Hiff|]. split.
  - intros Ha. destruct (CheckResult.retryAfter res) eqn:E; [|done].
    assert (CheckResult.allowed res = false) by (apply Hiff; by eexists).
    congruence.
  - intros Hcase. destruct algorithm; simpl in Hck.
    + destruct Hcase as [?|Hok]; [done|].
      destruct (tb_check_keeps_bounds key limit window now db HL HW Hok)
        as (res' & tok & d & Hck' & _ & _ & Hrem).
      rewrite Hck in Hck'. injection Hck' as -> _. lia.
    + by eapply fw_result_shape.
    + by eapply sw_result_shape.
Qed.

Lemma check_result_shape_witness :
  (0 < 3 ∧ 0 < 60
   ∧ AlgorithmFactory.get sliding_window "user:1" 3 60 1000 ∅
     = (inr (CheckResult.Build true 3 3 60000 None 0),
        {[ SlidingWindow.windowKey "user:1" 0 := Entry (VInt 1) (Some 121000) ]}))
  ∧ 0 ≤ CheckResult.remaining (CheckResult.Build true 3 3 60000 None 0).
Proof.
  assert (H1 : 0 < 3) by lia.
  assert (H2 : 0 < 60) by lia.
  assert (H3 : AlgorithmFactory.get sliding_window "user:1" 3 60 1000 ∅
     = (inr (CheckResult.Build true 3 3 60000 None 0),
        {[ SlidingWindow.windowKey "user:1" 0 := Entry (VInt 1) (Some 121000) ]}))
    by (vm_compute; reflexivity).
  split; [by repeat split|].
  refine (proj2 (proj2 (check_result_shape sliding_window "user:1" 3 60 1000
                          ∅ _ _ H1 H2 H3)) _).
  left. discriminate.
Defined.

(** ** The token bucket under a clock that steps back *)

(** C9, evaluated where it fails.  Limit 1 per window of 1 second, fresh
    bucket.  A first check stamped 1700000005000 is allowed and leaves 0
    tokens.  A second check stamped 1700000000000 (five seconds earlier, as read
    by a service instance whose clock is behind, or after the clock was set
    back) computes [elapsed = −5], refills to [min(1, 0 − 5) = −5], is denied,
    and returns [remaining = −5]. *)
Theorem token_bucket_remaining_negative :
  let first := TokenBucket.check "user:1" 1 1 1700000005000 ∅ in
  let second := TokenBucket.check "user:1" 1 1 1700000000000 (snd first) in
  outcome_allowed first = Some true
  ∧ outcome_remaining first = Some 0
  ∧ outcome_allowed second = Some false
  ∧ outcome_remaining second = Some (-5).
Proof. by vm_compute. Qed.

(** C10, evaluated where it fails: along the same two checks the stored
    amount ends at −5 tokens, outside [0, limit], and the result that goes with
    it carries a negative [remaining]. *)
Theorem token_bucket_tokens_negative :
  let run := trace (TokenBucket.check "user:1" 1 1)
                   [1700000005000; 1700000000000] ∅ in
  outcome_remaining <$> run = [Some 0; Some (-5)]
  ∧ ∃ tokens,
      (stored_tokens "user:1" ∘ snd) <$> run !! 1%nat = Some (Some tokens)
      ∧ (tokens == -5)%Q
      ∧ ¬ (0 <= tokens)%Q.
Proof.
  split; [by vm_compute|].
  eexists. split; [vm_compute; reflexivity|]. split; by vm_compute.
Qed.

(** * Further properties *)

(** ** Retry hints *)

Lemma ceil_div_bounds a b : 0 < b → a ≤ b * ceil_div a b < a + b.
Proof.
  intros Hb. unfold ceil_div.
  set (q := (inject_Z a / inject_Z b)%Q).
  assert (Hb' : (0 < inject_Z b)%Q).
  { change 0%Q with (inject_Z 0). by rewrite <- Zlt_Qlt. }
  assert (Hq : (q * inject_Z b == inject_Z a)%Q).
  { subst q. field. intros E. rewrite E in Hb'. by apply Qlt_irrefl in Hb'. }
  pose proof (Qle_ceiling q) as H1.
  pose proof (Qceiling_lt q) as H2.
  unfold Z.sub in H2. rewrite inject_Z_plus in H2.
  change (inject_Z (- (1))) with (-1)%Q in H2.
  rewrite Zle_Qle, Zlt_Qlt, inject_Z_plus, inject_Z_mult, <- Hq.
  clearbody q. clear Hq. split; nra.
Qed.

(** The fields of a fixed-window result that depend on the clock alone. *)
Lemma fw_check_fields key limit window now (db db' : redis) res :
  FixedWindow.check key limit window now db = (inr res, db') →
  CheckResult.resetAt res = FixedWindow.windowStart window now + window * 1000
  ∧ CheckResult.retryAfter res
    = if CheckResult.allowed res then None
      else Some (ceil_div (CheckResult.resetAt res - now) 1000).
Proof.
  unfold FixedWindow.check.
  intros ([allowed count] & db1 & Hs & [= <- _])%bind_inv. simpl.
  split; [done|].
  assert (allowed = 0 ∨ allowed = 1) as [-> | ->]; [|done..].
  unfold FixedWindow.script in Hs.
  apply bind_inv in Hs as (v & d1 & _ & Hs).
  apply bind_inv in Hs as (c & d2 & _ & Hs).
  destruct (c <? limit).
  - apply bind_inv in Hs as (n & d3 & _ & Hs).
    apply bind_inv in Hs as (u & d4 & _ & [= <- _ _]). by right.
  - injection Hs as <- _ _. by left.
Qed.

Lemma sw_check_fields key limit window now (db db' : redis) res :
  SlidingWindow.check key limit window now db = (inr res, db') →
  CheckResult.resetAt res = SlidingWindow.currentWindow window now + window * 1000
  ∧ CheckResult.retryAfter res
    = if CheckResult.allowed res then None
      else Some (ceil_div (CheckResult.resetAt res - now) 1000).
Proof.
  unfold SlidingWindow.check.
  intros ([[allowed estimated] count] & db1 & Hs & [= <- _])%bind_inv. simpl.
  split; [done|].
  assert (allowed = 0 ∨ allowed = 1) as [-> | ->]; [|done..].
  unfold SlidingWindow.script in Hs.
  apply bind_inv in Hs as (v & d1 & _ & Hs).
  apply bind_inv in Hs as (c & d2 & _ & Hs).
  apply bind_inv in Hs as (v' & d3 & _ & Hs).
  apply bind_inv in Hs as (p & d4 & _ & Hs).
  destruct (Qlt_bool _ _).
  - apply bind_inv in Hs as (n & d5 & _ & Hs).
    apply bind_inv in Hs as (u & d6 & _ & [= <- _ _]). by right.
  - injection Hs as <- _ _. by left.
Qed.

(** A token-bucket check that returns has read a bucket or none at all. *)
Lemma tb_check_read key limit window now (db db' : redis) res :
  TokenBucket.check key limit window now db = (inr res, db') →
  ∃ tokens last_update,
    tb_read limit now (Redis.fetch now db (TokenBucket.redisKey key))
    = Some (tokens, last_update).
Proof.
  unfold TokenBucket.check.
  intros ([[allowed remaining] tokens] & db1 & Hs & _)%bind_inv.
  unfold TokenBucket.script in Hs.
  apply bind_inv in Hs as (bucket & d1 & Hget & _).
  unfold Redis.HMGET in Hget. unfold tb_read.
  destruct (Redis.fetch now db (TokenBucket.redisKey key)) as [[v ex]|];
    [|by eauto].
  destruct v; simpl in Hget; try done. by eauto.
Qed.

Lemma window_reset_bounds window now r :
  0 < window →
  r = ceil_div (now / (window * 1000) * (window * 1000) + window * 1000 - now) 1000 →
  1 ≤ r ≤ window.
Proof.
  intros HW ->.
  pose proof (window_bounds window now HW) as Hb.
  set (a := now / (window * 1000) * (window * 1000) + window * 1000 - now) in *.
  pose proof (ceil_div_bounds a 1000 ltac:(lia)). lia.
Qed.

Lemma rate_pos limit window :
  0 < limit → 0 < window → (0 < inject_Z limit / inject_Z window)%Q.
Proof.
  intros HL HW. apply Qlt_shift_div_l.
  - change 0%Q with (inject_Z 0). by rewrite <- Zlt_Qlt.
  - rewrite Qmult_0_l. change 0%Q with (inject_Z 0). by rewrite <- Zlt_Qlt.
Qed.

(** The reply of a script for an amount below one token is not positive. *)
Lemma integer_reply_below_1 (x : Q) : (x < 1)%Q → Redis.integer_reply x ≤ 0.
Proof.
  unfold Qlt, Redis.integer_reply. simpl. intros Hx.
  destruct (Z.le_gt_cases 0 (Qnum x)) as [Hn|Hn].
  - rewrite Z.quot_small; lia.
  - change 0 with (0 ÷ Z.pos (Qden x)). apply Z.quot_le_mono; lia.
Qed.

(** The hint of a refused token-bucket check, from what the script read. *)
Lemma tb_denied_hint key limit window now (db db' : redis) res :
  TokenBucket.check key limit window now db = (inr res, db') →
  CheckResult.allowed res = false →
  ∃ tokens last_update,
    tb_read limit now (Redis.fetch now db (TokenBucket.redisKey key))
    = Some (tokens, last_update)
    ∧ (tb_refill limit window tokens last_update now < 1)%Q
    ∧ CheckResult.retryAfter res
      = Some (Qceiling
                ((1 - inject_Z (Redis.integer_reply
                                  (tb_refill limit window tokens last_update now)))
                 / (inject_Z limit / inject_Z window))%Q).
Proof.
  intros Hck Hden.
  destruct (tb_check_read _ _ _ _ _ _ _ Hck) as (tokens & lu & Hread).
  pose proof (tb_check_eq key limit window now db tokens lu Hread) as Heq.
  cbv zeta in Heq. rewrite Hck in Heq. injection Heq as -> _.
  simpl in Hden. exists tokens, lu. split; [done|]. simpl. rewrite Hden.
  split; [|done].
  apply Qnot_le_lt. intros Hle. apply Qle_bool_iff in Hle. congruence.
Qed.

(** A denial carries a hint of at least one second. *)
Lemma retry_hint_positive algorithm key limit window now (db db' : redis) res :
  0 < limit → 0 < window →
  AlgorithmFactory.get algorithm key limit window now db = (inr res, db') →
  CheckResult.allowed res = false →
  ∃ r, CheckResult.retryAfter res = Some r ∧ 1 ≤ r.
Proof.
  intros HL HW Hck Hden.
  destruct algorithm; simpl in Hck.
  - destruct (tb_denied_hint _ _ _ _ _ _ _ Hck Hden)
      as (tokens & lu & _ & Hlt & Hretry).
    set (refilled := tb_refill limit window tokens lu now) in *.
    pose proof (rate_pos limit window HL HW) as Hrate.
    set (rate := (inject_Z limit / inject_Z window)%Q) in *.
    eexists. split; [exact Hretry|].
    pose proof (integer_reply_below_1 refilled Hlt) as Hk.
    set (k := Redis.integer_reply refilled) in *.
    assert (Hk' : (inject_Z k <= 0)%Q)
      by (change 0%Q with (inject_Z 0); by rewrite <- Zle_Qle).
    assert (Hx : (0 < (1 - inject_Z k) / rate)%Q).
    { apply Qlt_shift_div_l; [done|]. lra. }
    pose proof (Qle_ceiling ((1 - inject_Z k) / rate)) as Hc.
    assert (H0 : (inject_Z 0 < inject_Z (Qceiling ((1 - inject_Z k) / rate)))%Q).
    { eapply Qlt_le_trans; [exact Hx | exact Hc]. }
    rewrite <- Zlt_Qlt in H0. lia.
  - destruct (fw_check_fields _ _ _ _ _ _ _ Hck) as [Hreset Hretry].
    rewrite Hden in Hretry. eexists. split; [exact Hretry|].
    rewrite Hreset. unfold FixedWindow.windowStart.
    pose proof (window_reset_bounds window now _ HW eq_refl). lia.
  - destruct (sw_check_fields _ _ _ _ _ _ _ Hck) as [Hreset Hretry].
    rewrite Hden in Hretry. eexists. split; [exact Hretry|].
    rewrite Hreset. unfold SlidingWindow.currentWindow.
    pose proof (window_reset_bounds window now _ HW eq_refl). lia.
Qed.

(** X1. A denial of any of the three limiters carries a retry hint of at
    least one second.  For the fixed and the sliding window, when the window
    ends within the range of dates, the hint is at most [window] seconds:
    it is the time to the end of the window, rounded up to seconds. *)
Theorem denied_retryAfter_bounds
    algorithm key limit window now (db db' : redis) res :
  0 < limit → 0 < window →
  0 ≤ now → now + window * 1000 ≤ 8640000000000000 →
  AlgorithmFactory.get algorithm key limit window now db = (inr res, db') →
  CheckResult.allowed res = false →
  ∃ r, CheckResult.retryAfter res = Some r
       ∧ 1 ≤ r
       ∧ (algorithm ≠ token_bucket →
          r ≤ window
          ∧ CheckResult.resetAt res - now ≤ r * 1000
            < CheckResult.resetAt res - now + 1000).
Proof.
  intros HL HW Hnow Hend Hck Hden.
  destruct (retry_hint_positive _ _ _ _ _ _ _ _ HL HW Hck Hden) as (r & Hr & Hr1).
  exists r. split; [done|]. split; [done|].
  destruct algorithm; simpl in Hck.
  - done.
  - intros _.
    destruct (fw_check_fields _ _ _ _ _ _ _ Hck) as [Hreset Hretry].
    rewrite Hden, Hr in Hretry. injection Hretry as ->.
    pose proof (ceil_div_bounds (CheckResult.resetAt res - now) 1000 ltac:(lia)).
    split; [|lia].
    rewrite Hreset. unfold FixedWindow.windowStart.
    pose proof (window_reset_bounds window now _ HW eq_refl). lia.
  - intros _.
    destruct (sw_check_fields _ _ _ _ _ _ _ Hck) as [Hreset Hretry].
    rewrite Hden, Hr in Hretry. injection Hretry as ->.
    pose proof (ceil_div_bounds (CheckResult.resetAt res - now) 1000 ltac:(lia)).
    split; [|lia].
    rewrite Hreset. unfold SlidingWindow.currentWindow.
    pose proof (window_reset_bounds window now _ HW eq_refl). lia.
Qed.

Lemma denied_retryAfter_bounds_witness :
  let db : redis :=
    {[ FixedWindow.redisKey "user:1" 0 := Entry (VInt 2) (Some 61000) ]} in
  let res := CheckResult.Build false 2 0 60000 (Some 59) 2 in
  (0 < 2 ∧ 0 < 60 ∧ 0 ≤ 1000 ∧ 1000 + 60 * 1000 ≤ 8640000000000000
   ∧ AlgorithmFactory.get fixed_window "user:1" 2 60 1000 db = (inr res, db)
   ∧ CheckResult.allowed res = false)
  ∧ ∃ r, CheckResult.retryAfter res = Some r
         ∧ 1 ≤ r
         ∧ (fixed_window ≠ token_bucket →
            r ≤ 60
            ∧ CheckResult.resetAt res - 1000 ≤ r * 1000
              < CheckResult.resetAt res - 1000 + 1000).
Proof.
  intros db res.
  assert (H1 : 0 < 2) by lia.
  assert (H2 : 0 < 60) by lia.
  assert (H5 : 0 ≤ 1000) by lia.
  assert (H6 : 1000 + 60 * 1000 ≤ 8640000000000000) by lia.
  assert (H3 : AlgorithmFactory.get fixed_window "user:1" 2 60 1000 db
               = (inr res, db)) by (vm_compute; reflexivity).
  assert (H4 : CheckResult.allowed res = false) by reflexivity.
  split; [by repeat split|].
  exact (denied_retryAfter_bounds fixed_window "user:1" 2 60 1000 db db res
           H1 H2 H5 H6 H3 H4).
Defined.

(** ** Fixed window across a boundary *)



(** X3. Fixed window: the retry hint of a denial is enough.  The instant
    [retryAfter] seconds after a denied check lies at or after [resetAt], less
    than a second past it, hence in a later window; the denial wrote nothing,
    so when nothing is counted yet for that window the check made then is
    allowed. *)
Theorem fixed_window_retry_allowed
    key L W now (db db' : redis) res r :
  0 < L → 0 < W →
  FixedWindow.check key L W now db = (inr res, db') →
  CheckResult.retryAfter res = Some r →
  db !! FixedWindow.redisKey key (FixedWindow.windowStart W (now + r * 1000))
    = None →
  (CheckResult.resetAt res ≤ now + r * 1000 < CheckResult.resetAt res + 1000)
  ∧ ∃ res2 db2,
      FixedWindow.check key L W (now + r * 1000) db' = (inr res2, db2)
      ∧ CheckResult.allowed res2 = true.
Proof.
  intros HL HW Hck Hr Hnone.
  destruct (fw_check_fields _ _ _ _ _ _ _ Hck) as [Hreset Hretry].
  rewrite Hr in Hretry.
  destruct (CheckResult.allowed res) eqn:Hall; [done|].
  injection Hretry as ->.
  pose proof (fw_denied_no_write _ _ _ _ _ _ _ Hck Hall) as ->.
  split.
  - pose proof (ceil_div_bounds (CheckResult.resetAt res - now) 1000
                  ltac:(lia)). lia.
  - set (later := now + _) in *.
    assert (Hinv : fw_inv key W (FixedWindow.windowStart W later) 0 db)
      by (left; done).
    destruct (fw_check_allows key L W HL HW _ 0 db later eq_refl Hinv HL)
      as (db2 & Hck2 & _).
    eexists _, _. split; [exact Hck2 | done].
Qed.

Lemma fixed_window_retry_allowed_witness :
  let db : redis :=
    {[ FixedWindow.redisKey "user:1" 0 := Entry (VInt 2) (Some 61500) ]} in
  let res := CheckResult.Build false 2 0 60000 (Some 59) 2 in
  (0 < 2 ∧ 0 < 60
   ∧ FixedWindow.check "user:1" 2 60 1500 db = (inr res, db)
   ∧ CheckResult.retryAfter res = Some 59
   ∧ db !! FixedWindow.redisKey "user:1"
             (FixedWindow.windowStart 60 (1500 + 59 * 1000)) = None)
  ∧ ∃ res2 db2,
      FixedWindow.check "user:1" 2 60 (1500 + 59 * 1000) db = (inr res2, db2)
      ∧ CheckResult.allowed res2 = true.
Proof.
  intros db res.
  assert (H1 : 0 < 2) by lia.
  assert (H2 : 0 < 60) by lia.
  assert (H3 : FixedWindow.check "user:1" 2 60 1500 db = (inr res, db))
    by (vm_compute; reflexivity).
  assert (H4 : CheckResult.retryAfter res = Some 59) by reflexivity.
  assert (H5 : db !! FixedWindow.redisKey "user:1"
                       (FixedWindow.windowStart 60 (1500 + 59 * 1000)) = None)
    by (vm_compute; reflexivity).
  split; [by repeat split|].
  exact (proj2 (fixed_window_retry_allowed "user:1" 2 60 1500 db db res 59
                  H1 H2 H3 H4 H5)).
Defined.

(** ** Sliding window *)


Lemma counter_at_count k c until (db : redis) now :
  counter_at k c until db → now < until → count_at now db k = Some c.
Proof.
  unfold counter_at, count_at, Redis.fetch, Redis.alive.
  intros [[-> ->] | (ex & -> & Hex)] Hnow; [done|]. simpl.
  destruct ex as [d|]; [|done].
  assert ((now <? d) = true) as -> by (apply Z.ltb_lt; lia). done.
Qed.

(** The sliding-window check as a function of the two counts it reads. *)
Lemma sw_check_eq key limit window now (db : redis) c p :
  let currentWindow := SlidingWindow.currentWindow window now in
  let currentKey := SlidingWindow.windowKey key currentWindow in
  let previousKey := SlidingWindow.windowKey key (currentWindow - window * 1000) in
  count_at now db currentKey = Some c →
  count_at now db previousKey = Some p →
  let elapsed := (inject_Z (now - currentWindow) / inject_Z (window * 1000))%Q in
  let estimated := (inject_Z p * (1 - elapsed) + inject_Z c)%Q in
  SlidingWindow.check key limit window now db
  = if Qlt_bool estimated (inject_Z limit)
    then (inr {| CheckResult.allowed := true;
                 CheckResult.limit := limit;
                 CheckResult.remaining := Z.max 0 (limit - Qfloor estimated);
                 CheckResult.resetAt := currentWindow + window * 1000;
                 CheckResult.retryAfter := None;
                 CheckResult.currentUsage := Qfloor estimated |},
          <[currentKey := Entry (VInt (c + 1))
                                (Some (now + window * 2 * 1000))]> db)
    else (inr {| CheckResult.allowed := false;
                 CheckResult.limit := limit;
                 CheckResult.remaining := Z.max 0 (limit - Qfloor estimated);
                 CheckResult.resetAt := currentWindow + window * 1000;
                 CheckResult.retryAfter :=
                   Some (ceil_div (currentWindow + window * 1000 - now) 1000);
                 CheckResult.currentUsage := Qfloor estimated |},
          db).
Proof.
  intros currentWindow currentKey previousKey Hc Hp elapsed estimated.
  destruct (GET_count _ _ _ _ Hc) as (vc & Hgc & Hvc).
  destruct (GET_count _ _ _ _ Hp) as (vp & Hgp & Hvp).
  destruct (INCR_count _ _ _ _ Hc) as (ex & Hincr & Ha).
  assert (Hscript :
    SlidingWindow.script now currentKey previousKey limit window now
      currentWindow db
    = if Qlt_bool estimated (inject_Z limit)
      then (inr (1, Qfloor estimated, c + 1),
            <[currentKey := Entry (VInt (c + 1))
                                  (Some (now + window * 2 * 1000))]> db)
      else (inr (0, Qfloor estimated, c), db)).
  { unfold SlidingWindow.script.
    erewrite bind_inr; [|exact Hgc]. rewrite Hvc.
    erewrite bind_inr; [|reflexivity].
    erewrite bind_inr; [|exact Hgp]. rewrite Hvp.
    erewrite bind_inr; [|reflexivity].
    fold elapsed. fold estimated.
    destruct (Qlt_bool estimated (inject_Z limit)); [|reflexivity].
    erewrite bind_inr; [|exact Hincr].
    erewrite bind_inr; [|by apply EXPIRE_insert]. reflexivity. }
  unfold SlidingWindow.check.
  fold currentWindow. fold currentKey. fold previousKey.
  destruct (Qlt_bool estimated (inject_Z limit));
    (erewrite bind_inr; [|exact Hscript]); reflexivity.
Qed.


Lemma Qlt_bool_false (x y : Q) : Qlt_bool x y = false ↔ (y <= x)%Q.
Proof.
  unfold Qlt_bool. rewrite negb_false_iff. apply Qle_bool_iff.
Qed.

Lemma window_start_next W now :
  0 < W →
  SlidingWindow.currentWindow W (SlidingWindow.currentWindow W now + W * 1000)
  = SlidingWindow.currentWindow W now + W * 1000.
Proof.
  intros HW. unfold SlidingWindow.currentWindow.
  set (q := now / (W * 1000)).
  replace (q * (W * 1000) + W * 1000) with ((q + 1) * (W * 1000)) by lia.
  rewrite Z.div_mul; [done | lia].
Qed.

(** X5. Sliding window: the retry hint of a denial can be too short.  Let the
    current window hold [limit] admissions or more, and let a check be
    denied at an instant that is a whole number of seconds, this window and
    the next one lying within the range of dates.  Its hint
    [retryAfter] then points exactly at [resetAt], the start of the next
    window, where the full count of the window just ended still weighs in
    with factor 1: the check made [retryAfter] seconds later is denied again. *)
Theorem sliding_window_retry_denied_again
    key L W now c p ex (db : redis) :
  0 < L → 0 < W →
  let ws := SlidingWindow.currentWindow W now in
  0 ≤ now → ws + 2 * (W * 1000) ≤ 8640000000000000 →
  db !! SlidingWindow.windowKey key ws = Some (Entry (VInt c) ex) →
  match ex with Some d => ws + W * 1000 < d | None => True end →
  L ≤ c →
  count_at now db (SlidingWindow.windowKey key (ws - W * 1000)) = Some p →
  0 ≤ p →
  db !! SlidingWindow.windowKey key (ws + W * 1000) = None →
  now mod 1000 = 0 →
  ∃ r res1 res2,
    SlidingWindow.check key L W now db = (inr res1, db)
    ∧ CheckResult.allowed res1 = false
    ∧ CheckResult.retryAfter res1 = Some r
    ∧ now + r * 1000 = CheckResult.resetAt res1
    ∧ SlidingWindow.check key L W (now + r * 1000) db = (inr res2, db)
    ∧ CheckResult.allowed res2 = false.
Proof.
  intros HL HW ws Hnow Hend Hcur Hex Hc Hp Hp0 Hnext Hsec.
  pose proof (window_bounds W now HW) as Hb.
  pose proof (window_elapsed W now HW) as He. cbv zeta in He.
  fold ws in He. change (now / (W * 1000) * (W * 1000)) with ws in Hb.
  assert (Hcount : count_at now db (SlidingWindow.windowKey key ws) = Some c).
  { apply (counter_at_count _ _ (ws + W * 1000)); [|lia].
    right. exists ex. split; [done|]. destruct ex; [lia | done]. }
  pose proof (sw_check_eq key L W now db c p Hcount Hp) as H1.
  cbv zeta in H1. fold ws in H1.
  set (elapsed := (inject_Z (now - ws) / inject_Z (W * 1000))%Q) in *.
  assert (Hden1 : Qlt_bool (inject_Z p * (1 - elapsed) + inject_Z c)
                           (inject_Z L) = false).
  { apply Qlt_bool_false.
    assert ((0 <= inject_Z p)%Q) by by apply inject_Z_nonneg.
    assert ((inject_Z L <= inject_Z c)%Q) by by rewrite <- Zle_Qle.
    nra. }
  rewrite Hden1 in H1.
  set (r := ceil_div (ws + W * 1000 - now) 1000) in *.
  assert (Hr : now + r * 1000 = ws + W * 1000).
  { pose proof (ceil_div_bounds (ws + W * 1000 - now) 1000 ltac:(lia)) as Hcd.
    fold r in Hcd.
    assert (Hws : ws = 1000 * (now / (W * 1000) * W))
      by (unfold ws, SlidingWindow.currentWindow; lia).
    pose proof (Z.div_mod now 1000 ltac:(lia)) as Hn. rewrite Hsec in Hn.
    set (m := now / (W * 1000) * W) in *. set (n := now / 1000) in *.
    clearbody m n r. lia. }
  assert (Hcw2 : SlidingWindow.currentWindow W (now + r * 1000) = ws + W * 1000).
  { rewrite Hr. by apply window_start_next. }
  assert (Hc2 : count_at (now + r * 1000) db
                  (SlidingWindow.windowKey key (ws + W * 1000)) = Some 0).
  { unfold count_at. by rewrite fetch_None. }
  assert (Hp2 : count_at (now + r * 1000) db
                  (SlidingWindow.windowKey key (ws + W * 1000 - W * 1000))
                = Some c).
  { replace (ws + W * 1000 - W * 1000) with ws by lia.
    apply (counter_at_count _ _ (ws + W * 1000 + 1)); [|lia].
    right. exists ex. split; [done|]. destruct ex; [lia | done]. }
  rewrite <- Hcw2 in Hc2, Hp2.
  pose proof (sw_check_eq key L W (now + r * 1000) db 0 c Hc2 Hp2) as H2.
  cbv zeta in H2.
  assert (Hden2 :
    Qlt_bool (inject_Z c * (1 - inject_Z (now + r * 1000
                 - SlidingWindow.currentWindow W (now + r * 1000))
               / inject_Z (W * 1000)) + inject_Z 0) (inject_Z L) = false).
  { apply Qlt_bool_false. rewrite Hcw2, Hr, Z.sub_diag.
    assert ((inject_Z L <= inject_Z c)%Q) by by rewrite <- Zle_Qle.
    change (inject_Z 0) with 0%Q.
    assert (E : (0 / inject_Z (W * 1000) == 0)%Q) by (unfold Qdiv; ring).
    rewrite E. lra. }
  rewrite Hden2 in H2.
  eexists r, _, _. split; [exact H1|].
  split; [done|]. split; [done|]. split; [exact Hr|].
  split; [exact H2 | done].
Qed.
Lemma sliding_window_retry_denied_again_witness :
  let db : redis :=
    {[ SlidingWindow.windowKey "user:1" 0 := Entry (VInt 2) (Some 150000) ]} in
  (0 < 2 ∧ 0 < 60
   ∧ 0 ≤ 30000
   ∧ SlidingWindow.currentWindow 60 30000 + 2 * (60 * 1000) ≤ 8640000000000000
   ∧ db !! SlidingWindow.windowKey "user:1"
             (SlidingWindow.currentWindow 60 30000)
     = Some (Entry (VInt 2) (Some 150000))
   ∧ SlidingWindow.currentWindow 60 30000 + 60 * 1000 < 150000
   ∧ 2 ≤ 2
   ∧ count_at 30000 db
       (SlidingWindow.windowKey "user:1"
          (SlidingWindow.currentWindow 60 30000 - 60 * 1000)) = Some 0
   ∧ 0 ≤ 0
   ∧ db !! SlidingWindow.windowKey "user:1"
             (SlidingWindow.currentWindow 60 30000 + 60 * 1000) = None
   ∧ 30000 mod 1000 = 0)
  ∧ ∃ r res1 res2,
      SlidingWindow.check "user:1" 2 60 30000 db = (inr res1, db)
      ∧ CheckResult.allowed res1 = false
      ∧ CheckResult.retryAfter res1 = Some r
      ∧ 30000 + r * 1000 = CheckResult.resetAt res1
      ∧ SlidingWindow.check "user:1" 2 60 (30000 + r * 1000) db = (inr res2, db)
      ∧ CheckResult.allowed res2 = false.
Proof.
  intros db.
  assert (H1 : 0 < 2) by lia.
  assert (H2 : 0 < 60) by lia.
  assert (H3 : db !! SlidingWindow.windowKey "user:1"
                       (SlidingWindow.currentWindow 60 30000)
               = Some (Entry (VInt 2) (Some 150000)))
    by (vm_compute; reflexivity).
  assert (H4 : SlidingWindow.currentWindow 60 30000 + 60 * 1000 < 150000)
    by (vm_compute; reflexivity).
  assert (H5 : 2 ≤ 2) by lia.
  assert (H6 : count_at 30000 db
       (SlidingWindow.windowKey "user:1"
          (SlidingWindow.currentWindow 60 30000 - 60 * 1000)) = Some 0)
    by (vm_compute; reflexivity).
  assert (H7 : 0 ≤ 0) by lia.
  assert (H8 : db !! SlidingWindow.windowKey "user:1"
                       (SlidingWindow.currentWindow 60 30000 + 60 * 1000) = None)
    by (vm_compute; reflexivity).
  assert (H9 : 30000 mod 1000 = 0) by reflexivity.
  assert (H10 : 0 ≤ 30000) by lia.
  assert (H11 : SlidingWindow.currentWindow 60 30000 + 2 * (60 * 1000)
                ≤ 8640000000000000) by (vm_compute; discriminate).
  split; [by repeat split|].
  exact (sliding_window_retry_denied_again "user:1" 2 60 30000 2 0
           (Some 150000) db H1 H2 H10 H11 H3 H4 H5 H6 H7 H8 H9).
Defined.

Section SlidingWindowRun.
Context (key : string) (L W : Z) (HW : 0 < W) (ws : Z).

Let currentKey := SlidingWindow.windowKey key ws.
Let previousKey := SlidingWindow.windowKey key (ws - W * 1000).



End SlidingWindowRun.

(** ** Failing checks *)

Lemma read_count_ok {B} clk k (db : redis) c (f : Z → M redis B) :
  count_at clk db k = Some c →
  (v ← Redis.GET clk k;
   n ← Redis.number (match v with
                     | None => Some 0
                     | Some v => Redis.tonumber v
                     end);
   f n) db = f c db.
Proof.
  intros Hc. destruct (GET_count _ _ _ _ Hc) as (v & Hg & Hv).
  erewrite bind_inr; [|exact Hg]. rewrite Hv.
  by erewrite bind_inr.
Qed.

Lemma read_count_fails {B} clk k (db : redis) (f : Z → M redis B) :
  count_at clk db k = None →
  (v ← Redis.GET clk k;
   n ← Redis.number (match v with
                     | None => Some 0
                     | Some v => Redis.tonumber v
                     end);
   f n) db = (inl ReplyError, db).
Proof.
  unfold count_at. intros Hc.
  destruct (Redis.fetch clk db k) as [[[n|s|t u] ex]|] eqn:Hf; try done.
  - erewrite bind_inr; [|unfold Redis.GET; rewrite Hf; reflexivity].
    by erewrite bind_inl.
  - erewrite bind_inl; [done|]. unfold Redis.GET. by rewrite Hf.
Qed.

Lemma fw_script_fails clk k limit window (db db' : redis) e :
  FixedWindow.script clk k limit window db = (inl e, db') → db' = db.
Proof.
  unfold FixedWindow.script. intros H.
  destruct (count_at clk db k) as [c|] eqn:Hc.
  - rewrite (read_count_ok _ _ _ c) in H by done.
    destruct (c <? limit); [|done].
    destruct (INCR_count _ _ _ _ Hc) as (ex & Hincr & Ha).
    erewrite bind_inr in H; [|exact Hincr].
    erewrite bind_inr in H; [|by apply EXPIRE_insert]. done.
  - rewrite read_count_fails in H by done. by injection H.
Qed.

Lemma sw_script_fails clk ck pk limit window now cw (db db' : redis) e :
  SlidingWindow.script clk ck pk limit window now cw db = (inl e, db') → db' = db.
Proof.
  unfold SlidingWindow.script. intros H.
  destruct (count_at clk db ck) as [c|] eqn:Hc.
  - rewrite (read_count_ok _ _ _ c) in H by done.
    destruct (count_at clk db pk) as [p|] eqn:Hp.
    + rewrite (read_count_ok _ _ _ p) in H by done.
      destruct (Qlt_bool _ _); [|done].
      destruct (INCR_count _ _ _ _ Hc) as (ex & Hincr & Ha).
      erewrite bind_inr in H; [|exact Hincr].
      erewrite bind_inr in H; [|by apply EXPIRE_insert]. done.
    + rewrite read_count_fails in H by done. by injection H.
  - rewrite read_count_fails in H by done. by injection H.
Qed.

Lemma tb_check_fails key limit window now (db db' : redis) e :
  TokenBucket.check key limit window now db = (inl e, db') → db' = db.
Proof.
  intros H.
  destruct (tb_read limit now (Redis.fetch now db (TokenBucket.redisKey key)))
    as [[tokens lu]|] eqn:Hread.
  - pose proof (tb_check_eq key limit window now db tokens lu Hread) as Heq.
    cbv zeta in Heq. congruence.
  - unfold TokenBucket.check, TokenBucket.script in H.
    erewrite bind_inl in H; [by injection H|].
    erewrite bind_inl; [done|].
    unfold Redis.HMGET. unfold tb_read in Hread.
    destruct (Redis.fetch now db (TokenBucket.redisKey key)) as [[[n|s|t u] ex]|];
      done.
Qed.

(** A limiter that throws has written nothing. *)
Lemma limiter_fails algorithm key limit window now (db db' : redis) e :
  AlgorithmFactory.get algorithm key limit window now db = (inl e, db') →
  db' = db.
Proof.
  destruct algorithm; simpl.
  - apply tb_check_fails.
  - unfold FixedWindow.check. intros H.
    destruct (FixedWindow.script now
                (FixedWindow.redisKey key (FixedWindow.windowStart window now))
                limit window db) as [[e'|[a n]] db1] eqn:Hs.
    + erewrite bind_inl in H; [|exact Hs]. injection H as _ <-.
      by eapply fw_script_fails.
    + erewrite bind_inr in H; [|exact Hs]. done.
  - unfold SlidingWindow.check. intros H.
    match type of H with
    | (?s ≫= _) db = _ => destruct (s db) as [[e'|[[a n] m]] db1] eqn:Hs
    end.
    + erewrite bind_inl in H; [|exact Hs]. injection H as _ <-.
      by eapply sw_script_fails.
    + erewrite bind_inr in H; [|exact Hs]. done.
Qed.

Lemma keeps_storage_bind {A B} (m : M ServiceState A) (f : A → M ServiceState B) :
  keeps_storage m → (∀ a, keeps_storage (f a)) → keeps_storage (m ≫= f).
Proof.
  intros Hm Hf st. specialize (Hm st).
  unfold mbind, M_bind. destruct (m st) as [[e|a] st1]; simpl in *; [done|].
  rewrite <- Hm. apply Hf.
Qed.

Lemma keeps_storage_ret {A} (a : A) : keeps_storage (mret a).
Proof. by intros st. Qed.

Lemma keeps_storage_throw {A} e : keeps_storage (throw e : M ServiceState A).
Proof. by intros st. Qed.

Lemma getRule_keeps_storage `{Runtime} id clk :
  keeps_storage (RuleService.getRule id clk).
Proof.
  unfold RuleService.getRule.
  apply keeps_storage_bind; [by intros st|]. intros [rule|].
  - apply keeps_storage_ret.
  - apply keeps_storage_bind.
    + intros st. unfold on_storage, Storage.get.
      destruct (Redis.fetch clk (storage st) _) as [[[n|s|t u] ex]|]; done.
    + intros data. destruct (truthy_string data) as [d|];
        [|apply keeps_storage_ret].
      destruct (JSON_parse d) as [[rule|]|].
      * apply keeps_storage_bind; [by intros st|].
        intros _. apply keeps_storage_ret.
      * apply keeps_storage_ret.
      * apply keeps_storage_throw.
Qed.

Lemma resolve_keeps_storage `{Runtime} request now :
  keeps_storage (RateLimiterService.resolve request now).
Proof.
  unfold RateLimiterService.resolve.
  destruct (truthy_string (CheckRequest.ruleId request)) as [ruleId|].
  - apply keeps_storage_bind; [apply getRule_keeps_storage|].
    intros [rule|]; [|apply keeps_storage_throw].
    destruct (negb (Rule.enabled rule));
      [apply keeps_storage_throw | apply keeps_storage_ret].
  - assert (Hfind : keeps_storage
      (matchingRule ← RuleService.findMatchingRule
                        (CheckRequest.key request) (CheckRequest.endpoint request);
       match matchingRule with
       | None => throw RateLimiterService.NoMatchingRule
       | Some matchingRule =>
           mret (Rule.algorithm matchingRule, Rule.limit matchingRule,
                 Rule.window matchingRule)
       end)).
    { apply keeps_storage_bind; [by intros st|].
      intros [r|]; [apply keeps_storage_ret | apply keeps_storage_throw]. }
    destruct (CheckRequest.algorithm request); [|done].
    destruct (truthy_number (CheckRequest.limit request)); [|done].
    destruct (truthy_number (CheckRequest.window request)); [|done].
    apply keeps_storage_ret.
Qed.

(** The two ways of a check: resolution fails, or the limiter runs on the
    store that resolution left. *)
Lemma service_check_cases `{Runtime} request now st :
  (∃ e st1, RateLimiterService.resolve request now st = (inl e, st1)
            ∧ RateLimiterService.check request now st = (inl e, st1))
  ∨ (∃ algorithm limit window st1,
       RateLimiterService.resolve request now st
       = (inr (algorithm, limit, window), st1)
       ∧ RateLimiterService.check request now st
         = on_storage (AlgorithmFactory.get algorithm
                         (RateLimiterService.fullKey request) limit window now)
                      st1).
Proof.
  unfold RateLimiterService.check.
  destruct (RateLimiterService.resolve request now st)
    as [[e|[[algorithm limit] window]] st1] eqn:Hres.
  - left. exists e, st1. split; [done|].
    erewrite bind_inl; [|exact Hres]. done.
  - right. exists algorithm, limit, window, st1. split; [done|].
    erewrite bind_inr; [|exact Hres]. done.
Qed.

Lemma failed_check_storage `{Runtime} request now st e st' :
  RateLimiterService.check request now st = (inl e, st') →
  storage st' = storage st.
Proof.
  intros Hck.
  pose proof (resolve_keeps_storage request now st) as Hkeep.
  destruct (service_check_cases request now st)
    as [(e1 & st1 & Hres & Heq) | (a & l & w & st1 & Hres & Heq)];
    rewrite Hres in Hkeep; simpl in Hkeep; rewrite Heq in Hck.
  - by simplify_eq.
  - unfold on_storage in Hck.
    destruct (AlgorithmFactory.get a _ l w now (storage st1))
      as [[e2|res] db'] eqn:Hlim; [|done].
    apply limiter_fails in Hlim. simplify_eq. simpl. congruence.
Qed.



(** ** The check route *)

Lemma try_catch_inr {S A} (body : M S A) handler s a s' :
  body s = (inr a, s') → try_catch body handler s = (inr a, s').
Proof. intros H. unfold try_catch. by rewrite H. Qed.

Lemma try_catch_inl {S A} (body : M S A) handler s e s' :
  body s = (inl e, s') → try_catch body handler s = handler e s'.
Proof. intros H. unfold try_catch. by rewrite H. Qed.

(** The handler of [POST /v1/check] in terms of the service's [check]. *)
Lemma check_handler_eq `{Runtime} body now st :
  CheckRoute.handler body now st
  = if CheckRequestSchema_ok body then
      match RateLimiterService.check body now st with
      | (inr result, st') =>
          if Z.abs (CheckResult.resetAt result) <=? 8640000000000000 then
            let headers :=
              [("X-RateLimit-Limit", HNumber (CheckResult.limit result));
               ("X-RateLimit-Remaining", HNumber (CheckResult.remaining result));
               ("X-RateLimit-Reset", HDate (CheckResult.resetAt result))] in
            match negb (CheckResult.allowed result),
                  truthy_number (CheckResult.retryAfter result) with
            | true, Some retryAfter =>
                (inr (Reply.Build 429
                        (headers ++ [("Retry-After", HNumber retryAfter)])
                        (CheckLimited result "Rate limit exceeded")), st')
            | _, _ => (inr (Reply.Build 200 headers (CheckOk result)), st')
            end
          else (inr (Reply.Build 400
                       [("X-RateLimit-Limit", HNumber (CheckResult.limit result));
                        ("X-RateLimit-Remaining",
                         HNumber (CheckResult.remaining result))]
                       (CheckError (Error "Invalid time value"))), st')
      | (inl error, st') => (inr (Reply.Build 400 [] (CheckError error)), st')
      end
    else (inr (Reply.Build 400 [] (CheckError ZodError)), st).
Proof.
  unfold CheckRoute.handler, CheckRoute.handle, try_catch.
  unfold mbind, M_bind, mret, M_ret, throw, in_service, reply_header,
    reply_send, toISOString.
  destruct (CheckRequestSchema_ok body); [|reflexivity].
  destruct (RateLimiterService.check body now st) as [[e|result] st'];
    [reflexivity|].
  destruct (Z.abs (CheckResult.resetAt result) <=? 8640000000000000);
    [|reflexivity].
  cbv zeta.
  destruct (negb (CheckResult.allowed result)); [|reflexivity].
  destruct (truthy_number (CheckResult.retryAfter result)); reflexivity.
Qed.

(** The reset instant of a result lies in the window that follows [now]. *)
Lemma limiter_resetAt_bounds algorithm key limit window now (db db' : redis) res :
  0 < window →
  AlgorithmFactory.get algorithm key limit window now db = (inr res, db') →
  now ≤ CheckResult.resetAt res ≤ now + window * 1000.
Proof.
  intros HW Hck. pose proof (window_bounds window now HW) as Hb.
  destruct algorithm; simpl in Hck.
  - destruct (tb_check_read _ _ _ _ _ _ _ Hck) as (tokens & lu & Hread).
    pose proof (tb_check_eq key limit window now db tokens lu Hread) as Heq.
    cbv zeta in Heq. rewrite Hck in Heq. injection Heq as -> _. simpl. lia.
  - destruct (fw_check_fields _ _ _ _ _ _ _ Hck) as [-> _].
    unfold FixedWindow.windowStart. lia.
  - destruct (sw_check_fields _ _ _ _ _ _ _ Hck) as [-> _].
    unfold SlidingWindow.currentWindow. lia.
Qed.

(** X9. [POST /v1/check] with a body that passes the schema, when the limit
    and the window in force are positive and the window ends within the range
    of dates.  The handler always replies.  An allowed check gives status 200
    with the result as body and the three rate-limit headers; a denied check
    gives status 429 with the result and the [error] text as body and a
    fourth header [Retry-After] of at least one second; a check that throws
    gives status 400 with the error, no header, and the store untouched.  In
    the first two cases the state is the one [check] left. *)
Theorem check_route_statuses `{Runtime}
    body now (st st1 : ServiceState) algorithm limit window :
  CheckRequestSchema_ok body = true →
  RateLimiterService.resolve body now st = (inr (algorithm, limit, window), st1) →
  0 < limit → 0 < window →
  0 ≤ now → now + window * 1000 ≤ 8640000000000000 →
  ∃ reply st',
    CheckRoute.handler body now st = (inr reply, st')
    ∧ match Reply.body reply with
      | CheckOk res =>
          RateLimiterService.check body now st = (inr res, st')
          ∧ CheckResult.allowed res = true
          ∧ Reply.status reply = 200
          ∧ Reply.headers reply
            = [("X-RateLimit-Limit", HNumber (CheckResult.limit res));
               ("X-RateLimit-Remaining", HNumber (CheckResult.remaining res));
               ("X-RateLimit-Reset", HDate (CheckResult.resetAt res))]
      | CheckLimited res error =>
          RateLimiterService.check body now st = (inr res, st')
          ∧ CheckResult.allowed res = false
          ∧ Reply.status reply = 429
          ∧ error = "Rate limit exceeded"
          ∧ ∃ r, CheckResult.retryAfter res = Some r ∧ 1 ≤ r
                 ∧ Reply.headers reply
                   = [("X-RateLimit-Limit", HNumber (CheckResult.limit res));
                      ("X-RateLimit-Remaining",
                       HNumber (CheckResult.remaining res));
                      ("X-RateLimit-Reset", HDate (CheckResult.resetAt res));
                      ("Retry-After", HNumber r)]
      | CheckError error =>
          RateLimiterService.check body now st = (inl error, st')
          ∧ Reply.status reply = 400
          ∧ Reply.headers reply = []
          ∧ storage st' = storage st
      end.
Proof.
  intros Hok Hres HL HW Hnow Hend.
  rewrite check_handler_eq, Hok.
  destruct (RateLimiterService.check body now st) as [[e|res] st'] eqn:Hck.
  - eexists _, _. split; [reflexivity|]. simpl.
    split; [done|]. split; [done|]. split; [done|].
    by eapply failed_check_storage.
  - destruct (service_check_cases body now st)
      as [(e1 & st2 & Hres' & Heq) | (a & l & w & st2 & Hres' & Heq)];
      rewrite Hres in Hres'; [done|].
    injection Hres' as <- <- <- <-.
    rewrite Hck in Heq. unfold on_storage in Heq.
    destruct (AlgorithmFactory.get algorithm _ limit window now (storage st1))
      as [[e2|res'] db'] eqn:Hlim; [done|].
    injection Heq as -> ->.
    pose proof (limiter_resetAt_bounds _ _ _ _ _ _ _ _ HW Hlim) as Hreset.
    assert ((Z.abs (CheckResult.resetAt res') <=? 8640000000000000) = true)
      as -> by (apply Z.leb_le; lia).
    cbv zeta.
    destruct (CheckResult.allowed res') eqn:Hall; simpl.
    + eexists _, _. split; [reflexivity|]. simpl. done.
    + destruct (retry_hint_positive _ _ _ _ _ _ _ _ HL HW Hlim Hall)
        as (r & Hr & Hr1).
      rewrite Hr, truthy_number_pos by lia.
      eexists _, _. split; [reflexivity|]. simpl.
      split; [done|]. split; [done|]. split; [done|]. split; [done|].
      exists r. done.
Qed.

Lemma check_route_statuses_witness :
  let body :=
    CheckRequest.Build "user:1" None None (Some fixed_window) (Some 1) (Some 60) in
  let st :=
    State [] {[ FixedWindow.redisKey "user:1" 0 := Entry (VInt 1) (Some 61000) ]} in
  (@CheckRequestSchema_ok example_runtime body = true
   ∧ @RateLimiterService.resolve example_runtime body 1000 st
     = (inr (fixed_window, 1, 60), st)
   ∧ 0 < 1 ∧ 0 < 60 ∧ 0 ≤ 1000 ∧ 1000 + 60 * 1000 ≤ 8640000000000000)
  ∧ ∃ reply st',
      @CheckRoute.handler example_runtime body 1000 st = (inr reply, st')
      ∧ Reply.status reply = 429.
Proof.
  intros body st.
  assert (H1 : @CheckRequestSchema_ok example_runtime body = true)
    by reflexivity.
  assert (H2 : @RateLimiterService.resolve example_runtime body 1000 st
               = (inr (fixed_window, 1, 60), st)) by reflexivity.
  assert (H3 : 0 < 1) by lia.
  assert (H4 : 0 < 60) by lia.
  assert (H5 : 0 ≤ 1000) by lia.
  assert (H6 : 1000 + 60 * 1000 ≤ 8640000000000000) by lia.
  split; [by repeat split|].
  destruct (@check_route_statuses example_runtime body 1000 st st
              fixed_window 1 60 H1 H2 H3 H4 H5 H6) as (reply & st' & Hh & Hb).
  exists reply, st'. split; [exact Hh|].
  assert (Hv : @CheckRoute.handler example_runtime body 1000 st
               = (inr (Reply.Build 429
                         [("X-RateLimit-Limit", HNumber 1);
                          ("X-RateLimit-Remaining", HNumber 0);
                          ("X-RateLimit-Reset", HDate 60000);
                          ("Retry-After", HNumber 59)]
                         (CheckLimited
                            (CheckResult.Build false 1 0 60000 (Some 59) 1)
                            "Rate limit exceeded")), st))
    by (vm_compute; reflexivity).
  rewrite Hv in Hh. by injection Hh as <- _.
Defined.


(** ** Rules: update and delete *)

Lemma getRule_cached `{Runtime} id clk st rule :
  RuleCache.get id (cache st) = Some rule →
  RuleService.getRule id clk st = (inr (Some rule), st).
Proof.
  intros Hget. unfold RuleService.getRule.
  erewrite bind_inr; [|unfold cache_get; rewrite Hget; reflexivity]. done.
Qed.

Lemma getRule_absent `{Runtime} id clk st :
  RuleCache.get id (cache st) = None →
  storage st !! ("rule:" +:+ id) = None →
  RuleService.getRule id clk st = (inr None, st).
Proof.
  intros Hget Hsto. unfold RuleService.getRule.
  erewrite bind_inr; [|unfold cache_get; rewrite Hget; reflexivity].
  cbv beta iota.
  erewrite bind_inr.
  2:{ unfold on_storage, Storage.get. rewrite fetch_None by done. reflexivity. }
  by destruct st.
Qed.

Lemma get_after_delete id (rules : RuleCache.t) :
  RuleCache.get id (snd (RuleCache.delete id rules)) = None.
Proof.
  unfold RuleCache.delete. simpl.
  induction rules as [|[k r] rules IH]; [done|]. simpl.
  destruct (String.eqb id k) eqn:E; simpl; [done|]. by rewrite E.
Qed.


Lemma set_at_fresh k rule (rules : RuleCache.t) :
  RuleCache.get k rules = None →
  RuleCache.set_at k rule rules = rules ++ [(k, rule)].
Proof.
  induction rules as [|[k' r'] rules IH]; simpl; [done|].
  destruct (String.eqb k k'); [done|]. intros Hn. by rewrite IH.
Qed.

Lemma get_set_at k rule (rules : RuleCache.t) :
  RuleCache.get k (RuleCache.set_at k rule rules) = Some rule.
Proof.
  induction rules as [|[k' r'] rules IH]; simpl.
  - by rewrite String.eqb_refl.
  - destruct (String.eqb k k') eqn:E; simpl.
    + by rewrite String.eqb_refl.
    + by rewrite E.
Qed.


(** What a successful [createRule] has done. *)
Lemma createRule_inv `{Runtime} request uuidv4 date1 date2 clk st rule st' :
  RuleService.createRule request uuidv4 date1 date2 clk st = (inr rule, st') →
  RuleSchema_ok rule = true
  ∧ Rule.createdAt rule = Some date1
  ∧ st' = State (RuleCache.set rule (cache st))
                (<["rule:" +:+ Rule.id rule :=
                     Entry (VText (JSON_stringify rule)) None]> (storage st)).
Proof.
  unfold RuleService.createRule. cbv zeta. unfold RuleSchema_parse.
  match goal with |- context [RuleSchema_ok ?r] => set (made := r) end.
  destruct (RuleSchema_ok made) eqn:Hok.
  - erewrite bind_inr; [|reflexivity].
    erewrite bind_inr; [|reflexivity].
    erewrite bind_inr; [|reflexivity].
    intros [= <- <-]. done.
  - erewrite bind_inl; [|reflexivity]. done.
Qed.



(** [deleteRule] once the lookup of the rule is known. *)
Lemma deleteRule_found `{Runtime} id clk st rule st1 :
  RuleService.getRule id clk st = (inr (Some rule), st1) →
  RuleServiceWrites.deleteRule id clk st
  = (inr true,
     State (List.filter (λ kv, negb (String.eqb id (fst kv))) (cache st1))
           (delete ("rule:" +:+ id) (storage st1))).
Proof.
  intros Hget. unfold RuleServiceWrites.deleteRule.
  erewrite bind_inr; [|exact Hget]. cbv beta iota.
  erewrite bind_inr; [|reflexivity].
  erewrite bind_inr; [|reflexivity]. done.
Qed.

Lemma deleteRule_missing `{Runtime} id clk st st1 :
  RuleService.getRule id clk st = (inr None, st1) →
  RuleServiceWrites.deleteRule id clk st = (inr false, st1).
Proof.
  intros Hget. unfold RuleServiceWrites.deleteRule.
  erewrite bind_inr; [|exact Hget]. done.
Qed.

Lemma getRule_after_delete `{Runtime} id clk (rules : RuleCache.t) (db : redis) :
  let st' := State (List.filter (λ kv, negb (String.eqb id (fst kv))) rules)
                   (delete ("rule:" +:+ id) db) in
  RuleService.getRule id clk st' = (inr None, st').
Proof.
  intros st'. apply getRule_absent.
  - apply (get_after_delete id rules).
  - apply lookup_delete_eq.
Qed.

(** X12. [deleteRule] that returns [true] has removed the rule for good: the
    cache no longer holds the id and the store no longer holds its key, so
    [getRule] finds nothing and a second [deleteRule] returns [false] and
    changes nothing. *)
Theorem deleteRule_removes `{Runtime} id clk clk' (st st' : ServiceState) :
  RuleServiceWrites.deleteRule id clk st = (inr true, st') →
  RuleCache.get id (cache st') = None
  ∧ storage st' !! ("rule:" +:+ id) = None
  ∧ RuleService.getRule id clk' st' = (inr None, st')
  ∧ RuleServiceWrites.deleteRule id clk' st' = (inr false, st').
Proof.
  intros Hdel.
  destruct (RuleService.getRule id clk st) as [[e|[rule|]] st1] eqn:Hget.
  - unfold RuleServiceWrites.deleteRule in Hdel.
    erewrite bind_inl in Hdel; [|exact Hget]. done.
  - rewrite (deleteRule_found id clk st rule st1 Hget) in Hdel.
    injection Hdel as <-. cbn [cache storage].
    split; [apply (get_after_delete id (cache st1))|].
    split; [apply lookup_delete_eq|].
    split; [apply getRule_after_delete|].
    apply deleteRule_missing, getRule_after_delete.
  - rewrite (deleteRule_missing id clk st st1 Hget) in Hdel. done.
Qed.

Lemma deleteRule_removes_witness :
  let uuid := "123e4567-e89b-12d3-a456-426614174000" in
  let rule := Rule.Build uuid "burst" token_bucket 10 60
                [KeyConfig.Build KeyType.user "*"] None [80; 90; 100] true
                (Some 1000) (Some 1001) in
  let st := State [(uuid, rule)]
              {[ "rule:" +:+ uuid := Entry (VText "{}") None ]} in
  @RuleServiceWrites.deleteRule example_runtime uuid 2000 st
  = (inr true, State [] ∅)
  ∧ @RuleService.getRule example_runtime uuid 3000 (State [] ∅)
    = (inr None, State [] ∅).
Proof.
  intros uuid rule st.
  assert (H1 : @RuleServiceWrites.deleteRule example_runtime uuid 2000 st
               = (inr true, State [] ∅)) by (vm_compute; reflexivity).
  split; [exact H1|].
  exact (proj1 (proj2 (proj2 (@deleteRule_removes example_runtime uuid 2000 3000
                                st (State [] ∅) H1)))).
Defined.

(** ** Rules: precedence *)

Lemma find_app_Some {A} (f : A → bool) (l1 l2 : list A) x :
  List.find f l1 = Some x → List.find f (l1 ++ l2) = Some x.
Proof.
  induction l1 as [|a l1 IH]; simpl; [done|]. by destruct (f a).
Qed.

Lemma find_app_None {A} (f : A → bool) (l1 l2 : list A) :
  List.find f l1 = None → List.find f (l1 ++ l2) = List.find f l2.
Proof.
  induction l1 as [|a l1 IH]; simpl; [done|]. by destruct (f a).
Qed.

(** X13. A rule created under an id the cache does not hold yet goes to the
    end of the list of rules, so it never takes a key away from an older rule:
    whatever [findMatchingRule] returned before, it returns after; only a key
    that matched no rule before can fall to the new rule, and it does so
    exactly when the new rule is enabled and one of its keys matches. *)
Theorem created_rule_has_least_precedence `{Runtime}
    request uuidv4 date1 date2 clk (st st' : ServiceState) rule :
  RuleService.createRule request uuidv4 date1 date2 clk st = (inr rule, st') →
  RuleCache.get (Rule.id rule) (cache st) = None →
  RuleCache.getAll (cache st') = RuleCache.getAll (cache st) ++ [rule]
  ∧ ∀ key endpoint,
      RuleService.findMatchingRule key endpoint st'
      = (inr match RuleCache.findByKey key endpoint (cache st) with
             | Some older => Some older
             | None => if RuleCache.rule_matches key rule then Some rule else None
             end, st').
Proof.
  intros Hcreate Hfresh.
  destruct (createRule_inv _ _ _ _ _ _ _ _ Hcreate) as (_ & _ & ->).
  cbn [cache].
  assert (Hall : RuleCache.getAll (RuleCache.set rule (cache st))
                 = RuleCache.getAll (cache st) ++ [rule]).
  { unfold RuleCache.set. rewrite set_at_fresh by done.
    unfold RuleCache.getAll. by rewrite fmap_app. }
  split; [exact Hall|].
  intros key endpoint. unfold RuleService.findMatchingRule. cbn [cache].
  f_equal. f_equal. unfold RuleCache.findByKey. rewrite Hall.
  destruct (List.find (RuleCache.rule_matches key) (RuleCache.getAll (cache st)))
    as [older|] eqn:Hfind.
  - by apply find_app_Some.
  - rewrite find_app_None by done. simpl.
    by destruct (RuleCache.rule_matches key rule).
Qed.
Lemma created_rule_has_least_precedence_witness :
  let uuid := "123e4567-e89b-12d3-a456-426614174000" in
  let older := Rule.Build "00000000-0000-0000-0000-000000000001" "all"
                 fixed_window 100 60 [KeyConfig.Build KeyType.user "*"] None
                 [80; 90; 100] true (Some 1) (Some 1) in
  let request := CreateRuleRequest.Build None "burst" token_bucket 10 60
                   [KeyConfig.Build KeyType.user "user:"] None None None in
  let rule := Rule.Build uuid "burst" token_bucket 10 60
                [KeyConfig.Build KeyType.user "user:"] None [80; 90; 100] true
                (Some 1000) (Some 1001) in
  let st := State [(Rule.id older, older)] ∅ in
  let st' := snd (@RuleService.createRule example_runtime request uuid
                    1000 1001 1002 st) in
  (@RuleService.createRule example_runtime request uuid 1000 1001 1002 st
   = (inr rule, st')
   ∧ RuleCache.get (Rule.id rule) (cache st) = None)
  ∧ RuleService.findMatchingRule "user:1" None st' = (inr (Some older), st').
Proof.
  intros uuid older request rule st st'.
  assert (H1 : @RuleService.createRule example_runtime request uuid 1000 1001
                 1002 st = (inr rule, st')) by (vm_compute; reflexivity).
  assert (H2 : RuleCache.get (Rule.id rule) (cache st) = None) by reflexivity.
  split; [by split|].
  exact (proj2 (@created_rule_has_least_precedence example_runtime request uuid
                  1000 1001 1002 st st' rule H1 H2) "user:1" None).
Defined.

(** ** The rule routes *)

(** A request that passes [CreateRuleSchema] makes a rule that passes
    [RuleSchema]. *)
Lemma created_rule_valid `{Runtime} body uuidv4 date1 date2 :
  is_uuid EmptyString = false →
  CreateRuleSchema_ok body = true →
  is_uuid uuidv4 = true →
  ∃ validated rule,
    (∀ st : ServiceState,
       RuleRoutes.CreateRuleSchema_parse body st = (inr validated, st))
    ∧ (∀ clk st,
         RuleService.createRule validated uuidv4 date1 date2 clk st
         = (inr rule,
            State (RuleCache.set rule (cache st))
                  (<["rule:" +:+ Rule.id rule :=
                       Entry (VText (JSON_stringify rule)) None]> (storage st))))
    ∧ RuleSchema_ok rule = true.
Proof.
  intros Hempty Hok Huuid.
  unfold RuleRoutes.CreateRuleSchema_parse. rewrite Hok.
  set (validated :=
    {| CreateRuleRequest.id := CreateRuleRequest.id body;
       CreateRuleRequest.name := CreateRuleRequest.name body;
       CreateRuleRequest.algorithm := CreateRuleRequest.algorithm body;
       CreateRuleRequest.limit := CreateRuleRequest.limit body;
       CreateRuleRequest.window := CreateRuleRequest.window body;
       CreateRuleRequest.keys := CreateRuleRequest.keys body;
       CreateRuleRequest.webhookUrl := CreateRuleRequest.webhookUrl body;
       CreateRuleRequest.thresholds :=
         Some (default [80; 90; 100] (CreateRuleRequest.thresholds body));
       CreateRuleRequest.enabled :=
         Some (default true (CreateRuleRequest.enabled body)) |}).
  pose (rule :=
    {| Rule.id := match truthy_string (CreateRuleRequest.id body) with
                  | Some i => i
                  | None => uuidv4
                  end;
       Rule.name := CreateRuleRequest.name body;
       Rule.algorithm := CreateRuleRequest.algorithm body;
       Rule.limit := CreateRuleRequest.limit body;
       Rule.window := CreateRuleRequest.window body;
       Rule.keys := CreateRuleRequest.keys body;
       Rule.webhookUrl := CreateRuleRequest.webhookUrl body;
       Rule.thresholds := default [80; 90; 100] (CreateRuleRequest.thresholds body);
       Rule.enabled := default true (CreateRuleRequest.enabled body);
       Rule.createdAt := Some date1;
       Rule.updatedAt := Some date2 |}).
  assert (Hvalid : RuleSchema_ok rule = true).
  { unfold CreateRuleSchema_ok in Hok. unfold RuleSchema_ok.
    repeat (apply andb_prop in Hok as [Hok ?]).
    subst rule.
    cbn [Rule.id Rule.name Rule.limit Rule.window Rule.keys Rule.webhookUrl
         Rule.thresholds].
    repeat (apply andb_true_intro; split); try done.
    destruct (CreateRuleRequest.id body) as [i|]; cbn [truthy_string]; [|done].
    destruct (String.eqb_spec i EmptyString) as [->|Hne]; [congruence|done]. }
  exists validated, rule. split; [done|]. split; [|done].
  intros clk st. unfold RuleService.createRule. cbv zeta.
  change (RuleSchema_parse _) with (@RuleSchema_parse _ ServiceState rule).
  unfold RuleSchema_parse. rewrite Hvalid.
  erewrite bind_inr; [|reflexivity].
  erewrite bind_inr; [|reflexivity].
  erewrite bind_inr; [|reflexivity]. done.
Qed.

(** X14. The life of a rule through the REST handlers.  A body that passes
    [CreateRuleSchema] is answered by [POST /v1/rules] with status 201 and
    the rule made; from then on [GET /v1/rules/:id] answers 200 with that
    rule; [DELETE /v1/rules/:id] answers 204 with no body; after which [GET]
    and a second [DELETE] both answer 404 ["Rule not found"] and change
    nothing. *)
Theorem rule_routes_lifecycle `{Runtime}
    body uuidv4 date1 date2 clk (st : ServiceState) :
  is_uuid EmptyString = false →
  CreateRuleSchema_ok body = true →
  is_uuid uuidv4 = true →
  ∃ rule st1 st2,
    RuleRoutes.post body uuidv4 date1 date2 clk st
    = (inr (Reply.Build 201 [] (RuleBody rule)), st1)
    ∧ (∀ clk', RuleRoutes.get (Rule.id rule) clk' st1
               = (inr (Reply.Build 200 [] (RuleBody rule)), st1))
    ∧ (∀ clk', RuleRoutes.delete (Rule.id rule) clk' st1
               = (inr (Reply.Build 204 [] NoBody), st2))
    ∧ (∀ clk', RuleRoutes.get (Rule.id rule) clk' st2
               = (inr (Reply.Build 404 [] (ErrorText "Rule not found")), st2))
    ∧ (∀ clk', RuleRoutes.delete (Rule.id rule) clk' st2
               = (inr (Reply.Build 404 [] (ErrorText "Rule not found")), st2)).
Proof.
  intros Hempty Hok Huuid.
  destruct (created_rule_valid body uuidv4 date1 date2 Hempty Hok Huuid)
    as (validated & rule & Hparse & Hcreate & _).
  set (db1 := <["rule:" +:+ Rule.id rule :=
                  Entry (VText (JSON_stringify rule)) None]> (storage st)).
  set (st1 := State (RuleCache.set rule (cache st)) db1).
  set (st2 := State (List.filter (λ kv, negb (String.eqb (Rule.id rule) (fst kv)))
                                 (cache st1))
                    (delete ("rule:" +:+ Rule.id rule) (storage st1))).
  assert (Hget1 : ∀ clk', RuleService.getRule (Rule.id rule) clk' st1
                          = (inr (Some rule), st1)).
  { intros clk'. apply getRule_cached. apply get_set_at. }
  assert (Hget2 : ∀ clk', RuleService.getRule (Rule.id rule) clk' st2
                          = (inr None, st2)).
  { intros clk'. apply getRule_after_delete. }
  exists rule, st1, st2. split; [|split; [|split; [|split]]].
  - unfold RuleRoutes.post.
    erewrite try_catch_inr; [reflexivity|].
    erewrite bind_inr; [|apply Hparse].
    erewrite bind_inr; [|apply Hcreate]. done.
  - intros clk'. unfold RuleRoutes.get.
    erewrite try_catch_inr; [reflexivity|].
    erewrite bind_inr; [|apply Hget1]. done.
  - intros clk'. unfold RuleRoutes.delete.
    erewrite try_catch_inr; [reflexivity|].
    erewrite bind_inr; [|exact (deleteRule_found _ clk' st1 rule st1 (Hget1 clk'))].
    done.
  - intros clk'. unfold RuleRoutes.get.
    erewrite try_catch_inr; [reflexivity|].
    erewrite bind_inr; [|apply Hget2]. done.
  - intros clk'. unfold RuleRoutes.delete.
    erewrite try_catch_inr; [reflexivity|].
    erewrite bind_inr; [|exact (deleteRule_missing _ clk' st2 st2 (Hget2 clk'))].
    done.
Qed.
Lemma rule_routes_lifecycle_witness :
  let uuid := "123e4567-e89b-12d3-a456-426614174000" in
  let body := CreateRuleRequest.Build None "burst" token_bucket 10 60
                [KeyConfig.Build KeyType.user "*"] None None None in
  let st := State [] ∅ in
  (@is_uuid example_runtime EmptyString = false
   ∧ @CreateRuleSchema_ok example_runtime body = true
   ∧ @is_uuid example_runtime uuid = true)
  ∧ ∃ rule st1 st2,
      @RuleRoutes.post example_runtime body uuid 1000 1001 1002 st
      = (inr (Reply.Build 201 [] (RuleBody rule)), st1)
      ∧ (∀ clk', @RuleRoutes.get example_runtime (Rule.id rule) clk' st1
                 = (inr (Reply.Build 200 [] (RuleBody rule)), st1))
      ∧ (∀ clk', @RuleRoutes.delete example_runtime (Rule.id rule) clk' st1
                 = (inr (Reply.Build 204 [] NoBody), st2))
      ∧ (∀ clk', @RuleRoutes.get example_runtime (Rule.id rule) clk' st2
                 = (inr (Reply.Build 404 [] (ErrorText "Rule not found")), st2))
      ∧ (∀ clk', @RuleRoutes.delete example_runtime (Rule.id rule) clk' st2
                 = (inr (Reply.Build 404 [] (ErrorText "Rule not found")), st2)).
Proof.
  intros uuid body st.
  assert (H1 : @is_uuid example_runtime EmptyString = false) by reflexivity.
  assert (H2 : @CreateRuleSchema_ok example_runtime body = true)
    by reflexivity.
  assert (H3 : @is_uuid example_runtime uuid = true) by reflexivity.
  split; [by repeat split|].
  exact (@rule_routes_lifecycle example_runtime body uuid 1000 1001 1002 st
           H1 H2 H3).
Defined.

(** ** Webhook delivery *)

Section WebhookDeliveryFacts.
Context `{Crypto}.
Context (maxRetries retryDelay : Z) (respond : nat → post_outcome).
Context (url : string) (payload : WebhookPayload.t) (secret : option string).

Let the_post : Post :=
  MkPost url
    ([("Content-Type", "application/json");
      ("User-Agent", "RateLimiter-Webhook/1.0")]
     ++ match truthy_string secret with
        | Some secret =>
            [("X-Webhook-Signature",
              "sha256=" +:+ hmac_sha256_hex secret (stringify_payload payload))]
        | None => []
        end)
    payload.

Lemma sendWebhook_delivered net :
  delivered (respond (length (posts net))) = true →
  WebhookDelivery.sendWebhook respond url payload secret net
  = (inr tt, MkNet (posts net ++ [the_post]) (sleeps net)).
Proof.
  unfold WebhookDelivery.sendWebhook, delivered, the_post,
    WebhookDelivery.generateSignature.
  destruct (respond (length (posts net))) as [status text| |e]; try done.
  intros ->. by destruct (truthy_string secret).
Qed.

Lemma sendWebhook_failed net :
  delivered (respond (length (posts net))) = false →
  ∃ error,
    WebhookDelivery.sendWebhook respond url payload secret net
    = (inl error, MkNet (posts net ++ [the_post]) (sleeps net))
    ∧ match error with
      | AnError message => Some message
      | NotAnError => Some "Unknown error"
      end = Some (failure_message (respond (length (posts net)))).
Proof.
  unfold WebhookDelivery.sendWebhook, delivered, the_post,
    WebhookDelivery.generateSignature, failure_message.
  destruct (respond (length (posts net))) as [status text| |e].
  - intros ->. eexists. split; [by destruct (truthy_string secret)|done].
  - intros _. eexists. split; [by destruct (truthy_string secret)|done].
  - intros _. exists e. split; [by destruct (truthy_string secret)|].
    by destruct e.
Qed.

Lemma delays_S (attempt : Z) (k : nat) :
  (λ i, retryDelay * 2 ^ (attempt + Z.of_nat i)) <$> seq 0 (S k)
  = retryDelay * 2 ^ attempt
    :: ((λ i, retryDelay * 2 ^ (attempt + 1 + Z.of_nat i)) <$> seq 0 k).
Proof.
  cbn [seq]. rewrite fmap_cons. f_equal.
  - by rewrite Z.add_0_r.
  - rewrite <- seq_shift.
    change (map S (seq 0 k)) with (S <$> seq 0 k).
    rewrite <- list_fmap_compose. apply list_fmap_ext.
    intros _ i _. simpl. do 2 f_equal. lia.
Qed.

(** The loop from [attempt] on, when the POST of round [k] is the first to
    be delivered. *)
Lemma attempts_deliver rounds : ∀ (k : nat) attempt lastError net,
  (k < rounds)%nat →
  attempt + Z.of_nat rounds = maxRetries + 1 →
  (∀ i, (i < k)%nat → delivered (respond (length (posts net) + i)) = false) →
  delivered (respond (length (posts net) + k)) = true →
  WebhookDelivery.attempts maxRetries retryDelay respond rounds attempt lastError
    url payload secret net
  = (Delivered,
     MkNet (posts net ++ replicate (S k) the_post)
           (sleeps net
            ++ ((λ i, retryDelay * 2 ^ (attempt + Z.of_nat i)) <$> seq 0 k))).
Proof.
  induction rounds as [|rounds IH]; intros k attempt lastError net Hk Hrounds
    Hfail Hok; [lia|].
  cbn [WebhookDelivery.attempts].
  destruct k as [|k].
  - rewrite Nat.add_0_r in Hok.
    rewrite sendWebhook_delivered by done.
    by rewrite app_nil_r.
  - assert (Hnow : delivered (respond (length (posts net))) = false).
    { rewrite <- (Nat.add_0_r (length _)). apply Hfail. lia. }
    destruct (sendWebhook_failed net Hnow) as (error & -> & Hmsg).
    assert ((attempt <? maxRetries) = true) as -> by (apply Z.ltb_lt; lia).
    rewrite (IH k).
    + cbn [posts sleeps WebhookDelivery.sleep]. rewrite delays_S.
      rewrite <- !app_assoc. reflexivity.
    + lia.
    + lia.
    + cbn [posts WebhookDelivery.sleep]. intros i Hi.
      rewrite length_app. simpl.
      replace (length (posts net) + 1 + i)%nat
        with (length (posts net) + S i)%nat by lia.
      apply Hfail. lia.
    + cbn [posts WebhookDelivery.sleep]. rewrite length_app. simpl.
      replace (length (posts net) + 1 + k)%nat
        with (length (posts net) + S k)%nat by lia.
      done.
Qed.

(** The loop from [attempt] on, when no POST is delivered. *)
Lemma attempts_exhaust rounds : ∀ attempt lastError net,
  attempt + Z.of_nat rounds = maxRetries + 1 →
  (∀ i, (i < rounds)%nat →
        delivered (respond (length (posts net) + i)) = false) →
  WebhookDelivery.attempts maxRetries retryDelay respond rounds attempt lastError
    url payload secret net
  = (Throws match rounds with
            | O => lastError
            | S n => Some (failure_message (respond (length (posts net) + n)))
            end,
     MkNet (posts net ++ replicate rounds the_post)
           (sleeps net
            ++ ((λ i, retryDelay * 2 ^ (attempt + Z.of_nat i))
                <$> seq 0 (pred rounds)))).
Proof.
  induction rounds as [|rounds IH]; intros attempt lastError net Hrounds Hfail.
  - cbn [WebhookDelivery.attempts replicate pred seq fmap list_fmap].
    rewrite !app_nil_r. by destruct net.
  - cbn [WebhookDelivery.attempts].
    assert (Hnow : delivered (respond (length (posts net))) = false).
    { rewrite <- (Nat.add_0_r (length _)). apply Hfail. lia. }
    destruct (sendWebhook_failed net Hnow) as (error & -> & Hmsg).
    rewrite Hmsg.
    destruct rounds as [|rounds].
    + assert ((attempt <? maxRetries) = false) as -> by (apply Z.ltb_ge; lia).
      cbn [WebhookDelivery.attempts replicate pred seq fmap list_fmap].
      by rewrite Nat.add_0_r, app_nil_r.
    + assert ((attempt <? maxRetries) = true) as -> by (apply Z.ltb_lt; lia).
      rewrite IH.
      * cbn [posts sleeps WebhookDelivery.sleep pred]. rewrite delays_S.
        rewrite length_app, <- !app_assoc. cbn [length].
        replace (length (posts net) + 1 + rounds)%nat
          with (length (posts net) + S rounds)%nat by lia.
        reflexivity.
      * lia.
      * cbn [posts WebhookDelivery.sleep]. intros i Hi.
        rewrite length_app. simpl.
        replace (length (posts net) + 1 + i)%nat
          with (length (posts net) + S i)%nat by lia.
        apply Hfail. lia.
Qed.

End WebhookDeliveryFacts.
Lemma backoff_total retryDelay (n : nat) :
  foldr Z.add 0 (backoff retryDelay n) = retryDelay * (2 ^ Z.of_nat n - 1).
Proof.
  unfold backoff. induction n as [|n IH].
  - simpl. lia.
  - rewrite seq_S, fmap_app, foldr_app. simpl.
    rewrite Nat2Z.inj_succ, Z.pow_succ_r by lia.
    assert (Hshift : ∀ (l : list Z) a,
              foldr Z.add a l = foldr Z.add 0 l + a).
    { clear. induction l as [|x l IHl]; intros a; simpl; [lia|].
      rewrite IHl. lia. }
    rewrite Hshift, IH. lia.
Qed.

(** X15. [notify] when the receiving end fails [k] times and then answers
    with a 2xx status, [k] being at most [maxRetries]: the notification is
    delivered by [k + 1] identical POSTs — same URL, same payload, the two
    fixed headers and, exactly when the secret is a non-empty string, the
    signature header ["sha256=" + HMAC] — with the delays
    [retryDelay · 2^i], [i = 0, …, k − 1], slept in between. *)
Theorem notify_delivers_with_backoff `{Crypto}
    maxRetries retryDelay respond url payload secret (k : nat) :
  Z.of_nat k ≤ maxRetries →
  (∀ i, (i < k)%nat → delivered (respond i) = false) →
  delivered (respond k) = true →
  ∃ post,
    WebhookDelivery.notify maxRetries retryDelay respond url payload secret
      (MkNet [] [])
    = (Delivered, MkNet (replicate (S k) post) (backoff retryDelay k))
    ∧ post_url post = url
    ∧ post_data post = payload
    ∧ post_headers post
      = [("Content-Type", "application/json");
         ("User-Agent", "RateLimiter-Webhook/1.0")]
        ++ match truthy_string secret with
           | Some secret =>
               [("X-Webhook-Signature",
                 "sha256=" +:+ hmac_sha256_hex secret (stringify_payload payload))]
           | None => []
           end.
Proof.
  intros Hk Hfail Hok.
  exists (MkPost url
            ([("Content-Type", "application/json");
              ("User-Agent", "RateLimiter-Webhook/1.0")]
             ++ match truthy_string secret with
                | Some secret =>
                    [("X-Webhook-Signature",
                      "sha256=" +:+ hmac_sha256_hex secret
                                      (stringify_payload payload))]
                | None => []
                end)
            payload).
  split; [|split; [|split]]; [|reflexivity..].
  unfold WebhookDelivery.notify.
  rewrite (attempts_deliver maxRetries retryDelay respond url payload secret
             (Z.to_nat (maxRetries + 1)) k 0 None (MkNet [] []));
    [reflexivity | lia | lia | done | done].
Qed.

Lemma notify_delivers_with_backoff_witness :
  (Z.of_nat 2 ≤ 3
   ∧ (∀ i, (i < 2)%nat → delivered (recovering i) = false)
   ∧ delivered (recovering 2) = true)
  ∧ ∃ post,
      @WebhookDelivery.notify example_crypto 3 1000 recovering
        "https://example.org/hook" example_payload (Some "s3cret") (MkNet [] [])
      = (Delivered, MkNet [post; post; post] [1000; 2000]).
Proof.
  assert (H1 : Z.of_nat 2 ≤ 3) by (simpl; lia).
  assert (H2 : ∀ i, (i < 2)%nat → delivered (recovering i) = false).
  { intros i Hi. destruct i as [|[|i]]; [reflexivity | reflexivity | lia]. }
  assert (H3 : delivered (recovering 2) = true) by reflexivity.
  split; [by repeat split|].
  destruct (@notify_delivers_with_backoff example_crypto 3 1000 recovering
              "https://example.org/hook" example_payload (Some "s3cret") 2
              H1 H2 H3) as (post & Hrun & _).
  exists post. exact Hrun.
Defined.

(** X16. [notify] when none of the [maxRetries + 1] POSTs is delivered: it
    makes exactly [maxRetries + 1] POSTs, sleeps [retryDelay · 2^i] after each
    but the last, [retryDelay · (2^maxRetries − 1)] in total, and throws the
    error of the last failure: ["Webhook request failed: <status>
    <statusText>"] for a response outside 200–299. *)
Theorem notify_gives_up `{Crypto}
    maxRetries retryDelay respond url payload secret :
  0 ≤ maxRetries →
  (∀ i, (i ≤ Z.to_nat maxRetries)%nat → delivered (respond i) = false) →
  ∃ net,
    WebhookDelivery.notify maxRetries retryDelay respond url payload secret
      (MkNet [] [])
    = (Throws (Some (failure_message (respond (Z.to_nat maxRetries)))), net)
    ∧ length (posts net) = S (Z.to_nat maxRetries)
    ∧ sleeps net = backoff retryDelay (Z.to_nat maxRetries)
    ∧ foldr Z.add 0 (sleeps net) = retryDelay * (2 ^ maxRetries - 1).
Proof.
  intros Hmax Hfail.
  unfold WebhookDelivery.notify.
  replace (Z.to_nat (maxRetries + 1)) with (S (Z.to_nat maxRetries)) by lia.
  rewrite (attempts_exhaust maxRetries retryDelay respond url payload secret
             (S (Z.to_nat maxRetries)) 0 None (MkNet [] []));
    [| lia | intros i Hi; apply Hfail; simpl; lia].
  eexists. split; [reflexivity|]. cbn [posts sleeps pred app length].
  split; [by rewrite length_replicate|].
  split; [reflexivity|].
  change ((λ i, retryDelay * 2 ^ (0 + Z.of_nat i)) <$> seq 0 (Z.to_nat maxRetries))
    with (backoff retryDelay (Z.to_nat maxRetries)).
  rewrite backoff_total. by rewrite Z2Nat.id.
Qed.

Lemma notify_gives_up_witness :
  (0 ≤ 3
   ∧ ∀ i, (i ≤ Z.to_nat 3)%nat → delivered (unavailable i) = false)
  ∧ ∃ net,
      @WebhookDelivery.notify example_crypto 3 1000 unavailable
        "https://example.org/hook" example_payload None (MkNet [] [])
      = (Throws (Some "Webhook request failed: 503 Service Unavailable"), net)
      ∧ length (posts net) = 4%nat
      ∧ sleeps net = [1000; 2000; 4000].
Proof.
  assert (H1 : 0 ≤ 3) by lia.
  assert (H2 : ∀ i, (i ≤ Z.to_nat 3)%nat → delivered (unavailable i) = false)
    by (intros i _; reflexivity).
  split; [by split|].
  destruct (@notify_gives_up example_crypto 3 1000 unavailable
              "https://example.org/hook" example_payload None H1 H2)
    as (net & Hrun & Hposts & Hsleeps & _).
  exists net. split; [exact Hrun|]. split; [exact Hposts | exact Hsleeps].
Defined.

(** ** The limiter instances *)

Section LimiterInstancesFacts.
Context {H : Type}.
Implicit Types (m : LimiterInstances.instances H) (calls : list (AlgorithmType * H)).

Lemma AlgorithmType_eqb_eq a b :
  LimiterInstances.AlgorithmType_eqb a b = true ↔ a = b.
Proof. by destruct a, b. Qed.

Lemma AlgorithmType_eqb_refl a : LimiterInstances.AlgorithmType_eqb a a = true.
Proof. by destruct a. Qed.

Lemma lookup_set_eq a l m :
  LimiterInstances.lookup a (LimiterInstances.set a l m) = Some l.
Proof.
  induction m as [|[b l'] m IH]; simpl.
  - by rewrite AlgorithmType_eqb_refl.
  - destruct (LimiterInstances.AlgorithmType_eqb a b) eqn:E; simpl.
    + by rewrite E.
    + by rewrite E.
Qed.

Lemma lookup_set_ne a b l m :
  a ≠ b →
  LimiterInstances.lookup b (LimiterInstances.set a l m)
  = LimiterInstances.lookup b m.
Proof.
  intros Hne. induction m as [|[c l'] m IH]; simpl.
  - destruct (LimiterInstances.AlgorithmType_eqb b a) eqn:E; [|done].
    apply AlgorithmType_eqb_eq in E. congruence.
  - destruct (LimiterInstances.AlgorithmType_eqb a c) eqn:E; simpl.
    + apply AlgorithmType_eqb_eq in E as <-.
      destruct (LimiterInstances.AlgorithmType_eqb b a) eqn:E'; [|done].
      apply AlgorithmType_eqb_eq in E'. congruence.
    + by rewrite IH.
Qed.

Lemma create_eq (a : AlgorithmType) (s : H) :
  LimiterInstances.create a s = LimiterInstances.Limiter a s.
Proof. by destruct a. Qed.

(** One [get]: the table answers for an algorithm it holds, and otherwise
    takes the limiter built on the storage passed. *)
Lemma get_eq a s m :
  LimiterInstances.get a s m
  = match LimiterInstances.lookup a m with
    | Some l => (Some l, m)
    | None =>
        (Some (LimiterInstances.Limiter a s),
         LimiterInstances.set a (LimiterInstances.Limiter a s) m)
    end.
Proof.
  unfold LimiterInstances.get, LimiterInstances.has.
  destruct (LimiterInstances.lookup a m) as [l|] eqn:E.
  - rewrite bool_decide_eq_true_2 by (by eexists). simpl. by rewrite E.
  - rewrite bool_decide_eq_false_2 by (by intros [? ?]). simpl.
    by rewrite create_eq, lookup_set_eq.
Qed.

Lemma gets_cons a s calls m :
  LimiterInstances.gets ((a, s) :: calls) m
  = (fst (LimiterInstances.get a s m)
     :: fst (LimiterInstances.gets calls (snd (LimiterInstances.get a s m))),
     snd (LimiterInstances.gets calls (snd (LimiterInstances.get a s m)))).
Proof.
  cbn [LimiterInstances.gets].
  destruct (LimiterInstances.get a s m) as [l m1]. cbn [fst snd].
  by destruct (LimiterInstances.gets calls m1).
Qed.

Lemma gets_lookup calls : ∀ m i a s,
  calls !! i = Some (a, s) →
  fst (LimiterInstances.gets calls m) !! i
  = Some match LimiterInstances.lookup a m with
         | Some l => Some l
         | None => LimiterInstances.Limiter a <$> first_for a calls
         end.
Proof.
  induction calls as [|[b s0] calls IH]; intros m i a s Hi; [done|].
  rewrite gets_cons, get_eq. cbn [fst].
  destruct i as [|i].
  - injection Hi as -> ->.
    cbn [first_for]. rewrite AlgorithmType_eqb_refl.
    by destruct (LimiterInstances.lookup a m) as [l|].
  - rewrite lookup_cons in Hi. rewrite lookup_cons.
    destruct (LimiterInstances.lookup b m) as [l|] eqn:Eb; cbn [snd].
    + rewrite (IH m i a s Hi).
      destruct (LimiterInstances.lookup a m) as [l'|] eqn:Ea; [done|].
      cbn [first_for].
      destruct (LimiterInstances.AlgorithmType_eqb a b) eqn:E; [|done].
      apply AlgorithmType_eqb_eq in E as ->. congruence.
    + rewrite (IH _ i a s Hi).
      cbn [first_for].
      destruct (LimiterInstances.AlgorithmType_eqb a b) eqn:E.
      * apply AlgorithmType_eqb_eq in E as ->.
        by rewrite lookup_set_eq, Eb.
      * rewrite lookup_set_ne; [done|].
        intros ->. by rewrite AlgorithmType_eqb_refl in E.
Qed.

Lemma first_for_index a calls i s :
  calls !! i = Some (a, s) →
  ∃ (j : nat) s0,
    (j ≤ i)%nat ∧ calls !! j = Some (a, s0)
    ∧ (∀ (j' : nat) s', (j' < j)%nat → calls !! j' ≠ Some (a, s'))
    ∧ first_for a calls = Some s0.
Proof.
  revert i. induction calls as [|[b s1] calls IH]; intros i Hi; [done|].
  cbn [first_for].
  destruct (LimiterInstances.AlgorithmType_eqb a b) eqn:E.
  - apply AlgorithmType_eqb_eq in E as ->.
    exists 0%nat, s1. split; [lia|]. split; [done|]. split; [|done].
    intros j' s' Hj'. lia.
  - destruct i as [|i].
    + injection Hi as -> ->. by rewrite AlgorithmType_eqb_refl in E.
    + destruct (IH i Hi) as (j & s0 & Hj & Hcj & Hfirst & Hff).
      exists (S j), s0. split; [lia|]. split; [done|]. split; [|done].
      intros [|j'] s' Hj'; rewrite lookup_cons.
      * intros [= -> _]. by rewrite AlgorithmType_eqb_refl in E.
      * apply Hfirst. lia.
Qed.

End LimiterInstancesFacts.

(** X17. [AlgorithmFactory.get] keeps the first limiter it built for an
    algorithm.  Along any run of calls from the empty table, each call is
    answered with a limiter of the class asked for, bound to the storage that
    the first call for that algorithm passed; the storage passed by a later
    call is ignored. *)
Theorem factory_first_storage_wins {H : Type}
    (calls : list (AlgorithmType * H)) (i : nat) a s :
  calls !! i = Some (a, s) →
  ∃ (j : nat) s0,
    (j ≤ i)%nat
    ∧ calls !! j = Some (a, s0)
    ∧ (∀ (j' : nat) s', (j' < j)%nat → calls !! j' ≠ Some (a, s'))
    ∧ fst (LimiterInstances.gets calls []) !! i
      = Some (Some (LimiterInstances.Limiter a s0)).
Proof.
  intros Hi.
  destruct (first_for_index a calls i s Hi) as (j & s0 & Hj & Hcj & Hfirst & Hff).
  exists j, s0. split; [done|]. split; [done|]. split; [done|].
  rewrite (gets_lookup calls [] i a s Hi). cbn [LimiterInstances.lookup].
  by rewrite Hff.
Qed.

Lemma factory_first_storage_wins_witness :
  let calls := [(fixed_window, "redis-a"); (token_bucket, "redis-a");
                (fixed_window, "redis-b")] in
  calls !! 2%nat = Some (fixed_window, "redis-b")
  ∧ ∃ (j : nat) s0,
      (j ≤ 2)%nat
      ∧ calls !! j = Some (fixed_window, s0)
      ∧ (∀ (j' : nat) s', (j' < j)%nat → calls !! j' ≠ Some (fixed_window, s'))
      ∧ fst (LimiterInstances.gets calls []) !! 2%nat
        = Some (Some (LimiterInstances.Limiter fixed_window s0)).
Proof.
  intros calls.
  assert (H1 : calls !! 2%nat = Some (fixed_window, "redis-b")) by reflexivity.
  split; [exact H1|].
  exact (factory_first_storage_wins calls 2 fixed_window "redis-b" H1).
Defined.

(** ** Storage *)

(** X19. [Storage.set] followed by [Storage.get]: the value written comes
    back as long as its time to live has not elapsed, and [null] afterwards;
    a time to live of 0 is falsy and stores the value without expiry, as an
    absent one does; other keys read as before; and after [del] the key
    reads [null]. *)
Theorem storage_round_trip clk clk' k v ttl (db : redis) :
  match ttl with Some seconds => 0 ≤ seconds | None => True end →
  ∃ db',
    Storage.set clk k v ttl db = (inr tt, db')
    ∧ Storage.get clk' k db'
      = (inr match truthy_number ttl with
             | Some seconds =>
                 if clk' <? clk + seconds * 1000 then Some v else None
             | None => Some v
             end, db')
    ∧ (∀ k', k' ≠ k →
         fst (Storage.get clk' k' db') = fst (Storage.get clk' k' db))
    ∧ fst (Storage.get clk' k (snd (Storage.del k db'))) = inr None.
Proof.
  intros Httl.
  assert (Hset : ∃ ex,
    Storage.set clk k v ttl db = (inr tt, <[k := Entry (VText v) ex]> db)
    ∧ ex = match truthy_number ttl with
           | Some seconds => Some (clk + seconds * 1000)
           | None => None
           end).
  { unfold Storage.set, truthy_number. destruct ttl as [seconds|]; [|by eauto].
    destruct (seconds =? 0) eqn:E0; [by eauto|].
    assert ((0 <? seconds) = true) as -> by (apply Z.ltb_lt; lia). by eauto. }
  destruct Hset as (ex & Hset & Hex).
  eexists. split; [exact Hset|]. split; [|split].
  - unfold Storage.get, Redis.fetch, Redis.alive.
    rewrite lookup_insert_eq. cbn [expireAt value]. rewrite Hex.
    destruct (truthy_number ttl) as [seconds|]; [|done].
    by destruct (clk' <? clk + seconds * 1000).
  - intros k' Hne. unfold Storage.get.
    rewrite fetch_insert_ne by done.
    destruct (Redis.fetch clk' db k') as [[[n|s|t u] ex']|]; done.
  - unfold Storage.del, Storage.get. cbn [snd].
    rewrite fetch_None; [done|]. apply lookup_delete_eq.
Qed.

Lemma storage_round_trip_witness :
  match Some 0 with Some seconds => 0 ≤ seconds | None => True end
  ∧ ∃ db',
      Storage.set 1000 "rule:1" "{}" (Some 0) ∅ = (inr tt, db')
      ∧ Storage.get 999999 "rule:1" db' = (inr (Some "{}"), db').
Proof.
  assert (H1 : match Some 0 with Some seconds => 0 ≤ seconds | None => True end)
    by (simpl; lia).
  split; [exact H1|].
  destruct (storage_round_trip 1000 999999 "rule:1" "{}" (Some 0) ∅ H1)
    as (db' & Hset & Hget & _).
  exists db'. split; [exact Hset | exact Hget].
Defined.

(** ** Token bucket: expiry *)

(** X20. Token bucket: the expiry of an idle bucket changes no decision.  A
    bucket holding a non-negative amount whose deadline, two windows after
    its stamp, has passed is gone from the store; the check then made gives
    the same result as it would give had the bucket never expired. *)
Theorem token_bucket_expiry_unobservable
    key limit window now tokens last_update d (db : redis) :
  0 < limit → 0 < window →
  db !! TokenBucket.redisKey key
    = Some (Entry (VHash tokens last_update) (Some d)) →
  (0 <= tokens)%Q →
  last_update + window * 2 * 1000 ≤ d →
  d ≤ now →
  fst (TokenBucket.check key limit window now db)
  = fst (TokenBucket.check key limit window now
           (<[TokenBucket.redisKey key :=
                Entry (VHash tokens last_update) None]> db))
  ∧ outcome_allowed (TokenBucket.check key limit window now db) = Some true.
Proof.
  intros HL HW Hdb Ht0 Hd Hnow.
  pose proof (rate_pos limit window HL HW) as Hrate.
  assert (H1L : (1 <= inject_Z limit)%Q).
  { change 1%Q with (inject_Z 1). rewrite <- Zle_Qle. lia. }
  assert (Hgone : tb_read limit now
                    (Redis.fetch now db (TokenBucket.redisKey key))
                  = Some (inject_Z limit, now)).
  { unfold Redis.fetch, Redis.alive. rewrite Hdb. cbn [expireAt].
    assert ((now <? d) = false) as -> by (apply Z.ltb_ge; lia). done. }
  assert (Hkept : tb_read limit now
                    (Redis.fetch now
                       (<[TokenBucket.redisKey key :=
                            Entry (VHash tokens last_update) None]> db)
                       (TokenBucket.redisKey key))
                  = Some (tokens, last_update)).
  { by rewrite fetch_insert_eq. }
  pose proof (tb_check_eq key limit window now db _ _ Hgone) as E1.
  pose proof (tb_check_eq key limit window now _ _ _ Hkept) as E2.
  cbv zeta in E1, E2. rewrite E1, E2. cbn [fst].
  set (r1 := tb_refill limit window (inject_Z limit) now now) in *.
  set (r2 := tb_refill limit window tokens last_update now) in *.
  assert (Hr1 : (r1 == inject_Z limit)%Q).
  { subst r1. unfold tb_refill. rewrite Z.sub_diag.
    apply Q.min_l. change (inject_Z 0) with 0%Q.
    assert (E : (0 / 1000 * (inject_Z limit / inject_Z window) == 0)%Q)
      by (unfold Qdiv; ring).
    rewrite E. lra. }
  assert (Hr2 : (r2 == inject_Z limit)%Q).
  { subst r2. unfold tb_refill. apply Q.min_l.
    set (rate := (inject_Z limit / inject_Z window)%Q) in *.
    assert (He : (inject_Z (2 * window) <= inject_Z (now - last_update) / 1000)%Q).
    { apply Qle_shift_div_l; [done|].
      change 1000%Q with (inject_Z 1000).
      rewrite <- inject_Z_mult, <- Zle_Qle. lia. }
    assert (Hm : (inject_Z (2 * window) * rate
                  <= inject_Z (now - last_update) / 1000 * rate)%Q).
    { apply Qmult_le_compat_r; [done | lra]. }
    assert (Hw : (0 < inject_Z window)%Q) by by apply inject_Z_pos.
    assert (E2' : (inject_Z (2 * window) * rate == 2 * inject_Z limit)%Q).
    { subst rate. rewrite inject_Z_mult. change (inject_Z 2) with 2%Q.
      field. intros E'. rewrite E' in Hw. by apply Qlt_irrefl in Hw. }
    rewrite E2' in Hm.
    set (A := (inject_Z (now - last_update) / 1000 * rate)%Q) in *.
    clearbody A. lra. }
  assert (Ha1 : Qle_bool 1 r1 = true) by (apply Qle_bool_iff; rewrite Hr1; done).
  assert (Ha2 : Qle_bool 1 r2 = true) by (apply Qle_bool_iff; rewrite Hr2; done).
  unfold outcome_allowed. cbn [fst CheckResult.allowed].
  rewrite Ha1, Ha2. split; [|done].
  assert (Hf : Qfloor (r1 - 1) = Qfloor (r2 - 1)).
  { apply Qfloor_comp. rewrite Hr1, Hr2. reflexivity. }
  by rewrite Hf.
Qed.

Lemma token_bucket_expiry_unobservable_witness :
  let db : redis :=
    {[ TokenBucket.redisKey "user:1" := Entry (VHash 0 1000) (Some 121000) ]} in
  (0 < 2 ∧ 0 < 60
   ∧ db !! TokenBucket.redisKey "user:1"
     = Some (Entry (VHash 0 1000) (Some 121000))
   ∧ (0 <= 0)%Q
   ∧ 1000 + 60 * 2 * 1000 ≤ 121000
   ∧ 121000 ≤ 200000)
  ∧ outcome_allowed (TokenBucket.check "user:1" 2 60 200000 db) = Some true.
Proof.
  intros db.
  assert (H1 : 0 < 2) by lia.
  assert (H2 : 0 < 60) by lia.
  assert (H3 : db !! TokenBucket.redisKey "user:1"
               = Some (Entry (VHash 0 1000) (Some 121000)))
    by (vm_compute; reflexivity).
  assert (H4 : (0 <= 0)%Q) by (unfold Qle; simpl; lia).
  assert (H5 : 1000 + 60 * 2 * 1000 ≤ 121000) by lia.
  assert (H6 : 121000 ≤ 200000) by lia.
  split; [by repeat split|].
  exact (proj2 (token_bucket_expiry_unobservable "user:1" 2 60 200000 0 1000
                  121000 db H1 H2 H3 H4 H5 H6)).
Defined.
